(** * Genetic-algorithm class scheduler (main.py): model and properties

    A shallow embedding of [main.py]: the dataclasses, the fitness function of
    [Schedule], the [GeneticAlgorithm] engine, the dataset of
    [create_actual_data] and the report of [main].

    Conventions of the embedding
    - Python [float] is IEEE binary64: Rocq's primitive [float], with the same
      rounding.  Python raises [ZeroDivisionError] on a float division by zero
      where IEEE would give an infinity or a NaN; [py_truediv] does so too.
    - Python [int] is [Z]; [str] is [string]; [Set[str]] is [gset string];
      a [dict] is a [gmap].
    - [Activity], [Room] and [TimeSlot] objects are never written after their
      construction, so they are values.  [ScheduleItem] objects are written by
      [mutate] and [Schedule] objects by [get_fitness]: both live in a store
      and are handled by reference.
    - The [random] module is an oracle: a tape of draws read in order. *)

From Stdlib Require Import Floats ZArith Ascii Sorted.
From stdpp Require Import gmap strings list pretty.

Set Warnings "-inexact-float".
Set Default Proof Using "Type".

Local Open Scope Z_scope.

(** ** Domain model *)

Module Activity.
Record t : Type := mk {
  name : string;
  expected_enrollment : Z;
  preferred_facilitators : gset string;
  other_facilitators : gset string;
  section : option string
}.
#[global] Instance eq_dec : EqDecision t.
Proof. solve_decision. Defined.
#[global] Instance inhabited : Inhabited t := populate (mk "" 0 ∅ ∅ None).
End Activity.

Module Room.
Record t : Type := mk {
  name : string;
  capacity : Z;
  building : string
}.
#[global] Instance eq_dec : EqDecision t.
Proof. solve_decision. Defined.
#[global] Instance inhabited : Inhabited t := populate (mk "" 0 "").
End Room.

(** [format(n, "02d")]: decimal digits, a minus sign for a negative number,
    padded with zeros to a width of two characters, sign included. *)
Definition format_02d (n : Z) : string :=
  match n with
  | Zneg p => "-" +:+ pretty (Npos p)
  | _ => let digits := pretty (Z.to_N n) in
         if decide (String.length digits < 2)%nat then "0" +:+ digits else digits
  end.

Module TimeSlot.
Record t : Type := mk {
  hour : Z;
  minute : Z
}.
#[global] Instance eq_dec : EqDecision t.
Proof. solve_decision. Defined.
#[global] Instance inhabited : Inhabited t := populate (mk 0 0).

(** [__str__]: [f"{self.hour:02d}:{self.minute:02d}"]. *)
Definition str (self : t) : string :=
  format_02d (hour self) +:+ ":" +:+ format_02d (minute self).
End TimeSlot.

Module ScheduleItem.
Record t : Type := mk {
  activity : Activity.t;
  room : Room.t;
  time_slot : TimeSlot.t;
  facilitator : string
}.
(** The generated [__eq__] of a dataclass compares the fields: two distinct
    objects with equal fields are [==]. *)
#[global] Instance eq_dec : EqDecision t.
Proof. solve_decision. Defined.
#[global] Instance inhabited : Inhabited t := populate (mk inhabitant inhabitant inhabitant "").
End ScheduleItem.

Abbreviation item := ScheduleItem.t.
Import ScheduleItem.

(** ** The fitness function, [Schedule.calculate_fitness]

    The body reads [self.items] only; here it is a function of the items the
    list refers to. *)

Module Fitness.

(** First loop: one step for one item.  [facilitator_loads] counts the
    items of each facilitator, [time_slot_assignments] groups the items by
    the string of their time slot, in the order of the schedule. *)
Definition tally (tables : gmap string Z * gmap string (list item)) (it : item)
  : gmap string Z * gmap string (list item) :=
  let '(facilitator_loads, time_slot_assignments) := tables in
  let facilitator_loads :=
    <[facilitator it := default 0 (facilitator_loads !! facilitator it) + 1]>
      facilitator_loads in
  let slot_key := TimeSlot.str (time_slot it) in
  let time_slot_assignments :=
    if decide (is_Some (time_slot_assignments !! slot_key))
    then time_slot_assignments
    else <[slot_key := []]> time_slot_assignments in
  (facilitator_loads,
   <[slot_key := (time_slot_assignments !!! slot_key) ++ [it]]> time_slot_assignments).

Definition tables (items : list item) : gmap string Z * gmap string (list item) :=
  foldl tally (∅, ∅) items.

(** Rule 1, lines 68-71: room conflicts within the time slot. *)
Definition room_conflicts (slot_items : list item) (it : item) (fitness : float) : float :=
  foldl (fun fitness other_item =>
           if bool_decide (other_item ≠ it) && bool_decide (room other_item = room it)
           then (fitness - 0.5)%float else fitness)
        fitness slot_items.

(** Rule 2, lines 74-81: room size. *)
Definition room_size (it : item) (fitness : float) : float :=
  let capacity := Room.capacity (room it) in
  let enrollment := Activity.expected_enrollment (activity it) in
  if bool_decide (capacity < enrollment) then (fitness - 0.5)%float
  else if bool_decide (capacity > 6 * enrollment) then (fitness - 0.4)%float
  else if bool_decide (capacity > 3 * enrollment) then (fitness - 0.2)%float
  else (fitness + 0.3)%float.

(** Rule 3, lines 84-89: facilitator preference. *)
Definition facilitator_preference (it : item) (fitness : float) : float :=
  if bool_decide (facilitator it ∈ Activity.preferred_facilitators (activity it))
  then (fitness + 0.5)%float
  else if bool_decide (facilitator it ∈ Activity.other_facilitators (activity it))
  then (fitness + 0.2)%float
  else (fitness - 0.1)%float.

(** Rule 4, lines 92-97: load of the facilitator in the time slot. *)
Definition slot_load (slot_items : list item) (it : item) (fitness : float) : float :=
  let facilitator_count_in_slot :=
    Z.of_nat (length (filter (fun x => facilitator x = facilitator it) slot_items)) in
  if bool_decide (facilitator_count_in_slot = 1) then (fitness + 0.2)%float
  else if bool_decide (facilitator_count_in_slot > 1) then (fitness - 0.2)%float
  else fitness.

(** Rule 5, lines 99-105: total load of the facilitator. *)
Definition total_load (facilitator_loads : gmap string Z) (it : item) (fitness : float) : float :=
  let load := facilitator_loads !!! facilitator it in
  if bool_decide (load > 4) then (fitness - 0.5)%float
  else if bool_decide (load = 3) && bool_decide (facilitator it = "Dr. Tyler")
  then (fitness - 0.4)%float
  else if bool_decide (load < 3) && bool_decide (facilitator it ≠ "Dr. Tyler")
  then (fitness - 0.4)%float
  else fitness.

(** The names tested for the two linked courses, lines 109, 121 and 123. *)
Definition linked_names : list string := ["SLA 101"; "SLA 191"].
Definition far_buildings : list string := ["Roman"; "Beach"].

(** Rule 6, lines 109-118: the other section of a linked course. *)
Definition paired_section (items : list item) (it : item) (fitness : float) : float :=
  if bool_decide (Activity.name (activity it) ∈ linked_names) then
    let other_section :=
      head (filter (fun x => Activity.name (activity x) = Activity.name (activity it)
                             ∧ Activity.section (activity x) ≠ Activity.section (activity it))
                   items) in
    match other_section with
    | Some other_section =>
        let time_diff :=
          Z.abs (TimeSlot.hour (time_slot other_section) - TimeSlot.hour (time_slot it)) in
        if bool_decide (time_diff > 4) then (fitness + 0.5)%float
        else if bool_decide (time_diff = 0) then (fitness - 0.5)%float
        else fitness
    | None => fitness
    end
  else fitness.

(** Rule 7, lines 121-134: consecutive slots of the linked courses. *)
Definition consecutive_step (it : item) (fitness : float) (other_item : item) : float :=
  if bool_decide (Activity.name (activity other_item) ∈ linked_names)
     && bool_decide (other_item ≠ it) then
    let time_diff :=
      Z.abs (TimeSlot.hour (time_slot other_item) - TimeSlot.hour (time_slot it)) in
    if bool_decide (time_diff = 1) then
      let fitness := (fitness + 0.5)%float in
      if negb (Bool.eqb (bool_decide (Room.building (room it) ∈ far_buildings))
                        (bool_decide (Room.building (room other_item) ∈ far_buildings)))
      then (fitness - 0.4)%float else fitness
    else if bool_decide (time_diff = 2) then (fitness + 0.25)%float
    else if bool_decide (time_diff = 0) then (fitness - 0.25)%float
    else fitness
  else fitness.

Definition consecutive_slots (items : list item) (it : item) (fitness : float) : float :=
  if bool_decide (Activity.name (activity it) ∈ linked_names)
  then foldl (consecutive_step it) fitness items
  else fitness.

(** The body of the second loop for one item: the value of [fitness] when
    it is added to [total_fitness]. *)
Definition item_fitness (items : list item)
    (facilitator_loads : gmap string Z) (time_slot_assignments : gmap string (list item))
    (it : item) : float :=
  let fitness := 0%float in
  let slot_key := TimeSlot.str (time_slot it) in
  let fitness := room_conflicts (time_slot_assignments !!! slot_key) it fitness in
  let fitness := room_size it fitness in
  let fitness := facilitator_preference it fitness in
  let fitness := slot_load (time_slot_assignments !!! slot_key) it fitness in
  let fitness := total_load facilitator_loads it fitness in
  let fitness := paired_section items it fitness in
  let fitness := consecutive_slots items it fitness in
  fitness.

Definition calculate_fitness (items : list item) : float :=
  let '(facilitator_loads, time_slot_assignments) := tables items in
  foldl (fun total_fitness it =>
           (total_fitness + item_fitness items facilitator_loads time_slot_assignments it)%float)
        0%float items.

End Fitness.

(** ** The dataset, [create_actual_data] *)

Module Data.

Definition facilitators : list string :=
  ["Lock"; "Glen"; "Banks"; "Richards"; "Shaw"; "Singer";
   "Uther"; "Tyler"; "Numen"; "Zeldin"].

Definition names (l : list string) : gset string := list_to_set l.

Definition activities : list Activity.t :=
  [ Activity.mk "SLA100" 50 (names ["Glen"; "Lock"; "Banks"; "Zeldin"])
      (names ["Numen"; "Richards"]) (Some "A");
    Activity.mk "SLA100" 50 (names ["Glen"; "Lock"; "Banks"; "Zeldin"])
      (names ["Numen"; "Richards"]) (Some "B");
    Activity.mk "SLA191" 50 (names ["Glen"; "Lock"; "Banks"; "Zeldin"])
      (names ["Numen"; "Richards"]) (Some "A");
    Activity.mk "SLA191" 50 (names ["Glen"; "Lock"; "Banks"; "Zeldin"])
      (names ["Numen"; "Richards"]) (Some "B");
    Activity.mk "SLA201" 50 (names ["Glen"; "Banks"; "Zeldin"; "Shaw"])
      (names ["Numen"; "Richards"; "Singer"]) None;
    Activity.mk "SLA291" 50 (names ["Lock"; "Banks"; "Zeldin"; "Singer"])
      (names ["Numen"; "Richards"; "Shaw"; "Tyler"]) None;
    Activity.mk "SLA303" 60 (names ["Glen"; "Zeldin"; "Banks"])
      (names ["Numen"; "Singer"; "Shaw"]) None;
    Activity.mk "SLA304" 25 (names ["Glen"; "Banks"; "Tyler"])
      (names ["Numen"; "Singer"; "Shaw"; "Richards"; "Uther"; "Zeldin"]) None;
    Activity.mk "SLA394" 20 (names ["Tyler"; "Singer"])
      (names ["Richards"; "Zeldin"]) None;
    Activity.mk "SLA449" 60 (names ["Tyler"; "Singer"; "Shaw"])
      (names ["Zeldin"; "Uther"]) None;
    Activity.mk "SLA451" 100 (names ["Tyler"; "Singer"; "Shaw"])
      (names ["Zeldin"; "Uther"; "Richards"; "Banks"]) None ].

Definition rooms : list Room.t :=
  [ Room.mk "Slater 003" 45 "Slater";
    Room.mk "Roman 216" 30 "Roman";
    Room.mk "Loft 206" 75 "Loft";
    Room.mk "Roman 201" 50 "Roman";
    Room.mk "Loft 310" 108 "Loft";
    Room.mk "Beach 201" 60 "Beach";
    Room.mk "Beach 301" 75 "Beach";
    Room.mk "Logos 325" 450 "Logos";
    Room.mk "Frank 119" 60 "Frank" ].

Definition time_slots : list TimeSlot.t :=
  [ TimeSlot.mk 10 0; TimeSlot.mk 11 0; TimeSlot.mk 12 0;
    TimeSlot.mk 13 0; TimeSlot.mk 14 0; TimeSlot.mk 15 0 ].

Definition create_actual_data
  : list Activity.t * list Room.t * list TimeSlot.t * list string :=
  (activities, rooms, time_slots, facilitators).

End Data.

(** ** Exceptions, the store and the random oracle *)

Inductive exception : Type :=
  | IndexError          (* [random.choice] of an empty sequence; index out of range *)
  | ValueError          (* empty range of [randint]; sample larger than the population; [max] of nothing *)
  | ZeroDivisionError.  (* division by zero *)

Inductive result (A : Type) : Type :=
  | Ok (a : A)
  | Raise (e : exception).
Arguments Ok {A} a.
Arguments Raise {A} e.

(** The oracle behind the module [random]: a tape of integers for
    [_randbelow] and a tape of floats for [random.random()], read at a common
    cursor. *)
Module Random.
Record t : Type := mk {
  ints : N → N;
  units : N → float;
  cursor : N
}.

Definition advance (g : t) : t := mk (ints g) (units g) (N.succ (cursor g)).

(** [_randbelow(n)]: an integer of [[0, n)], for [n > 0].  The library
    draws bits until they fall in the range; here the entry of the tape is
    reduced modulo [n].  Either way every integer of the range can come
    out, and no other. *)
Definition randbelow (n : nat) (g : t) : nat * t :=
  (N.to_nat (ints g (cursor g) `mod` N.of_nat n)%N, advance g).

(** The range of [random.random()] is [[0.0, 1.0)]: a tape value outside
    of it reads as [0.0]. *)
Definition unit_interval (x : float) : float :=
  if (PrimFloat.leb 0 x && PrimFloat.ltb x 1)%bool then x else 0%float.

Definition random (g : t) : float * t :=
  (unit_interval (units g (cursor g)), advance g).
End Random.

(** A [Schedule] object: the list [items] of references to [ScheduleItem]
    objects and the cache [_fitness]. *)
Module Schedule.
Record t : Type := mk {
  items : list nat;
  _fitness : option float
}.
#[global] Instance inhabited : Inhabited t := populate (mk [] None).
End Schedule.

(** The store: the [ScheduleItem] objects and the [Schedule] objects, each
    named by its index, and the state of the random oracle. *)
Record State : Type := mkState {
  item_objs : list item;
  schedule_objs : list Schedule.t;
  rng : Random.t
}.

Definition M (A : Type) : Type := State → result (A * State).

#[global] Instance M_ret : MRet M := λ A a σ, Ok (a, σ).
#[global] Instance M_bind : MBind M := λ A B f m σ,
  match m σ with
  | Ok (a, σ') => f a σ'
  | Raise e => Raise e
  end.
Definition raise {A} (e : exception) : M A := λ _, Raise e.
Definition get_state : M State := λ σ, Ok (σ, σ).

(** Reading a list of [ScheduleItem] references. *)
Definition deref (σ : State) (refs : list nat) : list item :=
  (λ l, item_objs σ !!! l) <$> refs.

Definition new_item (it : item) : M nat := λ σ,
  Ok (length (item_objs σ), mkState (item_objs σ ++ [it]) (schedule_objs σ) (rng σ)).

Definition update_item (l : nat) (f : item → item) : M unit := λ σ,
  Ok (tt, mkState (alter f l (item_objs σ)) (schedule_objs σ) (rng σ)).

(** [Schedule.__init__]. *)
Definition new_schedule (items : list nat) : M nat := λ σ,
  Ok (length (schedule_objs σ),
      mkState (item_objs σ) (schedule_objs σ ++ [Schedule.mk items None]) (rng σ)).

Definition read_schedule (s : nat) : M Schedule.t := λ σ, Ok (schedule_objs σ !!! s, σ).

Definition set_fitness (s : nat) (f : float) : M unit := λ σ,
  Ok (tt, mkState (item_objs σ)
            (alter (λ o, Schedule.mk (Schedule.items o) (Some f)) s (schedule_objs σ))
            (rng σ)).

(** [Schedule.calculate_fitness] and [Schedule.get_fitness]. *)
Definition calculate_fitness (self : nat) : M float :=
  σ ← get_state;
  mret (Fitness.calculate_fitness (deref σ (Schedule.items (schedule_objs σ !!! self)))).

Definition get_fitness (self : nat) : M float :=
  o ← read_schedule self;
  match Schedule._fitness o with
  | None => f ← calculate_fitness self; _ ← set_fitness self f; mret f
  | Some f => mret f
  end.

(** *** The functions of the module [random] that the engine calls *)

Definition randbelow (n : nat) : M nat := λ σ,
  let '(r, g) := Random.randbelow n (rng σ) in
  Ok (r, mkState (item_objs σ) (schedule_objs σ) g).

Definition random_random : M float := λ σ,
  let '(x, g) := Random.random (rng σ) in
  Ok (x, mkState (item_objs σ) (schedule_objs σ) g).

Definition random_choice {A} (seq : list A) : M A :=
  match seq with
  | [] => raise IndexError
  | _ => i ← randbelow (length seq);
         match seq !! i with Some x => mret x | None => raise IndexError end
  end.

Definition random_randint (a b : Z) : M Z :=
  if bool_decide (b < a) then raise ValueError
  else r ← randbelow (Z.to_nat (b - a + 1)); mret (a + Z.of_nat r).

(** [random.sample(population, k)]: [ValueError] when [k] exceeds the
    length, else [k] elements at distinct positions.  For [k = 5] and a
    population of at most 21 elements the library takes them from a pool
    that shrinks at each draw: that is [sample_pool], draw for draw.  For a
    longer population the library draws a position of the whole population
    and draws again while the position is taken: the samples that it can
    return are those of the pool, [k] elements at distinct positions, but
    they come from other draws, and its loop does not end on a tape that
    repeats a taken position for ever.  The model takes the pool for every
    length: it is exact for populations of at most 21 elements, and for
    longer ones it gives the samples of the library, from other tapes. *)
Fixpoint sample_pool {A} (pool : list A) (k : nat) : M (list A) :=
  match k with
  | O => mret []
  | S k' =>
      j ← randbelow (length pool);
      match pool !! j, last pool with
      | Some x, Some y =>
          rest ← sample_pool (take (length pool - 1) (<[j:=y]> pool)) k';
          mret (x :: rest)
      | _, _ => raise IndexError
      end
  end.

Definition random_sample {A} (population : list A) (k : nat) : M (list A) :=
  if bool_decide (length population < k)%nat then raise ValueError
  else sample_pool population k.

(** *** Arithmetic of Python floats *)

Definition float_of_nat (n : nat) : float :=
  PrimFloat.of_uint63 (Uint63.of_Z (Z.of_nat n)).

(** [a / b]. *)
Definition py_truediv (a b : float) : M float :=
  if PrimFloat.eqb b 0 then raise ZeroDivisionError else mret (a / b)%float.

(** [sum(l)]: the additions from left to right, from 0.  (CPython 3.12 and
    later compensate the rounding errors of this loop, so their sum can
    differ from this one in the last bits.) *)
Definition py_sum (l : list float) : float := foldl PrimFloat.add 0%float l.

(** [max(l, key=key)] on the list of the pairs [(x, key(x))]: the first
    element of greatest key. *)
Definition py_max_by {A} (l : list (A * float)) : M A :=
  match l with
  | [] => raise ValueError
  | p :: l => mret (foldl (λ best q, if PrimFloat.ltb best.2 q.2 then q else best) p l).1
  end.

(** [l[-k]]. *)
Definition py_index_from_end {A} (l : list A) (k : nat) : M A :=
  match (if bool_decide (k ≤ length l)%nat then l !! (length l - k)%nat else None) with
  | Some x => mret x
  | None => raise IndexError
  end.

(** ** The engine, [GeneticAlgorithm] *)

Module GeneticAlgorithm.

Record t : Type := mk {
  activities : list Activity.t;
  rooms : list Room.t;
  time_slots : list TimeSlot.t;
  facilitators : list string;
  population_size : Z;
  mutation_rate : float;
  population : list nat
}.

Definition with_population (self : t) (population : list nat) : t :=
  mk (activities self) (rooms self) (time_slots self) (facilitators self)
     (population_size self) (mutation_rate self) population.

(** Lines 161-168: one individual. *)
Definition random_item (self : t) (activity : Activity.t) : M nat :=
  room ← random_choice (rooms self);
  time_slot ← random_choice (time_slots self);
  facilitator ← random_choice (facilitators self);
  new_item (ScheduleItem.mk activity room time_slot facilitator).

Definition random_schedule (self : t) : M nat :=
  schedule_items ← mapM (random_item self) (activities self);
  new_schedule schedule_items.

(** [for _ in range(n)]: the body [n] times, the results in order. *)
Fixpoint repeatM {A} (n : nat) (body : M A) : M (list A) :=
  match n with
  | O => mret []
  | S n' => x ← body; rest ← repeatM n' body; mret (x :: rest)
  end.

Definition initialize_population (self : t) : M (list nat) :=
  repeatM (Z.to_nat (population_size self)) (random_schedule self).

(** [__init__]. *)
Definition init (activities : list Activity.t) (rooms : list Room.t)
    (time_slots : list TimeSlot.t) (facilitators : list string)
    (population_size : Z) (mutation_rate : float) : M t :=
  let self := mk activities rooms time_slots facilitators population_size mutation_rate [] in
  population ← initialize_population self;
  mret (with_population self population).

Definition tournament_size : nat := 5.

Definition with_fitness (s : nat) : M (nat * float) :=
  f ← get_fitness s; mret (s, f).

Definition select_parent (self : t) (population : list nat) : M nat :=
  tournament ← random_sample population tournament_size;
  keyed ← mapM with_fitness tournament;
  py_max_by keyed.

(** [l[:i]] and [l[i:]] for [i >= 0]. *)
Definition slice_to {A} (l : list A) (i : Z) : list A := take (Z.to_nat i) l.
Definition slice_from {A} (l : list A) (i : Z) : list A := drop (Z.to_nat i) l.

Definition crossover (self : t) (parent1 parent2 : nat) : M nat :=
  crossover_point ← random_randint 1 (Z.of_nat (length (activities self)) - 1);
  p1 ← read_schedule parent1;
  p2 ← read_schedule parent2;
  let child_items :=
    slice_to (Schedule.items p1) crossover_point
    ++ slice_from (Schedule.items p2) crossover_point in
  new_schedule child_items.

(** [copy.deepcopy] of a list of items: every object met for the first time
    is copied to a new object, an object met again gives the copy already
    made (the memo of [deepcopy]). *)
Fixpoint deepcopy_items (memo : gmap nat nat) (refs : list nat) : M (list nat) :=
  match refs with
  | [] => mret []
  | l :: refs =>
      match memo !! l with
      | Some l' => rest ← deepcopy_items memo refs; mret (l' :: rest)
      | None =>
          σ ← get_state;
          l' ← new_item (item_objs σ !!! l);
          rest ← deepcopy_items (<[l:=l']> memo) refs;
          mret (l' :: rest)
      end
  end.

Definition set_room (r : Room.t) (it : item) : item :=
  ScheduleItem.mk (activity it) r (time_slot it) (facilitator it).
Definition set_time_slot (ts : TimeSlot.t) (it : item) : item :=
  ScheduleItem.mk (activity it) (room it) ts (facilitator it).
Definition set_facilitator (f : string) (it : item) : item :=
  ScheduleItem.mk (activity it) (room it) (time_slot it) f.

(** Lines 187-194: the body of the loop of [mutate] for one item. *)
Definition mutate_item (self : t) (l : nat) : M unit :=
  x ← random_random;
  if PrimFloat.ltb x (mutation_rate self) then
    mutation_type ← random_choice ["room"; "time"; "facilitator"];
    if bool_decide (mutation_type = "room") then
      r ← random_choice (rooms self); update_item l (set_room r)
    else if bool_decide (mutation_type = "time") then
      ts ← random_choice (time_slots self); update_item l (set_time_slot ts)
    else
      f ← random_choice (facilitators self); update_item l (set_facilitator f)
  else mret tt.

Definition mutate (self : t) (schedule : nat) : M nat :=
  o ← read_schedule schedule;
  new_items ← deepcopy_items ∅ (Schedule.items o);
  _ ← mapM (mutate_item self) new_items;
  new_schedule new_items.

(** Lines 225-229: one child. *)
Definition offspring (self : t) : M nat :=
  parent1 ← select_parent self (population self);
  parent2 ← select_parent self (population self);
  child ← crossover self parent1 parent2;
  mutate self child.

(** Lines 217-220: the convergence test on the history, [true] for
    [break]. *)
Definition converged (avg_fitness_history : list float) (improvement_threshold : float)
  : M bool :=
  latest ← py_index_from_end avg_fitness_history 1;
  reference ← py_index_from_end avg_fitness_history 100;
  improvement ← py_truediv (latest - reference)%float (PrimFloat.abs reference);
  mret (PrimFloat.ltb improvement improvement_threshold).

(** The state of the loop of [evolve]. *)
Record loop : Type := mkLoop {
  self_ : t;
  avg_fitness_history : list float;
  best_fitness_history : list float
}.

(** Lines 208-210: the average and the best fitness of the population. *)
Definition evaluate (self : t) : M (float * float) :=
  fitnesses ← mapM get_fitness (population self);
  avg_fitness ← py_truediv (py_sum fitnesses) (float_of_nat (length fitnesses));
  best_fitness ← py_max_by ((λ f, (f, f)) <$> fitnesses);
  mret (avg_fitness, best_fitness).

(** One turn of [for gen in range(generations)]: the new state, and [true]
    when the turn ends in [break]. *)
Definition generation (improvement_threshold : float) (gen : Z) (st : loop)
  : M (loop * bool) :=
  let self := self_ st in
  '(avg_fitness, best_fitness) ← evaluate self;
  let avg_fitness_history := avg_fitness_history st ++ [avg_fitness] in
  let best_fitness_history := best_fitness_history st ++ [best_fitness] in
  stop ← (if bool_decide (gen >= 100)
          then converged avg_fitness_history improvement_threshold
          else mret false);
  if stop : bool then mret (mkLoop self avg_fitness_history best_fitness_history, true)
  else
    new_population ← repeatM (Z.to_nat (population_size self)) (offspring self);
    mret (mkLoop (with_population self new_population)
                 avg_fitness_history best_fitness_history, false).

(** The loop: [n] turns are left, the next turn has index [gen]. *)
Fixpoint generations_from (improvement_threshold : float) (n : nat) (gen : Z) (st : loop)
  : M loop :=
  match n with
  | O => mret st
  | S n' =>
      '(st', stop) ← generation improvement_threshold gen st;
      if stop : bool then mret st'
      else generations_from improvement_threshold n' (gen + 1) st'
  end.

Definition evolve_loop (self : t) (generations : Z) (improvement_threshold : float) : M loop :=
  generations_from improvement_threshold (Z.to_nat generations) 0 (mkLoop self [] []).

(** [evolve]: the individual returned, and the engine with its last
    population. *)
Definition evolve (self : t) (generations : Z) (improvement_threshold : float) : M (nat * t) :=
  st ← evolve_loop self generations improvement_threshold;
  keyed ← mapM with_fitness (population (self_ st));
  best ← py_max_by keyed;
  mret (best, self_ st).

End GeneticAlgorithm.

(** Running a computation from an empty store. *)
Definition run {A} (m : M A) (g : Random.t) : result (A * State) := m (mkState [] [] g).

(** ** The report of [main], lines 327-344 and 348-353

    The lines that [main] prints for the schedule that [evolve] returned,
    one string for each call of [print].  The strings are compared as
    Python compares them, character by character.  (The line of the
    fitness, which formats a float, is not part of the model.) *)

Module Report.

(** [sorted(l, key=...)]: the elements in the order of their keys, elements
    of equal keys in the order of the list.  [le x y] is [key(x) <= key(y)]. *)
Fixpoint insert_by {A} (le : A → A → bool) (x : A) (l : list A) : list A :=
  match l with
  | [] => [x]
  | y :: l' => if le x y then x :: l else y :: insert_by le x l'
  end.

Definition py_sorted {A} (le : A → A → bool) (l : list A) : list A :=
  foldr (insert_by le) [] l.

(** The order of the keys [(x.time_slot.hour, x.activity.name)] of line 329. *)
Definition key_le (x y : item) : bool :=
  bool_decide (TimeSlot.hour (time_slot x) < TimeSlot.hour (time_slot y))
  || (bool_decide (TimeSlot.hour (time_slot x) = TimeSlot.hour (time_slot y))
      && String.leb (Activity.name (activity x)) (Activity.name (activity y))).

Definition sorted_items (items : list item) : list item := py_sorted key_le items.

Definition newline : string := String "010"%char "".

(** Lines 336 and 338-344. *)
Definition header (current_time : TimeSlot.t) : string :=
  newline +:+ "=== " +:+ TimeSlot.str current_time +:+ " ===".

Definition item_lines (it : item) : list string :=
  [ newline +:+ "Activity: " +:+ Activity.name (activity it) +:+ " "
      +:+ default "" (Activity.section (activity it));
    "Room: " +:+ Room.name (room it) +:+ " (Capacity: "
      +:+ pretty (Room.capacity (room it)) +:+ ")";
    "Facilitator: " +:+ facilitator it;
    "Expected Enrollment: " +:+ pretty (Activity.expected_enrollment (activity it));
    "----------------------------------------" ].

(** The loop of lines 333-344, from the value of [current_time]. *)
Fixpoint print_items (current_time : option TimeSlot.t) (sorted_items : list item)
  : list string :=
  match sorted_items with
  | [] => []
  | it :: rest =>
      (if decide (current_time ≠ Some (time_slot it)) then [header (time_slot it)] else [])
      ++ item_lines it ++ print_items (Some (time_slot it)) rest
  end.

Definition print_schedule (items : list item) : list string :=
  print_items None (sorted_items items).

(** Lines 348-350. *)
Definition facilitator_load (items : list item) : gmap string Z :=
  foldl (λ facilitator_load it,
           <[facilitator it := default 0 (facilitator_load !! facilitator it) + 1]>
             facilitator_load)
        ∅ items.

(** The order of the pairs [(facilitator, load)] of line 352. *)
Definition pair_le (p q : string * Z) : bool :=
  String.ltb p.1 q.1 || (bool_decide (p.1 = q.1) && bool_decide (p.2 ≤ q.2)).

(** Lines 352-353.  The pairs of a dict have distinct keys, so their sorted
    list does not depend on the order in which the dict gives them. *)
Definition print_workload (items : list item) : list string :=
  (λ p, p.1 +:+ ": " +:+ pretty p.2 +:+ " activities")
    <$> py_sorted pair_le (map_to_list (facilitator_load items)).

End Report.

(** ** Vocabulary of the statements

    The definitions below are not part of [main.py]: they name what the
    theorems speak about. *)

Module FitnessTerms.
Import Fitness.

Ltac split_decisions :=
  repeat match goal with
    | |- context [decide ?P] => destruct (decide P)
    | |- context [bool_decide ?P] => destruct (bool_decide_reflect P)
    end.

(** Number of the items of a schedule that a facilitator holds. *)
Definition load_of (items : list item) (f : string) : Z :=
  Z.of_nat (length (filter (λ x, facilitator x = f) items)).

Definition in_slot (items : list item) (key : string) : list item :=
  filter (λ x, TimeSlot.str (time_slot x) = key) items.

(** The other items that hold the room of [it] in its time slot. *)
Definition conflicts_of (items : list item) (it : item) : list item :=
  filter (λ other, other ≠ it ∧ room other = room it)
         (in_slot items (TimeSlot.str (time_slot it))).

(** Rules 1 to 5 alone: the score without the two rules of the linked
    courses. *)
Definition item_fitness_1_to_5
    (facilitator_loads : gmap string Z) (time_slot_assignments : gmap string (list item))
    (it : item) : float :=
  let slot_items := time_slot_assignments !!! TimeSlot.str (time_slot it) in
  total_load facilitator_loads it
    (slot_load slot_items it
       (facilitator_preference it (room_size it (room_conflicts slot_items it 0%float)))).

Definition fitness_1_to_5 (items : list item) : float :=
  let '(facilitator_loads, time_slot_assignments) := tables items in
  foldl (λ total_fitness it,
           (total_fitness
            + item_fitness_1_to_5 facilitator_loads time_slot_assignments it)%float)
        0%float items.

(** The seven rules of the second loop for the item [it] of the schedule
    [items], in the order of the code, each as what it does to [fitness];
    the tables are those of the first loop. *)
Definition rules (items : list item) (it : item) : list (float → float) :=
  let slot_items := (tables items).2 !!! TimeSlot.str (time_slot it) in
  [ room_conflicts slot_items it;
    room_size it;
    facilitator_preference it;
    slot_load slot_items it;
    total_load (tables items).1 it;
    paired_section items it;
    consecutive_slots items it ].

(** The score of the item when the loop has applied rules 1 to [k], from 0. *)
Definition score_after (k : nat) (items : list item) (it : item) : float :=
  foldl (λ fitness rule, rule fitness) 0%float (take k (rules items it)).

(** The rules after rule [k], applied to a score. *)
Definition rules_after (k : nat) (items : list item) (it : item) (fitness : float) : float :=
  foldl (λ fitness rule, rule fitness) fitness (drop k (rules items it)).

End FitnessTerms.

Module EngineTerms.
Import GeneticAlgorithm.

(** The state after a draw. *)
Definition drawn (σ : State) : State :=
  mkState (item_objs σ) (schedule_objs σ) (Random.advance (rng σ)).

(** The cut point that [crossover] draws in the state [σ], for [K] activities. *)
Definition cut_point (K : nat) (σ : State) : nat :=
  S (Random.randbelow (K - 1) (rng σ)).1.

(** The items of the schedule [s] in the store [σ]. *)
Definition items_of (σ : State) (s : nat) : list item :=
  deref σ (Schedule.items (schedule_objs σ !!! s)).

Definition valid_refs (σ : State) (refs : list nat) : Prop :=
  Forall (λ l, l < length (item_objs σ))%nat refs.

(** The schedule [s] of the store refers to items that exist, one for
    each activity of the engine, in the order of the activity list. *)
Definition schedule_inv (self : t) (σ : State) (s : nat) : Prop :=
  (s < length (schedule_objs σ))%nat
  ∧ valid_refs σ (Schedule.items (schedule_objs σ !!! s))
  ∧ activity <$> items_of σ s = activities self.

(** The store [σ'] has all the objects of [σ]: the items as they were, the
    schedules with the lists of items they had (their caches may differ). *)
Definition extends (σ σ' : State) : Prop :=
  item_objs σ `prefix_of` item_objs σ'
  ∧ (Schedule.items <$> schedule_objs σ) `prefix_of` (Schedule.items <$> schedule_objs σ').

(** The stores [σ] and [σ'] have the same objects, up to the caches. *)
Definition same_objects (σ σ' : State) : Prop :=
  item_objs σ' = item_objs σ
  ∧ Schedule.items <$> schedule_objs σ' = Schedule.items <$> schedule_objs σ.

(** Every schedule of the population of the engine has the property. *)
Definition population_inv (self : t) (σ : State) : Prop :=
  Forall (schedule_inv self σ) (population self).

(** What [mutate] may do to one item: one facet takes a value drawn from
    its domain. *)
Inductive facet_change (self : t) : (item → item) → Prop :=
  | change_room r : r ∈ rooms self → facet_change self (set_room r)
  | change_time_slot ts : ts ∈ time_slots self → facet_change self (set_time_slot ts)
  | change_facilitator f : f ∈ facilitators self → facet_change self (set_facilitator f).

(** The number of facets in which two items differ. *)
Definition facets_changed (x y : item) : nat :=
  ((if decide (room x = room y) then 0 else 1)
   + (if decide (time_slot x = time_slot y) then 0 else 1)
   + (if decide (facilitator x = facilitator y) then 0 else 1))%nat.

(** The improvement as the specification words it, for the generation of
    index [gen]: against the average recorded 100 generations earlier, at
    index [gen - 100]. *)
Definition improvement_per_spec (history : list float) (gen : nat) : option float :=
  latest ← history !! gen;
  earlier ← history !! (gen - 100)%nat;
  Some ((latest - earlier) / PrimFloat.abs earlier)%float.

(** The value that a computation returns, if it returns. *)
Definition value {A} (r : result (A * State)) : option A :=
  match r with
  | Ok (a, _) => Some a
  | Raise _ => None
  end.

(** The run returned, with a value and a store that satisfy [P]. *)
Definition returns {A} (r : result (A * State)) (P : A → State → Prop) : Prop :=
  match r with
  | Ok (a, σ) => P a σ
  | Raise _ => False
  end.

(** How a run ended: [None] for a return, the exception otherwise. *)
Definition outcome {A} (r : result (A * State)) : option exception :=
  match r with
  | Ok _ => None
  | Raise e => Some e
  end.

(** The value of [random.choice(seq)] when the oracle is [g]. *)
Definition choice_of {A} (seq : list A) (g : Random.t) : option A :=
  value (run (random_choice seq) g).

(** The assignment that one turn of the loop of [mutate] makes when the
    test of the rate passes, the oracle being [g] when the turn starts: the
    first draw is that of [random.random()], the second chooses the facet
    and the third the value of the facet. *)
Definition assignment (self : t) (g : Random.t) : option (item → item) :=
  let g1 := Random.advance g in
  let g2 := Random.advance g1 in
  match choice_of ["room"; "time"; "facilitator"] g1 with
  | Some mutation_type =>
      if bool_decide (mutation_type = "room")
      then set_room <$> choice_of (rooms self) g2
      else if bool_decide (mutation_type = "time")
      then set_time_slot <$> choice_of (time_slots self) g2
      else set_facilitator <$> choice_of (facilitators self) g2
  | None => None
  end.

End EngineTerms.

(** ** Inputs of the examples *)

Module Inputs.
Import GeneticAlgorithm EngineTerms.

(** Oracles: [random.random()] gives 0.5 in all of them; the integers are
    the cursor itself, a scattered sequence, or a recorded list of draws
    followed by zeros. *)
Definition counting : Random.t := Random.mk (λ i, i) (λ _, 0.5%float) 0.
Definition scattered : Random.t :=
  Random.mk (λ i, (i * i + 7 * i + 3)%N) (λ _, 0.5%float) 0.
Definition replay (draws : list N) : Random.t :=
  Random.mk (λ i, default 0%N (draws !! N.to_nat i)) (λ _, 0.5%float) 0.

Definition final_state {A} (r : result (A * State)) : State :=
  match r with
  | Ok (_, σ) => σ
  | Raise _ => mkState [] [] counting
  end.

Definition final_loop (r : result (loop * State)) : loop :=
  match r with
  | Ok (st, _) => st
  | Raise _ => mkLoop (mk [] [] [] [] 0 0%float []) [] []
  end.

(** A schedule over the dataset: the activities in order, the rooms and the
    time slots in rotation. *)
Definition dataset_schedule : list item :=
  imap (λ i a,
          ScheduleItem.mk a (Data.rooms !!! (i `mod` 9)%nat)
            (Data.time_slots !!! (i `mod` 6)%nat)
            (["Lock"; "Glen"; "Banks"; "Zeldin"; "Shaw"; "Singer"; "Numen";
              "Tyler"; "Tyler"; "Tyler"; "Uther"] !!! i))
       Data.activities.

(** The two sections of SLA100 in one room at one time. *)
Definition clash_schedule : list item :=
  [ ScheduleItem.mk (Data.activities !!! 0%nat) (Data.rooms !!! 3%nat) (TimeSlot.mk 10 0) "Lock";
    ScheduleItem.mk (Data.activities !!! 1%nat) (Data.rooms !!! 3%nat) (TimeSlot.mk 10 0) "Glen";
    ScheduleItem.mk (Data.activities !!! 4%nat) (Data.rooms !!! 2%nat) (TimeSlot.mk 11 0) "Shaw" ].

(** An activity list that names one activity twice gives schedules with two
    items equal in every field. *)
Definition seminar : Activity.t := Activity.mk "SLA500" 30 {["Lock"]} ∅ None.
Definition twin : item :=
  ScheduleItem.mk seminar (Data.rooms !!! 2%nat) (TimeSlot.mk 10 0) "Lock".
Definition twin_schedule : list item := [twin; twin].

(** The dataset with a population of 5. *)
Definition small_init : M t :=
  init Data.activities Data.rooms Data.time_slots Data.facilitators 5 0.01%float.
Definition small_engine : t :=
  mk Data.activities Data.rooms Data.time_slots Data.facilitators 5 0.01%float
     [0; 1; 2; 3; 4]%nat.
Definition small_state : State := final_state (run small_init scattered).
Definition small_loop : result (loop * State) :=
  run (ga ← small_init; evolve_loop ga 500 0.01%float) scattered.
Definition small_history : list float := avg_fitness_history (final_loop small_loop).

(** An engine whose every schedule has fitness 0.0: one room of 100 seats for
    two activities of 10, one facilitator, "Dr. Tyler", acceptable to both. *)
Definition tyler_activity (name : string) : Activity.t :=
  Activity.mk name 10 ∅ {["Dr. Tyler"]} None.
Definition flat_engine : t :=
  mk [tyler_activity "X"; tyler_activity "Y"] [Room.mk "Hall" 100 "Main"]
     [TimeSlot.mk 10 0; TimeSlot.mk 11 0] ["Dr. Tyler"] 5 0.01%float [].
Definition flat_init : M t :=
  init (activities flat_engine) (rooms flat_engine) (time_slots flat_engine)
       (facilitators flat_engine) (population_size flat_engine)
       (mutation_rate flat_engine).
Definition flat_evolve (generations : Z) : result (nat * t * State) :=
  run (ga ← flat_init; evolve ga generations 0.01%float) counting.
Definition flat_loop : result (loop * State) :=
  run (ga ← flat_init; evolve_loop ga 100 0.01%float) counting.
Definition flat_turn : loop := final_loop flat_loop.
Definition flat_state : State := final_state flat_loop.

(** The dataset with a mutation rate of 1. *)
Definition eager_engine : t :=
  mk Data.activities Data.rooms Data.time_slots Data.facilitators 5 1%float [].

(** The items of a schedule before and after [mutate]. *)
Definition before_and_after (self : t) (make : M nat) (g : Random.t)
  : result (list item * list item) :=
  match run (s ← make; s' ← mutate self s; mret (s, s')) g with
  | Ok ((s, s'), σ) => Ok (items_of σ s, items_of σ s')
  | Raise e => Raise e
  end.

(** The number of facets changed in each item. *)
Definition facets_changed_by (r : result (list item * list item)) : list nat :=
  match r with
  | Ok (before, after) => zip_with facets_changed before after
  | Raise _ => []
  end.

(** One schedule of the initial population, every draw being zero. *)
Definition first_of_population : M nat :=
  population ← initialize_population eager_engine; mret (population !!! 0%nat).

(** A schedule that holds one item object twice. *)
Definition twice_the_same : M nat :=
  l ← new_item (ScheduleItem.mk seminar (Data.rooms !!! 0%nat) (TimeSlot.mk 10 0) "Lock");
  new_schedule [l; l].

End Inputs.

(** ** Vocabulary of the further properties *)

Module MoreTerms.
Import Fitness FitnessTerms GeneticAlgorithm EngineTerms.

(** The characters of a string all satisfy [P]. *)
Fixpoint string_forall (P : ascii → Prop) (s : string) : Prop :=
  match s with
  | EmptyString => True
  | String c s => P c ∧ string_forall P s
  end.

(** The items of a schedule in the time slot of [it], with its facilitator. *)
Definition same_slot_and_facilitator (items : list item) (it : item) : list item :=
  filter (λ x, time_slot x = time_slot it ∧ facilitator x = facilitator it) items.

(** The item holds an activity, a room, a time slot and a facilitator of the
    lists of the engine. *)
Definition in_domain (self : t) (it : item) : Prop :=
  activity it ∈ activities self ∧ room it ∈ rooms self
  ∧ time_slot it ∈ time_slots self ∧ facilitator it ∈ facilitators self.

(** The [Schedule] object refers to items that exist, and its cache
    [_fitness], when set, holds the fitness of the items as they are now. *)
Definition cache_coherent (σ : State) (o : Schedule.t) : Prop :=
  valid_refs σ (Schedule.items o)
  ∧ ∀ f, Schedule._fitness o = Some f →
         f = Fitness.calculate_fitness (deref σ (Schedule.items o)).

(** The store of an engine: every item is of its domain, every schedule has
    a coherent cache. *)
Definition store_inv (self : t) (σ : State) : Prop :=
  Forall (in_domain self) (item_objs σ) ∧ Forall (cache_coherent σ) (schedule_objs σ).

(** Two engines with the same configuration: all but the population. *)
Definition same_config (self self' : t) : Prop :=
  activities self' = activities self ∧ rooms self' = rooms self
  ∧ time_slots self' = time_slots self ∧ facilitators self' = facilitators self
  ∧ population_size self' = population_size self
  ∧ mutation_rate self' = mutation_rate self.

(** [GeneticAlgorithm(...)] with the configuration of [self]. *)
Definition construct (self : t) : M t :=
  init (activities self) (rooms self) (time_slots self) (facilitators self)
       (population_size self) (mutation_rate self).

(** The schedule [s] holds, in order, the [K] item objects of one block of
    the store: those stored from [K * j] on, for some [j]. *)
Definition block (K : nat) (σ : State) (s : nat) : Prop :=
  (s < length (schedule_objs σ))%nat
  ∧ ∃ j, Schedule.items (schedule_objs σ !!! s) = seq (K * j) K
         ∧ (K * j + K ≤ length (item_objs σ))%nat.

(** The items of the store come in blocks of one item for each activity. *)
Definition aligned (K : nat) (σ : State) : Prop :=
  ∃ m, length (item_objs σ) = (K * m)%nat.

(** Each schedule of the population holds one block of the store. *)
Definition blocks_inv (self : t) (σ : State) : Prop :=
  aligned (length (activities self)) σ
  ∧ Forall (block (length (activities self)) σ) (population self).

(** A line of the report that announces a time slot. *)
Definition is_header (line : string) : bool :=
  String.prefix (Report.newline +:+ "=== ") line.

(** In the schedule the hour tells the time slot. *)
Definition hour_tells_slot (items : list item) : Prop :=
  Forall (λ x, Forall (λ y, TimeSlot.hour (time_slot x) = TimeSlot.hour (time_slot y) →
                           time_slot x = time_slot y) items) items.

(** The run did not end in [IndexError]. *)
Definition index_safe {A} (r : result (A * State)) : Prop := outcome r ≠ Some IndexError.

(** The store of the examples: no object yet. *)
Definition empty_store : State := mkState [] [] Inputs.scattered.

(** The cases of the comparisons of a goal. *)
Ltac compare_cases :=
  repeat match goal with
    | H : context [(?a ?= ?b)%Z] |- _ => destruct (Z.compare_spec a b)
    | H : context [(?a ?= ?b)%positive] |- _ => destruct (Pos.compare_spec a b)
    | |- context [(?a ?= ?b)%Z] => destruct (Z.compare_spec a b)
    | |- context [(?a ?= ?b)%positive] => destruct (Pos.compare_spec a b)
    end.

End MoreTerms.


(** * Properties

    ** The fitness function *)

Module FitnessFacts.
Import Fitness FitnessTerms.

Lemma tally_loads L T it f :
  (tally (L, T) it).1 !! f =
    if decide (facilitator it = f) then Some (default 0 (L !! f) + 1) else L !! f.
Proof.
  cbn. rewrite lookup_insert. by destruct (decide (facilitator it = f)) as [->|].
Qed.

Lemma tally_slots L T it key :
  (tally (L, T) it).2 !!! key =
    T !!! key ++ (if decide (TimeSlot.str (time_slot it) = key) then [it] else []).
Proof.
  cbn. set (k := TimeSlot.str (time_slot it)).
  destruct (decide (is_Some (T !! k))) as [Hs|Hn];
    rewrite lookup_total_insert; destruct (decide (k = key)) as [<-|Hne]; try done.
  - by rewrite app_nil_r.
  - by rewrite lookup_total_insert_eq, lookup_total_alt,
      (proj2 (eq_None_not_Some _) Hn).
  - by rewrite lookup_total_insert_ne, app_nil_r.
Qed.

Lemma load_of_cons it items f :
  load_of (it :: items) f = ((if decide (facilitator it = f) then 1 else 0) + load_of items f)%Z.
Proof.
  unfold load_of. rewrite filter_cons.
  destruct (decide (facilitator it = f)); cbn [length]; lia.
Qed.

Lemma load_of_nonneg items f : (0 ≤ load_of items f)%Z.
Proof. unfold load_of. lia. Qed.

Lemma load_of_pos items it : it ∈ items → (0 < load_of items (facilitator it))%Z.
Proof.
  induction 1 as [it items|it it' items _ IH]; rewrite load_of_cons.
  - rewrite decide_True by done. pose proof (load_of_nonneg items (facilitator it)). lia.
  - destruct (decide _); lia.
Qed.

Lemma foldl_tally items : ∀ L T,
  (∀ f, (foldl tally (L, T) items).1 !! f =
          if decide (load_of items f = 0) then L !! f
          else Some (default 0 (L !! f) + load_of items f)%Z)
  ∧ (∀ key, (foldl tally (L, T) items).2 !!! key = T !!! key ++ in_slot items key).
Proof.
  induction items as [|it items IH]; intros L T; cbn [foldl].
  - split; intros; unfold load_of, in_slot; cbn; [done | by rewrite app_nil_r].
  - destruct (tally (L, T) it) as [L' T'] eqn:E.
    destruct (IH L' T') as [IHl IHs]. split.
    + intros f. rewrite IHl. pose proof (tally_loads L T it f) as H.
      rewrite E in H. cbn in H. rewrite H, load_of_cons.
      pose proof (load_of_nonneg items f).
      destruct (decide (facilitator it = f)); repeat case_decide; try lia; cbn;
        try done; f_equal; lia.
    + intros key. rewrite IHs. pose proof (tally_slots L T it key) as H.
      rewrite E in H. cbn in H. rewrite H. unfold in_slot.
      rewrite filter_cons. destruct (decide (TimeSlot.str (time_slot it) = key)); 
        by rewrite <- ?app_assoc.
Qed.

(** The tables that the first loop of [calculate_fitness] builds. *)
Lemma tables_loads items it :
  it ∈ items → (tables items).1 !!! facilitator it = load_of items (facilitator it).
Proof.
  intros Hin. apply lookup_total_correct. unfold tables.
  rewrite (proj1 (foldl_tally items ∅ ∅)).
  pose proof (load_of_pos _ _ Hin). rewrite decide_False by lia.
  rewrite lookup_empty. cbn. done.
Qed.

Lemma tables_slots items key : (tables items).2 !!! key = in_slot items key.
Proof.
  unfold tables. rewrite (proj2 (foldl_tally items ∅ ∅)).
  by rewrite lookup_total_empty.
Qed.

Lemma foldl_ext_in {A B} (f g : A → B → A) (l : list B) :
  (∀ x, x ∈ l → ∀ a, f a x = g a x) → ∀ a, foldl f a l = foldl g a l.
Proof.
  induction l as [|x l IH]; intros Hfg a; cbn; [done|].
  rewrite Hfg by left. apply IH. intros y Hy. apply Hfg. by right.
Qed.

(** *** The second loop, rule by rule *)

(** The score of an item: the rules after rule [k] applied to the score
    after rule [k]. *)
Lemma item_fitness_rules (k : nat) (items : list item) (it : item) :
  item_fitness items (tables items).1 (tables items).2 it
  = rules_after k items it (score_after k items it).
Proof.
  unfold rules_after, score_after. by rewrite <- foldl_app, take_drop.
Qed.

(** The fitness: the scores of the items, added in the order of the
    schedule. *)
Lemma calculate_fitness_sum (items : list item) :
  calculate_fitness items
  = foldl (λ total_fitness it,
             (total_fitness
              + item_fitness items (tables items).1 (tables items).2 it)%float)
          0%float items.
Proof. unfold calculate_fitness. by destruct (tables items). Qed.

(** *** Rule 5 *)

(** The step of rule 5 on an item of a schedule, by the number of items of
    the schedule that have its facilitator. *)
Lemma total_load_by_count (items : list item) (it : item) (fitness : float) :
  it ∈ items →
  total_load (tables items).1 it fitness =
    (if decide (load_of items (facilitator it) > 4) then (fitness - 0.5)%float
     else if decide (facilitator it = "Dr. Tyler" ∧ load_of items (facilitator it) = 3)
     then (fitness - 0.4)%float
     else if decide (load_of items (facilitator it) < 3 ∧ facilitator it ≠ "Dr. Tyler")
     then (fitness - 0.4)%float
     else fitness).
Proof.
  intros Hin. unfold total_load. rewrite (tables_loads _ _ Hin).
  split_decisions; cbn; try done; intuition lia.
Qed.

(** C5: what [calculate_fitness] adds for an item of a schedule is the
    score of rules 1 to 4, then the total-load step, then rules 6 and 7.
    The total-load step is decided by the number [n] of items of the whole
    schedule that have the item's facilitator: [n > 4] subtracts 0.5; else
    "Dr. Tyler" with [n = 3] subtracts 0.4; else [n < 3] for anyone but
    "Dr. Tyler" subtracts 0.4; otherwise the score is unchanged.  No two of
    the three conditions hold together.  The fitness of the schedule is the
    sum of these scores. *)
Theorem total_load_branches (items : list item) (it : item) :
  it ∈ items →
  let n := load_of items (facilitator it) in
  let tyler := facilitator it = "Dr. Tyler" in
  let before := score_after 4 items it in
  item_fitness items (tables items).1 (tables items).2 it =
    rules_after 5 items it
      (if decide (n > 4) then (before - 0.5)%float
       else if decide (tyler ∧ n = 3) then (before - 0.4)%float
       else if decide (n < 3 ∧ ¬ tyler) then (before - 0.4)%float
       else before)
  ∧ ¬ (n > 4 ∧ (tyler ∧ n = 3))
  ∧ ¬ (n > 4 ∧ (n < 3 ∧ ¬ tyler))
  ∧ ¬ ((tyler ∧ n = 3) ∧ (n < 3 ∧ ¬ tyler))
  ∧ calculate_fitness items
    = foldl (λ total_fitness x,
               (total_fitness
                + item_fitness items (tables items).1 (tables items).2 x)%float)
            0%float items.
Proof.
  intros Hin n tyler before.
  split; [|split; [lia|split; [lia|split; [lia|apply calculate_fitness_sum]]]].
  rewrite (item_fitness_rules 5). f_equal.
  change (score_after 5 items it) with (total_load (tables items).1 it before).
  by apply total_load_by_count.
Qed.

(** C6: in a schedule whose facilitators come from the dataset, no
    facilitator is "Dr. Tyler", so the second branch of the total-load step
    is never taken: what [calculate_fitness] adds for an item is the score
    of rules 1 to 4, less 0.5 for a load above 4 and less 0.4 for a load
    below 3, then rules 6 and 7.  A total load below 3 costs 0.4, for Tyler
    too, and Tyler with a total load of 3 loses nothing. *)
Theorem dataset_total_load (items : list item) (it : item) :
  Forall (λ x, facilitator x ∈ Data.facilitators) items →
  it ∈ items →
  let n := load_of items (facilitator it) in
  let before := score_after 4 items it in
  let score := item_fitness items (tables items).1 (tables items).2 it in
  facilitator it ≠ "Dr. Tyler"
  ∧ score = rules_after 5 items it
              (if decide (n > 4) then (before - 0.5)%float
               else if decide (n < 3) then (before - 0.4)%float
               else before)
  ∧ (n < 3 → score = rules_after 5 items it (before - 0.4)%float)
  ∧ (facilitator it = "Tyler" → n = 3 → score = rules_after 5 items it before)
  ∧ calculate_fitness items
    = foldl (λ total_fitness x,
               (total_fitness
                + item_fitness items (tables items).1 (tables items).2 x)%float)
            0%float items.
Proof.
  intros Hdata Hin n before score.
  assert (facilitator it ≠ "Dr. Tyler") as Hne.
  { rewrite Forall_forall in Hdata. specialize (Hdata _ Hin).
    intros E. rewrite E in Hdata. by vm_compute in Hdata;
      repeat (apply elem_of_cons in Hdata as [Hdata|Hdata]; [discriminate|]);
      apply elem_of_nil in Hdata. }
  assert (∀ fitness, total_load (tables items).1 it fitness
                     = if decide (n > 4) then (fitness - 0.5)%float
                       else if decide (n < 3) then (fitness - 0.4)%float
                       else fitness) as Hstep.
  { intros fitness. rewrite (total_load_by_count items it fitness Hin). fold n.
    split_decisions; try done; intuition lia. }
  assert (score = rules_after 5 items it (total_load (tables items).1 it before)) as Hscore
    by apply (item_fitness_rules 5).
  rewrite Hstep in Hscore.
  split; [done|]. split; [done|]. split; [|split; [|apply calculate_fitness_sum]].
  - intros Hn. rewrite Hscore. by rewrite decide_False, decide_True by lia.
  - intros _ Hn. rewrite Hscore. by rewrite !decide_False by lia.
Qed.

(** *** Rules 6 and 7 *)

Lemma dataset_names_not_linked :
  Forall (λ a, Activity.name a ∉ linked_names) Data.activities.
Proof.
  repeat (apply Forall_cons; split;
    [intros H; cbn in H;
     repeat (apply elem_of_cons in H as [H|H]; [discriminate|]);
     by apply elem_of_nil in H|]).
  apply Forall_nil_2.
Qed.

(** C1: the names of the dataset's activities are none of the two names
    that [calculate_fitness] tests ("SLA 101", "SLA 191"), so for a
    schedule over the dataset's activities rules 6 and 7 leave the score
    of every item as it is, and the fitness is that of rules 1 to 5. *)
Theorem dataset_linked_rules_silent (items : list item) :
  Forall (λ x, activity x ∈ Data.activities) items →
  Forall (λ a, Activity.name a ∉ linked_names) Data.activities
  ∧ (∀ it fitness, it ∈ items →
       paired_section items it fitness = fitness
       ∧ consecutive_slots items it fitness = fitness)
  ∧ calculate_fitness items = fitness_1_to_5 items.
Proof.
  intros Hdata. split; [apply dataset_names_not_linked|].
  assert (∀ it, it ∈ items → Activity.name (activity it) ∉ linked_names) as Hname.
  { intros it Hin. rewrite Forall_forall in Hdata.
    pose proof dataset_names_not_linked as Hn. rewrite Forall_forall in Hn.
    apply Hn, Hdata, Hin. }
  assert (∀ it fitness, it ∈ items →
            paired_section items it fitness = fitness
            ∧ consecutive_slots items it fitness = fitness) as Hsilent.
  { intros it fitness Hin. unfold paired_section, consecutive_slots.
    by rewrite bool_decide_eq_false_2 by auto. }
  split; [done|].
  unfold calculate_fitness, fitness_1_to_5.
  destruct (tables items) as [L T]. apply foldl_ext_in.
  intros it Hin total. f_equal. unfold item_fitness, item_fitness_1_to_5.
  destruct (Hsilent it (total_load L it
    (slot_load (T !!! TimeSlot.str (time_slot it)) it
       (facilitator_preference it
          (room_size it (room_conflicts (T !!! TimeSlot.str (time_slot it)) it 0%float)))))
    Hin) as [H6 _].
  cbv zeta. rewrite H6. by apply Hsilent.
Qed.

(** *** Rule 1 *)

Lemma room_conflicts_iter slot_items it : ∀ fitness,
  room_conflicts slot_items it fitness =
    Nat.iter (length (filter (λ other, other ≠ it ∧ room other = room it) slot_items))
             (λ f, (f - 0.5)%float) fitness.
Proof.
  unfold room_conflicts.
  induction slot_items as [|o l IH]; intros fitness; cbn [foldl]; [done|].
  rewrite IH, filter_cons.
  destruct (decide (o ≠ it ∧ room o = room it)) as [[??]|Hn].
  - rewrite !bool_decide_eq_true_2 by done. cbn [andb length].
    by rewrite Nat.iter_succ_r.
  - destruct (bool_decide_reflect (o ≠ it)); [|done].
    destruct (bool_decide_reflect (room o = room it)); [|done]. naive_solver.
Qed.

Lemma conflicts_of_score (items : list item) (it : item) :
  item_fitness items (tables items).1 (tables items).2 it
  = rules_after 1 items it
      (Nat.iter (length (conflicts_of items it)) (λ f, (f - 0.5)%float) 0%float).
Proof.
  rewrite (item_fitness_rules 1). f_equal.
  change (score_after 1 items it)
    with (room_conflicts ((tables items).2 !!! TimeSlot.str (time_slot it)) it 0%float).
  by rewrite tables_slots, room_conflicts_iter.
Qed.

(** Two items of a schedule that differ in some field and share the room
    and the time slot: what [calculate_fitness] adds for each of them is
    rules 2 to 7 on a score from which rule 1 has subtracted 0.5 once for
    every other item in that room and slot, and at least once: the other of
    the two is one of them. *)
Theorem room_conflict_both_ways (items : list item) (a b : item) :
  a ∈ items → b ∈ items → a ≠ b →
  room a = room b → time_slot a = time_slot b →
  item_fitness items (tables items).1 (tables items).2 a
    = rules_after 1 items a
        (Nat.iter (length (conflicts_of items a)) (λ f, (f - 0.5)%float) 0%float)
  ∧ item_fitness items (tables items).1 (tables items).2 b
    = rules_after 1 items b
        (Nat.iter (length (conflicts_of items b)) (λ f, (f - 0.5)%float) 0%float)
  ∧ b ∈ conflicts_of items a ∧ a ∈ conflicts_of items b
  ∧ (1 ≤ length (conflicts_of items a))%nat
  ∧ (1 ≤ length (conflicts_of items b))%nat.
Proof.
  intros Ha Hb Hne Hroom Hslot.
  assert (b ∈ conflicts_of items a) as Hba.
  { unfold conflicts_of, in_slot. rewrite !list_elem_of_filter, Hslot. naive_solver. }
  assert (a ∈ conflicts_of items b) as Hab.
  { unfold conflicts_of, in_slot. rewrite !list_elem_of_filter, Hslot. naive_solver. }
  split; [apply conflicts_of_score|]. split; [apply conflicts_of_score|].
  repeat split; try done.
  - destruct (conflicts_of items a); [by apply elem_of_nil in Hba | cbn; lia].
  - destruct (conflicts_of items b); [by apply elem_of_nil in Hab | cbn; lia].
Qed.

(** *** Examples *)

Lemma dataset_schedule_activities :
  Forall (λ x, activity x ∈ Data.activities) Inputs.dataset_schedule.
Proof. refine (bool_decide_unpack _ _). vm_compute. exact I. Defined.

Lemma dataset_schedule_facilitators :
  Forall (λ x, facilitator x ∈ Data.facilitators) Inputs.dataset_schedule.
Proof. refine (bool_decide_unpack _ _). vm_compute. exact I. Defined.

Lemma dataset_linked_rules_silent_witness :
  Forall (λ x, activity x ∈ Data.activities) Inputs.dataset_schedule
  ∧ calculate_fitness Inputs.dataset_schedule = fitness_1_to_5 Inputs.dataset_schedule
  ∧ calculate_fitness Inputs.dataset_schedule = 3.2999999999999998%float.
Proof.
  split; [exact dataset_schedule_activities|]. split.
  - exact (proj2 (proj2 (dataset_linked_rules_silent Inputs.dataset_schedule
                           dataset_schedule_activities))).
  - vm_compute. reflexivity.
Defined.

(** Lock has one item of the schedule: 0.4 is taken off its score. *)
Lemma total_load_branches_witness :
  Inputs.dataset_schedule !!! 0%nat ∈ Inputs.dataset_schedule
  ∧ load_of Inputs.dataset_schedule "Lock" = 1
  ∧ score_after 4 Inputs.dataset_schedule (Inputs.dataset_schedule !!! 0%nat)
    = 0.20000000000000001%float
  ∧ item_fitness Inputs.dataset_schedule (tables Inputs.dataset_schedule).1
      (tables Inputs.dataset_schedule).2 (Inputs.dataset_schedule !!! 0%nat)
    = (-0.20000000000000001)%float.
Proof.
  assert (Inputs.dataset_schedule !!! 0%nat ∈ Inputs.dataset_schedule) as Hin
    by (refine (bool_decide_unpack _ _); vm_compute; exact I).
  split; [exact Hin|]. split; [vm_compute; reflexivity|].
  split; [vm_compute; reflexivity|].
  etrans; [exact (proj1 (total_load_branches Inputs.dataset_schedule
                           (Inputs.dataset_schedule !!! 0%nat) Hin))|].
  vm_compute. reflexivity.
Defined.

(** Tyler has three items of the schedule: nothing is taken off. *)
Lemma dataset_total_load_witness :
  Forall (λ x, facilitator x ∈ Data.facilitators) Inputs.dataset_schedule
  ∧ Inputs.dataset_schedule !!! 8%nat ∈ Inputs.dataset_schedule
  ∧ facilitator (Inputs.dataset_schedule !!! 8%nat) = "Tyler"
  ∧ load_of Inputs.dataset_schedule "Tyler" = 3
  ∧ item_fitness Inputs.dataset_schedule (tables Inputs.dataset_schedule).1
      (tables Inputs.dataset_schedule).2 (Inputs.dataset_schedule !!! 8%nat)
    = rules_after 5 Inputs.dataset_schedule (Inputs.dataset_schedule !!! 8%nat)
        (score_after 4 Inputs.dataset_schedule (Inputs.dataset_schedule !!! 8%nat)).
Proof.
  assert (Inputs.dataset_schedule !!! 8%nat ∈ Inputs.dataset_schedule) as Hin
    by (refine (bool_decide_unpack _ _); vm_compute; exact I).
  split; [exact dataset_schedule_facilitators|]. split; [exact Hin|].
  split; [vm_compute; reflexivity|]. split; [vm_compute; reflexivity|].
  apply (dataset_total_load Inputs.dataset_schedule (Inputs.dataset_schedule !!! 8%nat)
           dataset_schedule_facilitators Hin); vm_compute; reflexivity.
Defined.

Lemma room_conflict_both_ways_witness :
  Inputs.clash_schedule !!! 0%nat ∈ Inputs.clash_schedule
  ∧ Inputs.clash_schedule !!! 1%nat ∈ Inputs.clash_schedule
  ∧ Inputs.clash_schedule !!! 0%nat ≠ Inputs.clash_schedule !!! 1%nat
  ∧ (1 ≤ length (conflicts_of Inputs.clash_schedule (Inputs.clash_schedule !!! 0%nat)))%nat
  ∧ (1 ≤ length (conflicts_of Inputs.clash_schedule (Inputs.clash_schedule !!! 1%nat)))%nat.
Proof.
  assert (Inputs.clash_schedule !!! 0%nat ∈ Inputs.clash_schedule) as Ha
    by (refine (bool_decide_unpack _ _); vm_compute; exact I).
  assert (Inputs.clash_schedule !!! 1%nat ∈ Inputs.clash_schedule) as Hb
    by (refine (bool_decide_unpack _ _); vm_compute; exact I).
  assert (Inputs.clash_schedule !!! 0%nat ≠ Inputs.clash_schedule !!! 1%nat) as Hne
    by (refine (bool_decide_unpack _ _); vm_compute; exact I).
  split; [exact Ha|]. split; [exact Hb|]. split; [exact Hne|].
  exact (proj2 (proj2 (proj2 (proj2
    (room_conflict_both_ways Inputs.clash_schedule _ _ Ha Hb Hne eq_refl eq_refl))))).
Defined.

(** C10: the code misses the room conflict of two items that are equal in
    every field.  The schedule is made for an activity list that names the
    seminar twice; its two items sit in one room at one time.  Line 70
    compares [other_item != item] by the fields, so neither item counts as
    an other item of the other and rule 1 subtracts nothing from either.
    Rule 4 of the same loop does count the two items (the facilitator has
    two in the slot: it subtracts 0.2).  The score of each item is 0.2,
    where 0.5 taken off by rule 1 leaves -0.3. *)
Theorem twin_items_escape_room_conflict :
  Inputs.twin_schedule !! 0%nat = Some Inputs.twin
  ∧ Inputs.twin_schedule !! 1%nat = Some Inputs.twin
  ∧ conflicts_of Inputs.twin_schedule Inputs.twin = []
  ∧ score_after 1 Inputs.twin_schedule Inputs.twin = 0%float
  ∧ length (MoreTerms.same_slot_and_facilitator Inputs.twin_schedule Inputs.twin) = 2%nat
  ∧ score_after 4 Inputs.twin_schedule Inputs.twin
    = (score_after 3 Inputs.twin_schedule Inputs.twin - 0.2)%float
  ∧ item_fitness Inputs.twin_schedule (tables Inputs.twin_schedule).1
      (tables Inputs.twin_schedule).2 Inputs.twin = 0.20000000000000007%float
  ∧ rules_after 1 Inputs.twin_schedule Inputs.twin (0 - 0.5)%float
    = (-0.30000000000000004)%float
  ∧ calculate_fitness Inputs.twin_schedule = 0.40000000000000013%float.
Proof. repeat split; vm_compute; reflexivity. Qed.

End FitnessFacts.


(** ** The engine *)

Module EngineFacts.
Import GeneticAlgorithm EngineTerms.

Lemma bind_Ok {A B} (m : M A) (f : A → M B) σ b σ' :
  (m ≫= f) σ = Ok (b, σ') ↔ ∃ a σ1, m σ = Ok (a, σ1) ∧ f a σ1 = Ok (b, σ').
Proof.
  unfold mbind, M_bind. destruct (m σ) as [[a σ1]|e]; split.
  - eauto.
  - by intros (? & ? & [= <- <-] & ?).
  - done.
  - by intros (? & ? & ? & ?).
Qed.

Lemma bind_eq {A B} (m : M A) (f : A → M B) σ a σ1 :
  m σ = Ok (a, σ1) → (m ≫= f) σ = f a σ1.
Proof. unfold mbind, M_bind. by intros ->. Qed.

Lemma bind_Raise {A B} (m : M A) (f : A → M B) σ e :
  m σ = Raise e → (m ≫= f) σ = Raise e.
Proof. unfold mbind, M_bind. by intros ->. Qed.

Lemma mapM_cons {A B} (f : A → M B) (x : A) (l : list A) :
  mapM f (x :: l) = (y ← f x; k ← mapM f l; mret (y :: k)).
Proof. done. Qed.

Lemma randbelow_lt n σ : (0 < n)%nat → ((Random.randbelow n (rng σ)).1 < n)%nat.
Proof.
  intros Hn. cbn.
  pose proof (N.mod_upper_bound (Random.ints (rng σ) (Random.cursor (rng σ))) (N.of_nat n)).
  lia.
Qed.

Lemma randbelow_eq n σ :
  randbelow n σ = Ok ((Random.randbelow n (rng σ)).1, drawn σ).
Proof. done. Qed.

Lemma random_randint_eq a b σ :
  a ≤ b →
  random_randint a b σ =
    Ok (a + Z.of_nat (Random.randbelow (Z.to_nat (b - a + 1)) (rng σ)).1, drawn σ).
Proof.
  intros Hab. unfold random_randint. by rewrite bool_decide_eq_false_2 by lia.
Qed.

Lemma crossover_eq self parent1 parent2 σ :
  let K := length (activities self) in
  (2 ≤ K)%nat →
  crossover self parent1 parent2 σ =
    new_schedule
      (take (cut_point K σ) (Schedule.items (schedule_objs σ !!! parent1))
       ++ drop (cut_point K σ) (Schedule.items (schedule_objs σ !!! parent2)))
      (drawn σ).
Proof.
  intros K HK. unfold crossover.
  erewrite bind_eq by (apply random_randint_eq; lia).
  unfold read_schedule, slice_to, slice_from, cut_point. cbn.
  replace (Z.to_nat (Z.of_nat (length (activities self)) - 1 - 1 + 1))
    with (K - 1)%nat by lia.
  by rewrite Z.add_1_l, <- Nat2Z.inj_succ, Nat2Z.id.
Qed.

(** The child of [crossover]: a new schedule, the items of the first
    parent before the cut and those of the second from the cut on; one draw
    is made and nothing else changes. *)
Lemma crossover_child self parent1 parent2 σ :
  let K := length (activities self) in
  (2 ≤ K)%nat →
  (parent1 < length (schedule_objs σ))%nat →
  (parent2 < length (schedule_objs σ))%nat →
  ∃ σ', crossover self parent1 parent2 σ = Ok (length (schedule_objs σ), σ')
        ∧ rng σ' = rng (drawn σ)
        ∧ item_objs σ' = item_objs σ
        ∧ items_of σ' (length (schedule_objs σ))
          = take (cut_point K σ) (items_of σ parent1)
            ++ drop (cut_point K σ) (items_of σ parent2)
        ∧ items_of σ' parent1 = items_of σ parent1
        ∧ items_of σ' parent2 = items_of σ parent2.
Proof.
  intros K HK Hp1 Hp2. eexists. split; [by apply crossover_eq|]. fold K.
  unfold items_of, deref. cbn [schedule_objs item_objs rng drawn].
  rewrite list_lookup_total_middle by done. cbn [Schedule.items].
  rewrite !lookup_total_app_l by done.
  by rewrite fmap_app, fmap_take, fmap_drop.
Qed.

Lemma random_randint_cut (K : nat) σ :
  (2 ≤ K)%nat →
  random_randint 1 (Z.of_nat K - 1) σ = Ok (Z.of_nat (cut_point K σ), drawn σ)
  ∧ randbelow (K - 1) σ = Ok (pred (cut_point K σ), drawn σ)
  ∧ (1 ≤ cut_point K σ ≤ K - 1)%nat.
Proof.
  intros HK. split; [|split].
  - rewrite random_randint_eq by lia. unfold cut_point. do 2 f_equal.
    replace (Z.to_nat (Z.of_nat K - 1 - 1 + 1)) with (K - 1)%nat by lia. lia.
  - by rewrite randbelow_eq.
  - unfold cut_point. pose proof (randbelow_lt (K - 1) σ). lia.
Qed.

(** C8: for two parents of [K >= 2] items each, with [K] the number of
    activities, [crossover] draws its cut point [C] by
    [randint(1, K - 1)]: [C] is one more than the draw that the library
    makes below [K - 1], so [1 <= C <= K - 1], one cut point for each value
    of the draw.  It returns a new schedule of [K] items: the first [C] are
    the first [C] items of the first parent, the others the items of the
    second parent from position [C] on.  The parents and all items stay as
    they were.  Every cut point of the range is the one that [crossover]
    takes for some tape of the oracle: the child is then cut there. *)
Theorem crossover_single_point (self : t) (parent1 parent2 : nat) (σ : State) :
  let K := length (activities self) in
  (2 ≤ K)%nat →
  (parent1 < length (schedule_objs σ))%nat →
  (parent2 < length (schedule_objs σ))%nat →
  length (items_of σ parent1) = K →
  length (items_of σ parent2) = K →
  (∃ (r C child : nat) (σ' : State),
      randbelow (K - 1) σ = Ok (r, drawn σ)
      ∧ C = S r
      ∧ random_randint 1 (Z.of_nat K - 1) σ = Ok (Z.of_nat C, drawn σ)
      ∧ crossover self parent1 parent2 σ = Ok (child, σ')
      ∧ rng σ' = rng (drawn σ)
      ∧ (1 ≤ C ≤ K - 1)%nat
      ∧ length (items_of σ' child) = K
      ∧ take C (items_of σ' child) = take C (items_of σ parent1)
      ∧ drop C (items_of σ' child) = drop C (items_of σ parent2)
      ∧ items_of σ' parent1 = items_of σ parent1
      ∧ items_of σ' parent2 = items_of σ parent2
      ∧ item_objs σ' = item_objs σ)
  ∧ (∀ C : nat, (1 ≤ C ≤ K - 1)%nat →
       ∃ (ints : N → N) (child : nat) (σ' : State),
         let σC := mkState (item_objs σ) (schedule_objs σ)
                     (Random.mk ints (Random.units (rng σ)) (Random.cursor (rng σ))) in
         random_randint 1 (Z.of_nat K - 1) σC = Ok (Z.of_nat C, drawn σC)
         ∧ crossover self parent1 parent2 σC = Ok (child, σ')
         ∧ items_of σ' child
           = take C (items_of σ parent1) ++ drop C (items_of σ parent2)).
Proof.
  intros K HK Hp1 Hp2 Hl1 Hl2. split.
  - destruct (crossover_child self parent1 parent2 σ HK Hp1 Hp2)
      as (σ' & E & Hrng & Hobjs & Hchild & Hq1 & Hq2).
    destruct (random_randint_cut K σ HK) as (Hint & Hdraw & HC).
    exists (pred (cut_point K σ)), (cut_point K σ), (length (schedule_objs σ)), σ'.
    fold K in Hchild. rewrite Hchild.
    assert (length (take (cut_point K σ) (items_of σ parent1)) = cut_point K σ) as Ht
      by (rewrite length_take; lia).
    do 7 (split; [done || lia || (rewrite length_app, Ht, length_drop; lia)|]).
    split; [|split; [|done]].
    + rewrite take_app_le by lia. rewrite take_take. f_equal. lia.
    + rewrite drop_app_ge by lia. by rewrite Ht, Nat.sub_diag.
  - intros C HC. exists (λ _, N.of_nat (C - 1)).
    set (σC := mkState (item_objs σ) (schedule_objs σ)
                 (Random.mk (λ _, N.of_nat (C - 1)) (Random.units (rng σ))
                            (Random.cursor (rng σ)))).
    destruct (crossover_child self parent1 parent2 σC HK Hp1 Hp2)
      as (σ' & E & _ & _ & Hchild & _).
    assert (cut_point K σC = C) as HcutC.
    { unfold cut_point. cbn. rewrite N.mod_small by lia. lia. }
    exists (length (schedule_objs σ)), σ'. cbv zeta. fold σC.
    split; [|split; [exact E|]].
    + rewrite <- HcutC at 1. by apply random_randint_cut.
    + fold K in Hchild. by rewrite HcutC in Hchild.
Qed.

(** *** Draws *)

Lemma random_random_eq σ :
  random_random σ = Ok ((Random.random (rng σ)).1, drawn σ).
Proof. done. Qed.

Lemma random_choice_nil {A} σ : random_choice (A:=A) [] σ = Raise IndexError.
Proof. done. Qed.

Lemma random_choice_eq {A} (seq : list A) σ :
  seq ≠ [] →
  ∃ x, seq !! (Random.randbelow (length seq) (rng σ)).1 = Some x
       ∧ random_choice seq σ = Ok (x, drawn σ).
Proof.
  intros Hne. destruct seq as [|y seq]; [done|].
  set (l := y :: seq) in *.
  destruct (lookup_lt_is_Some_2 l (Random.randbelow (length l) (rng σ)).1) as [x Hx].
  { apply randbelow_lt. cbn. lia. }
  exists x. split; [done|]. unfold random_choice, l at 1. fold l.
  erewrite bind_eq by apply randbelow_eq. by rewrite Hx.
Qed.

Lemma random_choice_Ok {A} (seq : list A) σ x σ' :
  random_choice seq σ = Ok (x, σ') → x ∈ seq ∧ σ' = drawn σ.
Proof.
  destruct seq as [|y seq]; [done|]. intros H.
  destruct (random_choice_eq (y :: seq) σ) as (x' & Hx' & E); [done|].
  rewrite E in H. injection H as <- <-. split; [|done].
  by eapply list_elem_of_lookup_2.
Qed.

(** *** [mutate] *)

Lemma facet_change_activity self g x : facet_change self g → activity (g x) = activity x.
Proof. by destruct 1. Qed.

Lemma mutate_item_inv self l σ u σ' :
  mutate_item self l σ = Ok (u, σ') →
  ∃ g, item_objs σ' = alter g l (item_objs σ)
       ∧ schedule_objs σ' = schedule_objs σ
       ∧ if PrimFloat.ltb (Random.random (rng σ)).1 (mutation_rate self)
         then facet_change self g else g = id.
Proof.
  unfold mutate_item. intros H.
  apply bind_Ok in H as (x & σ1 & Hx & H).
  rewrite random_random_eq in Hx. injection Hx as <- <-.
  destruct (PrimFloat.ltb _ _).
  - apply bind_Ok in H as (ty & σ2 & Hty & H).
    apply random_choice_Ok in Hty as [_ ->].
    repeat case_bool_decide;
      apply bind_Ok in H as (v & σ3 & Hv & H);
      apply random_choice_Ok in Hv as [Hin ->];
      injection H as _ <-; eexists; (split; [reflexivity|]); (split; [reflexivity|]);
      by constructor.
  - injection H as _ <-. exists id. by rewrite list_alter_id.
Qed.

(** A loop of [mutate_item] over locations from [n0] on leaves what is
    stored below [n0] and the activity of every item as they are. *)
Lemma mutate_loop_frame self n0 ls : ∀ σ us σ',
  mapM (mutate_item self) ls σ = Ok (us, σ') →
  Forall (λ l, n0 ≤ l)%nat ls →
  take n0 (item_objs σ') = take n0 (item_objs σ)
  ∧ length (item_objs σ') = length (item_objs σ)
  ∧ activity <$> item_objs σ' = activity <$> item_objs σ
  ∧ schedule_objs σ' = schedule_objs σ.
Proof.
  induction ls as [|l ls IH]; intros σ us σ' H Hge.
  - by injection H as <- <-.
  - cbn in H. apply bind_Ok in H as (u & σ1 & Hu & H).
    apply bind_Ok in H as (us' & σ2 & Hus & H). injection H as <- <-.
    apply Forall_cons in Hge as [Hl Hge].
    destruct (IH _ _ _ Hus Hge) as (-> & -> & -> & ->).
    apply mutate_item_inv in Hu as (g & -> & -> & Hg).
    rewrite take_alter_ge, length_alter by done. repeat split.
    apply list_eq. intros i. rewrite !list_lookup_fmap, list_lookup_alter.
    case_decide as Hi; [subst i|done].
    destruct (item_objs σ !! l) as [x|]; [cbn|done]. f_equal.
    destruct (PrimFloat.ltb _ _); [by eapply facet_change_activity | by subst g].
Qed.

Lemma state_eta σ : mkState (item_objs σ) (schedule_objs σ) (rng σ) = σ.
Proof. by destruct σ. Qed.

(** [deepcopy]: every reference of the list gets a copy stored from [n0]
    on that holds what the original holds; nothing is written below. *)
Lemma deepcopy_items_spec n0 refs : ∀ memo σ,
  (n0 ≤ length (item_objs σ))%nat →
  Forall (λ l, l < n0)%nat refs →
  (∀ l l', memo !! l = Some l' →
     (n0 ≤ l')%nat ∧ (l < n0)%nat ∧ item_objs σ !! l' = item_objs σ !! l) →
  ∃ refs' extra,
    deepcopy_items memo refs σ
      = Ok (refs', mkState (item_objs σ ++ extra) (schedule_objs σ) (rng σ))
    ∧ Forall2 (λ l l', (l < n0)%nat ∧ (n0 ≤ l')%nat
                       ∧ (item_objs σ ++ extra) !! l' = item_objs σ !! l) refs refs'.
Proof.
  induction refs as [|l refs IH]; intros memo σ Hn0 Hvalid Hmemo.
  - exists [], []. rewrite app_nil_r, state_eta. by split.
  - apply Forall_cons in Hvalid as [Hl Hvalid]. cbn [deepcopy_items].
    destruct (lookup_lt_is_Some_2 (item_objs σ) l) as [x Hx]; [lia|].
    destruct (memo !! l) as [l'|] eqn:Hm.
    + destruct (IH memo σ Hn0 Hvalid Hmemo) as (refs' & extra & E & HF).
      exists (l' :: refs'), extra. erewrite bind_eq by exact E. split; [done|].
      constructor; [|done]. destruct (Hmemo _ _ Hm) as (? & ? & Hl').
      repeat split; try done. rewrite Hx in Hl' |- *. by apply lookup_app_l_Some.
    + set (σ1 := mkState (item_objs σ ++ [item_objs σ !!! l]) (schedule_objs σ) (rng σ)).
      destruct (IH (<[l:=length (item_objs σ)]> memo) σ1) as (refs' & extra & E & HF).
      { cbn. rewrite length_app. lia. }
      { done. }
      { intros k k' Hk. cbn. apply lookup_insert_Some in Hk as [[<- <-]|[Hne Hk]].
        - repeat split; try done.
          rewrite list_lookup_middle by done.
          rewrite lookup_app_l by lia. by rewrite (list_lookup_total_correct _ _ _ Hx).
        - destruct (Hmemo _ _ Hk) as (? & ? & Hk').
          repeat split; try done.
          destruct (lookup_lt_is_Some_2 (item_objs σ) k) as [y Hy]; [lia|].
          rewrite Hy in Hk'. by rewrite (lookup_app_l_Some _ _ _ _ Hk'),
            (lookup_app_l_Some _ _ _ _ Hy). }
      exists (length (item_objs σ) :: refs'), ([item_objs σ !!! l] ++ extra).
      split.
      { do 2 (erewrite bind_eq by reflexivity; cbv beta). fold σ1.
        erewrite bind_eq by exact E. cbn. by rewrite <- app_assoc. }
      constructor.
      * repeat split; try done.
        rewrite lookup_app_r by done. rewrite Nat.sub_diag. cbn.
        by rewrite (list_lookup_total_correct _ _ _ Hx).
      * eapply Forall2_impl; [exact HF|]. cbn. intros k k' (? & ? & Hk).
        repeat split; try done. rewrite <- app_assoc in Hk. cbn in Hk.
        rewrite Hk. by apply lookup_app_l; lia.
Qed.

Lemma deref_app_l σ extra refs :
  Forall (λ l, l < length (item_objs σ))%nat refs →
  deref (mkState (item_objs σ ++ extra) (schedule_objs σ) (rng σ)) refs = deref σ refs.
Proof.
  intros Hvalid. unfold deref. cbn. apply Forall_fmap_ext.
  eapply Forall_impl; [exact Hvalid|]. intros l Hl. by apply lookup_total_app_l.
Qed.

(** [deepcopy] of distinct objects: the copies are new objects, in the
    order of the list. *)
Lemma deepcopy_items_fresh refs : ∀ memo σ,
  NoDup refs →
  Forall (λ l, l < length (item_objs σ))%nat refs →
  (∀ l, l ∈ refs → memo !! l = None) →
  deepcopy_items memo refs σ
    = Ok (seq (length (item_objs σ)) (length refs),
          mkState (item_objs σ ++ deref σ refs) (schedule_objs σ) (rng σ)).
Proof.
  induction refs as [|l refs IH]; intros memo σ Hnd Hvalid Hmemo.
  - cbn. by rewrite app_nil_r, state_eta.
  - apply NoDup_cons in Hnd as [Hl Hnd]. apply Forall_cons in Hvalid as [Hlt Hvalid].
    cbn [deepcopy_items]. rewrite Hmemo by left.
    set (σ1 := mkState (item_objs σ ++ [item_objs σ !!! l]) (schedule_objs σ) (rng σ)).
    do 2 (erewrite bind_eq by reflexivity; cbv beta). fold σ1.
    erewrite bind_eq; cycle 1.
    { apply (IH _ σ1); [done| |].
      - eapply Forall_impl; [exact Hvalid|]. cbn. intros. rewrite length_app. lia.
      - intros k Hk. rewrite lookup_insert_ne; [apply Hmemo; by right|].
        by intros ->. }
    unfold mret, M_ret, σ1. cbn [item_objs schedule_objs rng length].
    rewrite (deref_app_l σ [item_objs σ !!! l] refs Hvalid).
    by rewrite length_app, Nat.add_1_r, <- app_assoc.
Qed.

Section MutationLoop.
Context (self : t) (P : (item → item) → Prop).
Hypothesis step_P : ∀ (x : float) (g : item → item),
  (if PrimFloat.ltb (Random.unit_interval x) (mutation_rate self)
   then facet_change self g else g = id) → P g.

(** The loop of [mutate] over distinct objects: one step for each. *)
Lemma mutate_loop_each ls : ∀ σ us σ',
  mapM (mutate_item self) ls σ = Ok (us, σ') →
  NoDup ls →
  (∀ l, l ∉ ls → item_objs σ' !! l = item_objs σ !! l)
  ∧ (∀ l, l ∈ ls → ∃ g, P g ∧ item_objs σ' !! l = g <$> item_objs σ !! l).
Proof using step_P.
  induction ls as [|l ls IH]; intros σ us σ' H Hnd.
  - injection H as <- <-. split; [done|]. intros l Hl. by apply elem_of_nil in Hl.
  - cbn in H. apply bind_Ok in H as (u & σ1 & Hu & H).
    apply bind_Ok in H as (us' & σ2 & Hus & H). injection H as <- <-.
    apply NoDup_cons in Hnd as [Hl Hnd].
    destruct (IH _ _ _ Hus Hnd) as [Hout Hin].
    apply mutate_item_inv in Hu as (g & Hg & _ & HP). apply step_P in HP.
    split.
    + intros k Hk. apply not_elem_of_cons in Hk as [Hne Hk].
      rewrite Hout, Hg by done. by apply list_lookup_alter_ne.
    + intros k Hk. apply elem_of_cons in Hk as [->|Hk].
      * exists g. split; [done|]. rewrite Hout, Hg by done.
        apply list_lookup_alter_eq.
      * destruct (Hin _ Hk) as (g' & HP' & Hg'). exists g'. split; [done|].
        rewrite Hg', Hg. f_equal. apply list_lookup_alter_ne. by intros ->.
Qed.
End MutationLoop.

(** *** Comparisons with the draw of [random.random()] *)

Lemma unit_interval_lt_one x : PrimFloat.ltb (Random.unit_interval x) 1 = true.
Proof.
  unfold Random.unit_interval.
  destruct (PrimFloat.leb 0 x); [|done]. by destruct (PrimFloat.ltb x 1) eqn:E.
Qed.

Lemma unit_interval_not_lt_zero x rate :
  PrimFloat.eqb rate 0 = true → PrimFloat.ltb (Random.unit_interval x) rate = false.
Proof.
  unfold Random.unit_interval. rewrite FloatAxioms.eqb_spec. intros Hrate.
  destruct (PrimFloat.leb 0 x) eqn:Hx; cbn [andb];
    [destruct (PrimFloat.ltb x 1)|]; rewrite FloatAxioms.ltb_spec;
    try rewrite FloatAxioms.leb_spec in Hx;
    change (Prim2SF 0) with (S754_zero false) in *;
    destruct (Prim2SF rate) as [[]|[]| |[] ? ?]; try discriminate Hrate;
    try done; destruct (Prim2SF x) as [[]|[]| |[] ? ?]; done.
Qed.

(** *** [mutate], assembled *)

Lemma mutate_inv self s σ s' σ' :
  mutate self s σ = Ok (s', σ') →
  ∃ refs' σ1 σ2 us,
    deepcopy_items ∅ (Schedule.items (schedule_objs σ !!! s)) σ = Ok (refs', σ1)
    ∧ mapM (mutate_item self) refs' σ1 = Ok (us, σ2)
    ∧ s' = length (schedule_objs σ2)
    ∧ σ' = mkState (item_objs σ2) (schedule_objs σ2 ++ [Schedule.mk refs' None]) (rng σ2).
Proof.
  unfold mutate. intros H.
  apply bind_Ok in H as (o & σ0 & Ho & H). injection Ho as <- <-.
  apply bind_Ok in H as (refs' & σ1 & Hcopy & H).
  apply bind_Ok in H as (us & σ2 & Hloop & H). injection H as <- <-.
  by exists refs', σ1, σ2, us.
Qed.

Lemma deref_lookup σ refs ys :
  Forall2 (λ l y, item_objs σ !! l = Some y) refs ys → deref σ refs = ys.
Proof.
  unfold deref. induction 1 as [|l y refs ys Hl _ IH]; [done|].
  cbn. by rewrite IH, (list_lookup_total_correct _ _ _ Hl).
Qed.

Lemma deref_prefix σ σ' refs :
  item_objs σ `prefix_of` item_objs σ' → valid_refs σ refs →
  deref σ' refs = deref σ refs.
Proof.
  intros [extra Hpre] Hvalid. unfold deref. apply Forall_fmap_ext.
  eapply Forall_impl; [exact Hvalid|]. intros l Hl. cbn.
  rewrite Hpre. by apply lookup_total_app_l.
Qed.

(** [mutate] writes to its own copies only, and keeps the activities. *)
Lemma mutate_frame self s σ s' σ' :
  valid_refs σ (Schedule.items (schedule_objs σ !!! s)) →
  mutate self s σ = Ok (s', σ') →
  item_objs σ `prefix_of` item_objs σ'
  ∧ s' = length (schedule_objs σ)
  ∧ (∃ refs', schedule_objs σ' = schedule_objs σ ++ [Schedule.mk refs' None]
              ∧ valid_refs σ' refs')
  ∧ activity <$> items_of σ' s' = activity <$> items_of σ s.
Proof.
  intros Hvalid H.
  apply mutate_inv in H as (refs' & σ1 & σ2 & us & Hcopy & Hloop & -> & ->).
  destruct (deepcopy_items_spec (length (item_objs σ))
              (Schedule.items (schedule_objs σ !!! s)) ∅ σ)
    as (refs'' & extra & E & HF); [done|done|intros l l' Hl; by rewrite lookup_empty in Hl|].
  rewrite E in Hcopy. injection Hcopy as -> <-.
  apply (mutate_loop_frame _ (length (item_objs σ))) in Hloop
    as (Htake & Hlen & Hact & Hsched);
    [|eapply Forall2_Forall_r; [exact HF|]; apply Forall_true; by intros ? ? (? & ? & ?)].
  cbn in Htake, Hlen, Hact, Hsched. rewrite take_app_length in Htake.
  assert (item_objs σ `prefix_of` item_objs σ2) as Hpre.
  { exists (drop (length (item_objs σ)) (item_objs σ2)).
    by rewrite <- Htake at 1; rewrite take_drop. }
  assert (Forall2 (λ l l', ∃ x y, item_objs σ !! l = Some x ∧ item_objs σ2 !! l' = Some y
                                  ∧ activity y = activity x)
            (Schedule.items (schedule_objs σ !!! s)) refs') as HF2.
  { eapply Forall2_impl; [exact HF|]. cbn. intros l l' (Hl & Hl' & Hll').
    destruct (lookup_lt_is_Some_2 (item_objs σ) l) as [x Hx]; [done|].
    rewrite Hx in Hll'.
    assert ((activity <$> item_objs σ2) !! l' = Some (activity x)) as Ha
      by (by rewrite Hact, list_lookup_fmap, Hll').
    rewrite list_lookup_fmap in Ha.
    destruct (item_objs σ2 !! l') as [y|]; [|done]. injection Ha as Ha. eauto. }
  split; [done|]. split; [by rewrite Hsched|]. split.
  - exists refs'. split; [by rewrite Hsched|].
    unfold valid_refs. cbn. eapply Forall2_Forall_r; [exact HF2|]. apply Forall_true.
    intros l l' (x & y & _ & Hy & _). by eapply lookup_lt_Some.
  - unfold items_of. cbn [schedule_objs]. rewrite list_lookup_total_middle by done.
    cbn [Schedule.items]. unfold deref. cbn [item_objs]. rewrite <- !list_fmap_compose.
    clear -HF2. induction HF2 as [|l l' ?? (x & y & Hx & Hy & Ha) _ IH]; [done|].
    cbn. rewrite IH. f_equal.
    by rewrite (list_lookup_total_correct _ _ _ Hx), (list_lookup_total_correct _ _ _ Hy).
Qed.

(** *** The invariant of the schedules *)

Lemma extends_refl σ : extends σ σ.
Proof. by split. Qed.

Lemma extends_trans σ1 σ2 σ3 : extends σ1 σ2 → extends σ2 σ3 → extends σ1 σ3.
Proof. intros [??] [??]. split; by etrans. Qed.

Lemma same_objects_extends σ σ' : same_objects σ σ' → extends σ σ'.
Proof. intros [Hi Hs]. split; [by rewrite Hi | by rewrite Hs]. Qed.

Lemma same_objects_refl σ : same_objects σ σ.
Proof. by split. Qed.

Lemma same_objects_trans σ1 σ2 σ3 :
  same_objects σ1 σ2 → same_objects σ2 σ3 → same_objects σ1 σ3.
Proof. intros [H1 H2] [H3 H4]. split; congruence. Qed.

Lemma valid_refs_mono σ σ' refs :
  item_objs σ `prefix_of` item_objs σ' → valid_refs σ refs → valid_refs σ' refs.
Proof.
  intros Hpre Hvalid. eapply Forall_impl; [exact Hvalid|]. intros l Hl.
  apply prefix_length in Hpre. cbn in *. lia.
Qed.

Lemma extends_schedule σ σ' s :
  extends σ σ' → (s < length (schedule_objs σ))%nat →
  (s < length (schedule_objs σ'))%nat
  ∧ Schedule.items (schedule_objs σ' !!! s) = Schedule.items (schedule_objs σ !!! s).
Proof.
  intros [_ [more Hsched]] Hs.
  destruct (lookup_lt_is_Some_2 (schedule_objs σ) s Hs) as [o Ho].
  assert ((Schedule.items <$> schedule_objs σ') !! s = Some (Schedule.items o)) as H.
  { rewrite Hsched. apply lookup_app_l_Some. by rewrite list_lookup_fmap, Ho. }
  rewrite list_lookup_fmap in H.
  destruct (schedule_objs σ' !! s) as [o'|] eqn:Ho'; [|done]. injection H as H.
  split; [by eapply lookup_lt_Some|].
  by rewrite (list_lookup_total_correct _ _ _ Ho), (list_lookup_total_correct _ _ _ Ho').
Qed.

Lemma schedule_inv_mono self σ σ' s :
  extends σ σ' → schedule_inv self σ s → schedule_inv self σ' s.
Proof.
  intros Hext (Hs & Hvalid & Hact).
  destruct (extends_schedule _ _ _ Hext Hs) as [Hs' Hobj]. destruct Hext as [Hitems _].
  unfold schedule_inv, items_of. rewrite Hobj. split; [done|]. split.
  - by eapply valid_refs_mono.
  - by rewrite (deref_prefix σ σ').
Qed.

Lemma schedule_inv_activities self self' σ s :
  activities self' = activities self → schedule_inv self σ s → schedule_inv self' σ s.
Proof. unfold schedule_inv. by intros ->. Qed.

Lemma random_item_inv self a σ l σ' :
  random_item self a σ = Ok (l, σ') →
  l = length (item_objs σ)
  ∧ ∃ it, activity it = a ∧ item_objs σ' = item_objs σ ++ [it]
          ∧ schedule_objs σ' = schedule_objs σ.
Proof.
  unfold random_item. intros H.
  apply bind_Ok in H as (r & σ1 & Hr & H). apply random_choice_Ok in Hr as [_ ->].
  apply bind_Ok in H as (ts & σ2 & Hts & H). apply random_choice_Ok in Hts as [_ ->].
  apply bind_Ok in H as (f & σ3 & Hf & H). apply random_choice_Ok in Hf as [_ ->].
  injection H as <- <-. split; [done|].
  by exists (ScheduleItem.mk a r ts f).
Qed.

Lemma random_items_inv self acts : ∀ σ ls σ',
  mapM (random_item self) acts σ = Ok (ls, σ') →
  ls = seq (length (item_objs σ)) (length acts)
  ∧ ∃ new, activity <$> new = acts ∧ item_objs σ' = item_objs σ ++ new
           ∧ schedule_objs σ' = schedule_objs σ.
Proof.
  induction acts as [|a acts IH]; intros σ ls σ' H.
  - injection H as <- <-. split; [done|]. exists []. by rewrite app_nil_r.
  - cbn in H. apply bind_Ok in H as (l & σ1 & Hl & H).
    apply bind_Ok in H as (ls' & σ2 & Hls & H). injection H as <- <-.
    apply random_item_inv in Hl as (-> & it & Hit & Hi1 & Hs1).
    apply IH in Hls as (-> & new & Hnew & Hi2 & Hs2).
    rewrite Hi1, length_app, Nat.add_1_r. split; [done|].
    exists (it :: new). cbn. rewrite Hit, Hnew, Hi2, Hi1, Hs2, Hs1.
    by rewrite <- app_assoc.
Qed.

Lemma deref_seq σ new :
  deref (mkState (item_objs σ ++ new) (schedule_objs σ) (rng σ))
        (seq (length (item_objs σ)) (length new)) = new.
Proof.
  apply deref_lookup. cbn. apply Forall2_same_length_lookup. split.
  - by rewrite length_seq.
  - intros i l y Hl Hy. apply lookup_seq in Hl as [-> _].
    rewrite lookup_app_r by lia. by replace (_ + i - _)%nat with i by lia.
Qed.

Lemma random_schedule_inv self σ s σ' :
  random_schedule self σ = Ok (s, σ') → extends σ σ' ∧ schedule_inv self σ' s.
Proof.
  unfold random_schedule. intros H.
  apply bind_Ok in H as (ls & σ1 & Hls & H). injection H as <- <-.
  apply random_items_inv in Hls as (-> & new & Hnew & Hi & Hs).
  split.
  { split; cbn; [rewrite Hi; by apply prefix_app_r|].
    rewrite fmap_app, Hs. by apply prefix_app_r. }
  assert (length new = length (activities self)) as Hlen
    by (by rewrite <- Hnew, length_fmap).
  unfold schedule_inv, items_of, valid_refs. cbn [schedule_objs item_objs].
  rewrite list_lookup_total_middle by done. cbn [Schedule.items].
  split; [rewrite length_app; cbn; lia|]. split.
  - apply Forall_forall. intros l [? ?]%elem_of_seq. rewrite Hi, length_app. lia.
  - pose proof (deref_seq σ new) as Hd. unfold deref in *. cbn [item_objs] in *.
    by rewrite <- Hlen, Hi, Hd.
Qed.

(** A loop whose body adds to the store and returns a schedule with the
    property returns schedules that all have it at the end. *)
Lemma repeatM_inv self (body : M nat) (I : State → Prop) n :
  (∀ σ σ', extends σ σ' → I σ → I σ') →
  (∀ σ s σ', I σ → body σ = Ok (s, σ') → extends σ σ' ∧ schedule_inv self σ' s) →
  ∀ σ pop σ',
    I σ → repeatM n body σ = Ok (pop, σ') →
    extends σ σ' ∧ Forall (schedule_inv self σ') pop.
Proof.
  intros Hmono Hbody. induction n as [|n IH]; intros σ pop σ' HI H.
  - injection H as <- <-. split; [apply extends_refl | constructor].
  - cbn in H. apply bind_Ok in H as (s & σ1 & Hs & H).
    apply bind_Ok in H as (pop' & σ2 & Hpop & H). injection H as <- <-.
    apply Hbody in Hs as [He1 Hinv]; [|done].
    apply IH in Hpop as [He2 Hall]; [|by eapply Hmono].
    split; [by eapply extends_trans|].
    constructor; [by eapply schedule_inv_mono | done].
Qed.

Lemma initialize_population_inv self σ pop σ' :
  initialize_population self σ = Ok (pop, σ') →
  extends σ σ' ∧ Forall (schedule_inv self σ') pop.
Proof.
  apply (repeatM_inv self _ (λ _, True)); [done| |done].
  intros σ1 s σ2 _. apply random_schedule_inv.
Qed.

Lemma crossover_inv self parent1 parent2 σ child σ' :
  crossover self parent1 parent2 σ = Ok (child, σ') →
  let K := length (activities self) in
  (2 ≤ K)%nat
  ∧ child = length (schedule_objs σ)
  ∧ item_objs σ' = item_objs σ
  ∧ schedule_objs σ' = schedule_objs σ ++
      [Schedule.mk (take (cut_point K σ) (Schedule.items (schedule_objs σ !!! parent1))
                    ++ drop (cut_point K σ) (Schedule.items (schedule_objs σ !!! parent2)))
                   None].
Proof.
  intros H K. destruct (decide (2 ≤ K)%nat) as [HK|HK].
  - rewrite crossover_eq in H by done. injection H as <- <-. by fold K.
  - unfold crossover, random_randint in H. rewrite bool_decide_eq_true_2 in H by lia.
    done.
Qed.

Lemma crossover_keeps_inv self σ parent1 parent2 child σ' :
  schedule_inv self σ parent1 → schedule_inv self σ parent2 →
  crossover self parent1 parent2 σ = Ok (child, σ') →
  extends σ σ' ∧ schedule_inv self σ' child.
Proof.
  intros (Hp1 & Hv1 & Ha1) (Hp2 & Hv2 & Ha2) H.
  apply crossover_inv in H as (HK & -> & Hi & Hs).
  set (C := cut_point (length (activities self)) σ) in *. split.
  { split; [by rewrite Hi|]. rewrite Hs, fmap_app. by apply prefix_app_r. }
  unfold schedule_inv, items_of, valid_refs, deref in *.
  rewrite Hs, Hi, list_lookup_total_middle by done. cbn [Schedule.items].
  split; [rewrite length_app; cbn; lia|]. split.
  - apply Forall_app. split; [by apply Forall_take | by apply Forall_drop].
  - rewrite !fmap_app, !fmap_take, !fmap_drop, Ha1, Ha2. apply take_drop.
Qed.

Lemma mutate_keeps_inv self σ s s' σ' :
  schedule_inv self σ s →
  mutate self s σ = Ok (s', σ') →
  extends σ σ' ∧ schedule_inv self σ' s'.
Proof.
  intros (Hs & Hv & Ha) H.
  apply mutate_frame in H as (Hpre & -> & (refs' & Hsched & Hv') & Hact); [|done].
  split.
  { split; [done|]. rewrite Hsched, fmap_app. by apply prefix_app_r. }
  unfold schedule_inv. rewrite Hact, Ha. split; [|split; [|done]].
  - rewrite Hsched, length_app. cbn. lia.
  - by rewrite Hsched, list_lookup_total_middle.
Qed.

(** *** The invariant along [evolve] *)

Lemma get_fitness_same self σ f σ' :
  get_fitness self σ = Ok (f, σ') → same_objects σ σ'.
Proof.
  unfold get_fitness. intros H.
  apply bind_Ok in H as (o & σ0 & Ho & H). injection Ho as <- <-.
  destruct (Schedule._fitness _).
  - injection H as _ <-. apply same_objects_refl.
  - apply bind_Ok in H as (f' & σ1 & Hf & H). injection Hf as <- <-.
    apply bind_Ok in H as (u & σ2 & Hu & H). injection Hu as _ <-.
    injection H as _ <-. split; [done|]. cbn.
    apply list_eq. intros i. rewrite !list_lookup_fmap, list_lookup_alter.
    case_decide; [subst i|done]. by destruct (schedule_objs σ !! self).
Qed.

Lemma mapM_same {A B} (f : A → M B) (l : list A) :
  (∀ x σ y σ', f x σ = Ok (y, σ') → same_objects σ σ') →
  ∀ σ ys σ', mapM f l σ = Ok (ys, σ') → same_objects σ σ'.
Proof.
  intros Hf. induction l as [|x l IH]; intros σ ys σ' H.
  - injection H as _ <-. apply same_objects_refl.
  - rewrite mapM_cons in H. apply bind_Ok in H as (y & σ1 & Hy & H).
    apply bind_Ok in H as (ys' & σ2 & Hys & H). injection H as _ <-.
    eapply same_objects_trans; [by eapply Hf | by eapply IH].
Qed.

Lemma with_fitness_inv s σ p σ' :
  with_fitness s σ = Ok (p, σ') → same_objects σ σ' ∧ p.1 = s.
Proof.
  unfold with_fitness. intros H. apply bind_Ok in H as (f & σ1 & Hf & H).
  injection H as <- <-. split; [by eapply get_fitness_same | done].
Qed.

Lemma keyed_inv l : ∀ σ keyed σ',
  mapM with_fitness l σ = Ok (keyed, σ') → same_objects σ σ' ∧ keyed.*1 = l.
Proof.
  induction l as [|s l IH]; intros σ keyed σ' H.
  - injection H as <- <-. split; [apply same_objects_refl | done].
  - rewrite mapM_cons in H. apply bind_Ok in H as (p & σ1 & Hp & H).
    apply bind_Ok in H as (ps & σ2 & Hps & H). injection H as <- <-.
    apply with_fitness_inv in Hp as [H1 <-]. apply IH in Hps as [H2 <-].
    split; [by eapply same_objects_trans | done].
Qed.

Lemma py_max_by_inv {A} (l : list (A * float)) σ x σ' :
  py_max_by l σ = Ok (x, σ') → σ' = σ ∧ x ∈ l.*1.
Proof.
  destruct l as [|p l]; [done|]. intros H. injection H as <- <-. split; [done|].
  apply list_elem_of_fmap_2. revert p.
  induction l as [|q l IH]; intros p; [left|]. cbn [foldl].
  destruct (PrimFloat.ltb p.2 q.2).
  - right. apply IH.
  - specialize (IH p). apply elem_of_cons in IH as [->|IH]; [left | by do 2 right].
Qed.

Lemma same_objects_drawn σ : same_objects σ (drawn σ).
Proof. by split. Qed.

Lemma sample_pool_inv {A} k : ∀ (pool : list A) σ xs σ',
  sample_pool pool k σ = Ok (xs, σ') → same_objects σ σ' ∧ Forall (λ x, x ∈ pool) xs.
Proof.
  induction k as [|k IH]; intros pool σ xs σ' H.
  - injection H as <- <-. split; [apply same_objects_refl | constructor].
  - cbn [sample_pool] in H. apply bind_Ok in H as (j & σ1 & Hj & H).
    rewrite randbelow_eq in Hj. injection Hj as <- <-.
    destruct (pool !! _) as [x|] eqn:Hx; [|done].
    destruct (last pool) as [y|] eqn:Hy; [|done].
    apply bind_Ok in H as (rest & σ2 & Hrest & H). injection H as <- <-.
    apply IH in Hrest as [Hsame Hall]. split.
    + eapply same_objects_trans; [apply same_objects_drawn | done].
    + constructor; [by eapply list_elem_of_lookup_2|].
      eapply Forall_impl; [exact Hall|]. cbn. intros z Hz.
      apply elem_of_take in Hz as (i & Hz & _).
      apply list_lookup_insert_Some in Hz as [(_ & <- & _)|[_ Hz]].
      * by apply last_Some_elem_of.
      * by eapply list_elem_of_lookup_2.
Qed.

Lemma select_parent_inv self population σ s σ' :
  select_parent self population σ = Ok (s, σ') → same_objects σ σ' ∧ s ∈ population.
Proof.
  unfold select_parent, random_sample. intros H.
  apply bind_Ok in H as (tournament & σ1 & Ht & H).
  case_bool_decide; [done|]. apply sample_pool_inv in Ht as [H1 Hin].
  apply bind_Ok in H as (keyed & σ2 & Hk & H). apply keyed_inv in Hk as [H2 Hfst].
  apply py_max_by_inv in H as [-> Hs]. rewrite Hfst in Hs. split.
  - by eapply same_objects_trans.
  - rewrite Forall_forall in Hin. by apply Hin.
Qed.

Lemma offspring_inv self σ child σ' :
  population_inv self σ →
  offspring self σ = Ok (child, σ') →
  extends σ σ' ∧ schedule_inv self σ' child.
Proof.
  unfold offspring, population_inv. rewrite Forall_forall. intros Hpop H.
  apply bind_Ok in H as (p1 & σ1 & Hp1 & H).
  apply select_parent_inv in Hp1 as [H1%same_objects_extends Hin1].
  apply bind_Ok in H as (p2 & σ2 & Hp2 & H).
  apply select_parent_inv in Hp2 as [H2%same_objects_extends Hin2].
  apply bind_Ok in H as (c & σ3 & Hc & H).
  apply crossover_keeps_inv in Hc as [H3 Hinv].
  - apply mutate_keeps_inv in H as [H4 Hinv']; [|done]. split; [|done].
    eauto using extends_trans.
  - eapply schedule_inv_mono; [exact (extends_trans _ _ _ H1 H2) | by apply Hpop].
  - eapply schedule_inv_mono; [exact (extends_trans _ _ _ H1 H2) | by apply Hpop].
Qed.

Lemma population_inv_mono self σ σ' :
  extends σ σ' → population_inv self σ → population_inv self σ'.
Proof.
  intros Hext Hpop. unfold population_inv. eapply Forall_impl; [exact Hpop|].
  intros s. by apply schedule_inv_mono.
Qed.

Lemma evaluate_same self σ r σ' :
  evaluate self σ = Ok (r, σ') → same_objects σ σ'.
Proof.
  unfold evaluate. intros H.
  apply bind_Ok in H as (fs & σ1 & Hfs & H).
  apply (mapM_same get_fitness) in Hfs; [|by intros; eapply get_fitness_same].
  apply bind_Ok in H as (avg & σ2 & Havg & H).
  unfold py_truediv in Havg. destruct (PrimFloat.eqb _ _); [done|].
  injection Havg as _ <-.
  apply bind_Ok in H as (best & σ3 & Hbest & H).
  apply py_max_by_inv in Hbest as [-> _]. by injection H as _ <-.
Qed.

Lemma converged_state history threshold σ b σ' :
  converged history threshold σ = Ok (b, σ') → σ' = σ.
Proof.
  unfold converged, py_index_from_end, py_truediv. intros H.
  apply bind_Ok in H as (x & σ1 & Hx & H).
  destruct (if bool_decide _ then _ else _); [|done]. injection Hx as _ <-.
  apply bind_Ok in H as (y & σ2 & Hy & H).
  destruct (if bool_decide _ then _ else _); [|done]. injection Hy as _ <-.
  apply bind_Ok in H as (z & σ3 & Hz & H).
  destruct (PrimFloat.eqb _ _); [done|]. injection Hz as _ <-. by injection H as _ <-.
Qed.

Lemma generation_inv threshold gen st σ st' stop σ' :
  population_inv (self_ st) σ →
  generation threshold gen st σ = Ok ((st', stop), σ') →
  extends σ σ' ∧ population_inv (self_ st') σ'
  ∧ activities (self_ st') = activities (self_ st).
Proof.
  unfold generation. intros Hpop H.
  apply bind_Ok in H as ([avg best] & σ1 & Heval & H).
  apply evaluate_same, same_objects_extends in Heval.
  apply bind_Ok in H as (b & σ2 & Hb & H).
  assert (σ2 = σ1) as ->.
  { case_bool_decide; [by eapply converged_state | by injection Hb as _ <-]. }
  destruct b.
  - injection H as <- _ <-. split; [done|]. split; [by eapply population_inv_mono | done].
  - apply bind_Ok in H as (new_population & σ3 & Hnew & H). injection H as <- _ <-.
    apply (repeatM_inv (self_ st) _ (population_inv (self_ st))) in Hnew
      as [Hext Hall].
    + split; [by eapply extends_trans|]. split; [|done].
      unfold population_inv. cbn [population with_population self_].
      eapply Forall_impl; [exact Hall|]. intros s.
      by apply schedule_inv_activities.
    + intros ??. apply population_inv_mono.
    + intros ???. apply offspring_inv.
    + by eapply population_inv_mono.
Qed.

Lemma generations_from_inv threshold n : ∀ gen st σ st' σ',
  population_inv (self_ st) σ →
  generations_from threshold n gen st σ = Ok (st', σ') →
  extends σ σ' ∧ population_inv (self_ st') σ'
  ∧ activities (self_ st') = activities (self_ st).
Proof.
  induction n as [|n IH]; intros gen st σ st' σ' Hpop H.
  - injection H as <- <-. split; [apply extends_refl | done].
  - cbn [generations_from] in H. apply bind_Ok in H as ([st1 stop] & σ1 & Hgen & H).
    apply generation_inv in Hgen as (He1 & Hpop1 & Hact1); [|done].
    destruct stop.
    + injection H as <- <-. done.
    + apply IH in H as (He2 & Hpop2 & Hact2); [|done].
      split; [by eapply extends_trans|]. split; [done | congruence].
Qed.

Lemma evolve_inv self generations threshold σ best ga σ' :
  population_inv self σ →
  evolve self generations threshold σ = Ok ((best, ga), σ') →
  schedule_inv self σ' best ∧ Forall (schedule_inv self σ') (population ga).
Proof.
  unfold evolve, evolve_loop. intros Hpop H.
  apply bind_Ok in H as (st & σ1 & Hloop & H).
  apply generations_from_inv in Hloop as (He1 & Hpop1 & Hact); [|done].
  cbn [self_] in Hact.
  apply bind_Ok in H as (keyed & σ2 & Hk & H).
  apply keyed_inv in Hk as [Hsame Hfst]. apply same_objects_extends in Hsame.
  apply bind_Ok in H as (b & σ3 & Hb & H). apply py_max_by_inv in Hb as [-> Hin].
  injection H as <- <- <-. rewrite Hfst in Hin.
  assert (Forall (schedule_inv self σ2) (population (self_ st))) as Hall.
  { eapply Forall_impl; [exact (population_inv_mono _ _ _ Hsame Hpop1)|].
    intros s. by apply schedule_inv_activities. }
  split; [|done]. rewrite Forall_forall in Hall. by apply Hall.
Qed.

(** C7: the schedules that [initialize_population] returns, the child
    that [crossover] makes of two schedules with the property, and the
    schedule that [mutate] makes of one with the property all have one item
    for each activity of the engine's list, in the order of the list: the
    item at position [i] has the activity at position [i], and the list of
    items is as long as the list of activities.  So has every schedule of
    the last population of [evolve], run on the engine that the constructor
    returns, and the schedule that [evolve] returns. *)
Theorem schedules_track_activities (self : t) :
  (∀ σ population σ',
     initialize_population self σ = Ok (population, σ') →
     Forall (schedule_inv self σ') population)
  ∧ (∀ σ parent1 parent2 child σ',
       schedule_inv self σ parent1 → schedule_inv self σ parent2 →
       crossover self parent1 parent2 σ = Ok (child, σ') →
       schedule_inv self σ' child)
  ∧ (∀ σ schedule mutated σ',
       schedule_inv self σ schedule →
       mutate self schedule σ = Ok (mutated, σ') →
       schedule_inv self σ' mutated)
  ∧ (∀ σ ga σ1 generations improvement_threshold best ga' σ2,
       init (activities self) (rooms self) (time_slots self) (facilitators self)
            (population_size self) (mutation_rate self) σ = Ok (ga, σ1) →
       evolve ga generations improvement_threshold σ1 = Ok ((best, ga'), σ2) →
       schedule_inv self σ2 best ∧ Forall (schedule_inv self σ2) (population ga')).
Proof.
  split; [|split; [|split]].
  - intros σ population σ' H. by eapply initialize_population_inv.
  - intros σ p1 p2 child σ' Hp1 Hp2 H.
    exact (proj2 (crossover_keeps_inv _ _ _ _ _ _ Hp1 Hp2 H)).
  - intros σ s s' σ' Hs H. exact (proj2 (mutate_keeps_inv _ _ _ _ _ Hs H)).
  - intros σ ga σ1 generations threshold best ga' σ2 Hinit H.
    unfold init in Hinit. apply bind_Ok in Hinit as (pop & σ0 & Hpop & Hinit).
    injection Hinit as <- <-. apply initialize_population_inv in Hpop as [_ Hpop].
    apply evolve_inv in H.
    + destruct H as [Hbest Hall]. split.
      * revert Hbest. by apply schedule_inv_activities.
      * eapply Forall_impl; [exact Hall|]. intros s. by apply schedule_inv_activities.
    + unfold population_inv. cbn [population with_population].
      eapply Forall_impl; [exact Hpop|]. intros s. by apply schedule_inv_activities.
Qed.

(** *** [mutate] on a schedule of distinct item objects *)

Lemma facet_change_one self g x :
  facet_change self g → activity (g x) = activity x ∧ (facets_changed x (g x) ≤ 1)%nat.
Proof.
  destruct 1; (split; [done|]); unfold facets_changed; cbn;
    repeat (destruct (decide _); try done); lia.
Qed.

Section MutateEach.
Context (self : t) (P : (item → item) → Prop).
Hypothesis step_P : ∀ (x : float) (g : item → item),
  (if PrimFloat.ltb (Random.unit_interval x) (mutation_rate self)
   then facet_change self g else g = id) → P g.

Lemma mutate_each s σ s' σ' :
  valid_refs σ (Schedule.items (schedule_objs σ !!! s)) →
  NoDup (Schedule.items (schedule_objs σ !!! s)) →
  mutate self s σ = Ok (s', σ') →
  Forall2 (λ x y, ∃ g, P g ∧ y = g x) (items_of σ s) (items_of σ' s').
Proof using step_P.
  intros Hvalid Hnd H. set (refs := Schedule.items (schedule_objs σ !!! s)) in *.
  apply mutate_inv in H as (refs' & σ1 & σ2 & us & Hcopy & Hloop & -> & ->).
  fold refs in Hcopy. rewrite deepcopy_items_fresh in Hcopy by done.
  injection Hcopy as <- <-.
  pose proof (mutate_loop_frame _ 0 _ _ _ _ Hloop) as (_ & _ & _ & Hsched);
    [apply Forall_true; lia|]. cbn in Hsched.
  apply (mutate_loop_each self P step_P) in Hloop as [_ Hin]; [|apply NoDup_seq].
  unfold items_of at 2. cbn [schedule_objs item_objs].
  rewrite list_lookup_total_middle by done. cbn [Schedule.items].
  apply Forall2_same_length_lookup. split.
  { unfold items_of, deref. fold refs. by rewrite !length_fmap, length_seq. }
  intros i x y Hx Hy. unfold deref in Hy. cbn [item_objs] in Hy.
  apply list_lookup_fmap_Some in Hy as (l & -> & Hl).
  apply lookup_seq in Hl as [-> Hi].
  destruct (Hin (length (item_objs σ) + i)%nat) as (g & HP & Hg).
  { apply elem_of_seq. lia. }
  exists g. split; [done|]. cbn [item_objs] in Hg.
  rewrite lookup_app_r in Hg by lia.
  replace (length (item_objs σ) + i - length (item_objs σ))%nat with i in Hg by lia.
  unfold items_of in Hx. fold refs in Hx. rewrite Hx in Hg. cbn in Hg.
  by apply list_lookup_total_correct.
Qed.
End MutateEach.

Lemma mutate_loop_rate_zero self ls :
  PrimFloat.eqb (mutation_rate self) 0 = true →
  ∀ σ, ∃ us σ', mapM (mutate_item self) ls σ = Ok (us, σ')
                ∧ item_objs σ' = item_objs σ ∧ schedule_objs σ' = schedule_objs σ.
Proof.
  intros Hrate. induction ls as [|l ls IH]; intros σ.
  - by exists [], σ.
  - destruct (IH (drawn σ)) as (us & σ' & E & Hi & Hs).
    exists (tt :: us), σ'. split; [|done]. rewrite mapM_cons.
    assert (mutate_item self l σ = Ok (tt, drawn σ)) as Hl.
    { unfold mutate_item. erewrite bind_eq by apply random_random_eq.
      cbn. by rewrite unit_interval_not_lt_zero. }
    erewrite bind_eq by exact Hl. by erewrite bind_eq by exact E.
Qed.

(** *** [mutate] with a mutation rate of 1: the values assigned *)

Lemma random_choice_oracle {A} (seq : list A) σ x σ' :
  random_choice seq σ = Ok (x, σ') →
  choice_of seq (rng σ) = Some x ∧ x ∈ seq ∧ σ' = drawn σ.
Proof.
  intros H. pose proof (random_choice_Ok _ _ _ _ H) as [Hin ->].
  split; [|done]. destruct seq as [|y seq]; [done|].
  unfold choice_of, run. unfold random_choice in *.
  rewrite (bind_eq _ _ _ _ _ (randbelow_eq _ _)) in H.
  rewrite (bind_eq _ _ _ _ _ (randbelow_eq _ _)). cbn [rng] in *.
  destruct ((y :: seq) !! _); [|done]. by injection H as ->.
Qed.

Lemma mutate_item_rate_one self l σ u σ' :
  mutation_rate self = 1%float →
  mutate_item self l σ = Ok (u, σ') →
  ∃ g, assignment self (rng σ) = Some g
       ∧ facet_change self g
       ∧ item_objs σ' = alter g l (item_objs σ)
       ∧ schedule_objs σ' = schedule_objs σ
       ∧ rng σ' = Nat.iter 3 Random.advance (rng σ).
Proof.
  intros Hrate H. unfold mutate_item in H.
  apply bind_Ok in H as (x & σ1 & Hx & H).
  rewrite random_random_eq in Hx. injection Hx as <- <-.
  rewrite Hrate, unit_interval_lt_one in H.
  apply bind_Ok in H as (ty & σ2 & Hty & H).
  apply random_choice_oracle in Hty as (Hty & _ & ->).
  unfold assignment. cbn [rng drawn] in Hty. rewrite Hty.
  repeat case_bool_decide;
    apply bind_Ok in H as (v & σ3 & Hv & H);
    apply random_choice_oracle in Hv as (Hv & Hin & ->);
    cbn [rng drawn] in Hv; rewrite Hv;
    injection H as _ <-; eexists; (split; [reflexivity|]);
    (split; [by constructor|]); done.
Qed.

(** The loop over new objects stored in a row: the turn of the object of
    index [i] starts after [3 * i] draws. *)
Lemma mutate_loop_rate_one self :
  mutation_rate self = 1%float →
  ∀ len n0 σ us σ',
    mapM (mutate_item self) (seq n0 len) σ = Ok (us, σ') →
    ∀ i, (i < len)%nat →
      ∃ g, assignment self (Nat.iter (3 * i) Random.advance (rng σ)) = Some g
           ∧ facet_change self g
           ∧ item_objs σ' !! (n0 + i)%nat = g <$> item_objs σ !! (n0 + i)%nat.
Proof.
  intros Hrate. induction len as [|len IH]; intros n0 σ us σ' H i Hi; [lia|].
  cbn [seq] in H. rewrite mapM_cons in H.
  apply bind_Ok in H as (u & σ1 & Hu & H).
  apply bind_Ok in H as (us' & σ2 & Hus & H). injection H as <- <-.
  apply (mutate_item_rate_one _ _ _ _ _ Hrate) in Hu as (g0 & Hg0 & Hf0 & Hi1 & _ & Hr1).
  destruct i as [|i].
  - exists g0. rewrite Nat.add_0_r. cbn [Nat.mul Nat.iter]. split; [done|]. split; [done|].
    apply (mutate_loop_each self (λ _, True)) in Hus as [Hout _];
      [|done|apply NoDup_seq].
    rewrite Hout, Hi1; [apply list_lookup_alter_eq|]. rewrite elem_of_seq. lia.
  - destruct (IH (S n0) σ1 us' σ2 Hus i) as (g & Hg & Hf & Hl); [lia|].
    exists g. split; [|split; [done|]].
    + rewrite Hr1, <- Nat.iter_add in Hg.
      by replace (3 * S i)%nat with (3 * i + 3)%nat by lia.
    + replace (n0 + S i)%nat with (S n0 + i)%nat by lia.
      rewrite Hl, Hi1. f_equal. apply list_lookup_alter_ne. lia.
Qed.

Lemma mutate_rate_one self s σ s' σ' :
  mutation_rate self = 1%float →
  valid_refs σ (Schedule.items (schedule_objs σ !!! s)) →
  NoDup (Schedule.items (schedule_objs σ !!! s)) →
  mutate self s σ = Ok (s', σ') →
  ∀ i x y,
    items_of σ s !! i = Some x → items_of σ' s' !! i = Some y →
    ∃ g, assignment self (Nat.iter (3 * i) Random.advance (rng σ)) = Some g
         ∧ facet_change self g ∧ y = g x.
Proof.
  intros Hrate Hvalid Hnd H i x y Hx Hy.
  set (refs := Schedule.items (schedule_objs σ !!! s)) in *.
  apply mutate_inv in H as (refs' & σ1 & σ2 & us & Hcopy & Hloop & -> & ->).
  fold refs in Hcopy. rewrite deepcopy_items_fresh in Hcopy by done.
  injection Hcopy as <- <-.
  pose proof (mutate_loop_frame _ 0 _ _ _ _ Hloop) as (_ & _ & _ & Hsched);
    [apply Forall_true; lia|]. cbn in Hsched.
  unfold items_of in Hy. cbn [schedule_objs item_objs] in Hy.
  rewrite list_lookup_total_middle in Hy by done. cbn [Schedule.items] in Hy.
  unfold deref in Hy. cbn [item_objs] in Hy.
  apply list_lookup_fmap_Some in Hy as (l & -> & Hl).
  apply lookup_seq in Hl as [-> Hi].
  destruct (mutate_loop_rate_one self Hrate _ _ _ _ _ Hloop i Hi) as (g & Hg & Hf & Hobj).
  exists g. split; [done|]. split; [done|]. cbn [item_objs rng] in Hobj.
  rewrite lookup_app_r in Hobj by lia.
  replace (length (item_objs σ) + i - length (item_objs σ))%nat with i in Hobj by lia.
  unfold items_of in Hx. fold refs in Hx. rewrite Hx in Hobj. cbn in Hobj.
  by apply list_lookup_total_correct.
Qed.

(** *** [mutate] with a mutation rate of zero *)

Lemma mutate_rate_zero self s σ :
  PrimFloat.eqb (mutation_rate self) 0 = true →
  valid_refs σ (Schedule.items (schedule_objs σ !!! s)) →
  ∃ s' σ', mutate self s σ = Ok (s', σ') ∧ items_of σ' s' = items_of σ s.
Proof.
  intros Hrate Hvalid. set (refs := Schedule.items (schedule_objs σ !!! s)) in *.
  destruct (deepcopy_items_spec (length (item_objs σ)) refs ∅ σ)
    as (refs' & extra & Hcopy & HF);
    [done|done|intros l l' Hl; by rewrite lookup_empty in Hl|].
  set (σ1 := mkState (item_objs σ ++ extra) (schedule_objs σ) (rng σ)) in *.
  destruct (mutate_loop_rate_zero self refs' Hrate σ1) as (us & σ2 & Hloop & Hi & Hsched).
  exists (length (schedule_objs σ2)),
    (mkState (item_objs σ2) (schedule_objs σ2 ++ [Schedule.mk refs' None]) (rng σ2)).
  split.
  - unfold mutate. erewrite bind_eq by reflexivity. cbv beta. fold refs.
    erewrite bind_eq by exact Hcopy. by erewrite bind_eq by exact Hloop.
  - unfold items_of. cbn [schedule_objs item_objs].
    rewrite list_lookup_total_middle by done. cbn [Schedule.items]. fold refs.
    unfold deref. cbn [item_objs]. rewrite Hi. cbn [item_objs σ1].
    clear -HF. induction HF as [|l l' ?? (_ & _ & Hl) _ IH]; [done|].
    cbn. rewrite IH. f_equal. by rewrite !list_lookup_total_alt, Hl.
Qed.

(** C9 as the code has it.  [mutate] writes to its own copies, so the
    items of the input are as before, and the result has an item for each
    item of the input, with its activity.  With a mutation rate of zero
    [mutate] returns a schedule of equal items.  For a schedule whose items
    are distinct objects, every item of the result differs from the item it
    copies in at most one of room, time slot and facilitator, and with a
    mutation rate of 1 every item has exactly one facet assigned: the facet
    and the value that [random.choice] draws in the turn of the item, the
    value being one of the domain of the facet. *)
Theorem mutate_copy_one_facet (self : t) (schedule : nat) (σ : State) :
  (schedule < length (schedule_objs σ))%nat →
  valid_refs σ (Schedule.items (schedule_objs σ !!! schedule)) →
  (∀ mutated σ',
     mutate self schedule σ = Ok (mutated, σ') →
     item_objs σ `prefix_of` item_objs σ'
     ∧ items_of σ' schedule = items_of σ schedule
     ∧ activity <$> items_of σ' mutated = activity <$> items_of σ schedule
     ∧ (NoDup (Schedule.items (schedule_objs σ !!! schedule)) →
        Forall2 (λ x y, activity y = activity x ∧ (facets_changed x y ≤ 1)%nat)
                (items_of σ schedule) (items_of σ' mutated)))
  ∧ (PrimFloat.eqb (mutation_rate self) 0 = true →
     ∃ mutated σ',
       mutate self schedule σ = Ok (mutated, σ')
       ∧ items_of σ' mutated = items_of σ schedule)
  ∧ (mutation_rate self = 1%float →
     NoDup (Schedule.items (schedule_objs σ !!! schedule)) →
     ∀ mutated σ',
       mutate self schedule σ = Ok (mutated, σ') →
       length (items_of σ' mutated) = length (items_of σ schedule)
       ∧ ∀ i x y,
           items_of σ schedule !! i = Some x →
           items_of σ' mutated !! i = Some y →
           ∃ g, assignment self (Nat.iter (3 * i) Random.advance (rng σ)) = Some g
                ∧ facet_change self g ∧ y = g x).
Proof.
  intros Hs Hvalid. split; [|split].
  - intros s' σ' H.
    destruct (mutate_frame _ _ _ _ _ Hvalid H) as (Hpre & Hs' & (refs' & Hsched & _) & Hact).
    split; [done|]. split; [|split; [done|]].
    + unfold items_of. rewrite Hsched, lookup_total_app_l by done.
      by apply deref_prefix.
    + intros Hnd. eapply Forall2_impl.
      * apply (mutate_each self (λ g, g = id ∨ facet_change self g)); [|done..].
        intros x g Hg. destruct (PrimFloat.ltb _ _); auto.
      * cbn. intros x y (g & [->|Hg] & ->).
        -- split; [done|]. unfold facets_changed, id.
           repeat (destruct (decide _); [|done]). cbn. lia.
        -- by eapply facet_change_one.
  - intros Hrate. by apply mutate_rate_zero.
  - intros Hrate Hnd s' σ' H. split.
    + destruct (mutate_frame _ _ _ _ _ Hvalid H) as (_ & _ & _ & Hact).
      by rewrite <- (length_fmap activity), Hact, length_fmap.
    + by apply mutate_rate_one.
Qed.

(** *** Examples *)

Lemma crossover_single_point_witness :
  (2 ≤ length (activities Inputs.small_engine))%nat
  ∧ (0 < length (schedule_objs Inputs.small_state))%nat
  ∧ (1 < length (schedule_objs Inputs.small_state))%nat
  ∧ length (items_of Inputs.small_state 0) = length (activities Inputs.small_engine)
  ∧ length (items_of Inputs.small_state 1) = length (activities Inputs.small_engine)
  ∧ ∃ C child σ',
      crossover Inputs.small_engine 0 1 Inputs.small_state = Ok (child, σ')
      ∧ (1 ≤ C ≤ 10)%nat
      ∧ take C (items_of σ' child) = take C (items_of Inputs.small_state 0)
      ∧ drop C (items_of σ' child) = drop C (items_of Inputs.small_state 1).
Proof.
  assert (2 ≤ length (activities Inputs.small_engine))%nat as HK by (vm_compute; lia).
  assert (0 < length (schedule_objs Inputs.small_state))%nat as H0 by (vm_compute; lia).
  assert (1 < length (schedule_objs Inputs.small_state))%nat as H1 by (vm_compute; lia).
  assert (length (items_of Inputs.small_state 0) = length (activities Inputs.small_engine))
    as Hl0 by (vm_compute; reflexivity).
  assert (length (items_of Inputs.small_state 1) = length (activities Inputs.small_engine))
    as Hl1 by (vm_compute; reflexivity).
  repeat (split; [assumption|]).
  destruct (proj1 (crossover_single_point Inputs.small_engine 0 1 Inputs.small_state
                     HK H0 H1 Hl0 Hl1))
    as (r & C & child & σ' & _ & _ & _ & E & _ & HC & _ & Htake & Hdrop & _).
  exists C, child, σ'. repeat split; try assumption; apply HC.
Defined.

Lemma small_state_valid :
  valid_refs Inputs.small_state (Schedule.items (schedule_objs Inputs.small_state !!! 0%nat)).
Proof. refine (bool_decide_unpack _ _). vm_compute. exact I. Defined.

Lemma small_state_distinct :
  NoDup (Schedule.items (schedule_objs Inputs.small_state !!! 0%nat)).
Proof. refine (bool_decide_unpack _ _). vm_compute. exact I. Defined.

Lemma mutate_copy_one_facet_witness :
  (0 < length (schedule_objs Inputs.small_state))%nat
  ∧ valid_refs Inputs.small_state
      (Schedule.items (schedule_objs Inputs.small_state !!! 0%nat))
  ∧ ∀ mutated σ',
      mutate Inputs.small_engine 0 Inputs.small_state = Ok (mutated, σ') →
      items_of σ' 0 = items_of Inputs.small_state 0
      ∧ Forall2 (λ x y, activity y = activity x ∧ (facets_changed x y ≤ 1)%nat)
                (items_of Inputs.small_state 0) (items_of σ' mutated).
Proof.
  assert (0 < length (schedule_objs Inputs.small_state))%nat as H0 by (vm_compute; lia).
  split; [exact H0|]. split; [exact small_state_valid|]. intros mutated σ' H.
  destruct (proj1 (mutate_copy_one_facet Inputs.small_engine 0 Inputs.small_state H0
                     small_state_valid) mutated σ' H) as (_ & Hsame & _ & Hone).
  split; [exact Hsame | exact (Hone small_state_distinct)].
Defined.

(** C9, counterexamples.  With a mutation rate of 1 and every draw zero,
    [mutate] gives each of the 11 items of a schedule the room it has: no
    facet of any item changes.  And [mutate] of a schedule that holds one
    item object twice visits the one copy twice: both items of the result
    differ from the input in two facets, the room and the time slot. *)
Lemma mutate_redraw_and_aliasing :
  mutation_rate Inputs.eager_engine = 1%float
  ∧ Inputs.facets_changed_by
      (Inputs.before_and_after Inputs.eager_engine Inputs.first_of_population
         (Inputs.replay []))
    = replicate 11 0%nat
  ∧ Inputs.facets_changed_by
      (Inputs.before_and_after Inputs.eager_engine Inputs.twice_the_same
         (Inputs.replay [0; 0; 1; 0; 1; 1]%N))
    = [2; 2]%nat.
Proof. vm_compute. repeat split. Qed.

End EngineFacts.


(** ** Construction and the loop of [evolve] *)

Module RunFacts.
Import GeneticAlgorithm EngineTerms EngineFacts.

(** *** Construction *)

Lemma random_item_total self a σ :
  rooms self ≠ [] → time_slots self ≠ [] → facilitators self ≠ [] →
  ∃ l σ', random_item self a σ = Ok (l, σ').
Proof.
  intros Hr Hts Hf. unfold random_item.
  destruct (random_choice_eq (rooms self) σ Hr) as (r & _ & Er).
  erewrite bind_eq by exact Er.
  destruct (random_choice_eq (time_slots self) (drawn σ) Hts) as (ts & _ & Ets).
  erewrite bind_eq by exact Ets.
  destruct (random_choice_eq (facilitators self) (drawn (drawn σ)) Hf) as (f & _ & Ef).
  erewrite bind_eq by exact Ef. by eexists _, _.
Qed.

Lemma random_item_raises self a σ :
  rooms self = [] ∨ time_slots self = [] ∨ facilitators self = [] →
  random_item self a σ = Raise IndexError.
Proof.
  intros Hempty. unfold random_item.
  destruct (decide (rooms self = [])) as [->|Hr]; [done|].
  destruct (random_choice_eq (rooms self) σ Hr) as (r & _ & Er).
  erewrite bind_eq by exact Er.
  destruct (decide (time_slots self = [])) as [->|Hts]; [done|].
  destruct (random_choice_eq (time_slots self) (drawn σ) Hts) as (ts & _ & Ets).
  erewrite bind_eq by exact Ets.
  destruct Hempty as [?|[?|Hf]]; [done..|]. by rewrite Hf.
Qed.

Lemma mapM_total {A B} (f : A → M B) (l : list A) :
  (l ≠ [] → ∀ x σ, ∃ y σ', f x σ = Ok (y, σ')) →
  ∀ σ, ∃ ys σ', mapM f l σ = Ok (ys, σ').
Proof.
  intros Hf. induction l as [|x l IH]; intros σ; [by exists [], σ|].
  destruct (Hf ltac:(done) x σ) as (y & σ1 & E1).
  destruct l as [|x' l].
  - exists [y], σ1. rewrite mapM_cons. by erewrite bind_eq by exact E1.
  - destruct (IH (λ _, Hf ltac:(done)) σ1) as (ys & σ2 & E2).
    exists (y :: ys), σ2. rewrite mapM_cons. erewrite bind_eq by exact E1.
    by erewrite bind_eq by exact E2.
Qed.

Lemma repeatM_total {A} (body : M A) (n : nat) :
  (∀ σ, ∃ y σ', body σ = Ok (y, σ')) →
  ∀ σ, ∃ ys σ', repeatM n body σ = Ok (ys, σ') ∧ length ys = n.
Proof.
  intros Hbody. induction n as [|n IH]; intros σ; [by exists [], σ|].
  destruct (Hbody σ) as (y & σ1 & E1). destruct (IH σ1) as (ys & σ2 & E2 & Hlen).
  exists (y :: ys), σ2. cbn [repeatM]. erewrite bind_eq by exact E1.
  erewrite bind_eq by exact E2. split; [done|]. cbn. by rewrite Hlen.
Qed.

(** C3 as the code has it: the constructor raises, with [IndexError],
    exactly when it has a draw to make from an empty list: the population
    size is at least 1, there is an activity, and the list of rooms, of
    time slots or of facilitators is empty.  In every other case - no
    activity, a population size of zero or less, or below the tournament
    size, any mutation rate - the constructor returns an engine with the
    arguments it was given and [population_size] schedules (none for a
    negative size). *)
Theorem init_raises_iff_draw_from_empty
    (activities : list Activity.t) (rooms : list Room.t)
    (time_slots : list TimeSlot.t) (facilitators : list string)
    (population_size : Z) (mutation_rate : float) (σ : State) :
  let draws := 1 ≤ population_size ∧ activities ≠ [] in
  let empty_domain := rooms = [] ∨ time_slots = [] ∨ facilitators = [] in
  (draws ∧ empty_domain →
   init activities rooms time_slots facilitators population_size mutation_rate σ
     = Raise IndexError)
  ∧ (¬ (draws ∧ empty_domain) →
     ∃ population σ',
       init activities rooms time_slots facilitators population_size mutation_rate σ
         = Ok (mk activities rooms time_slots facilitators
                  population_size mutation_rate population, σ')
       ∧ length population = Z.to_nat population_size).
Proof.
  intros draws empty_domain.
  set (self := mk activities rooms time_slots facilitators
                  population_size mutation_rate []).
  split.
  - intros [[Hsize Hact] Hempty]. unfold init. fold self.
    apply bind_Raise. unfold initialize_population. cbn [GeneticAlgorithm.population_size self].
    destruct (Z.to_nat population_size) as [|n] eqn:En; [lia|].
    cbn [repeatM]. apply bind_Raise. unfold random_schedule. apply bind_Raise.
    cbn [GeneticAlgorithm.activities self].
    destruct activities as [|a acts]; [done|]. rewrite mapM_cons.
    apply bind_Raise. by apply random_item_raises.
  - intros Hok. unfold init. fold self. unfold initialize_population.
    cbn [GeneticAlgorithm.population_size self].
    assert (∃ population σ',
              repeatM (Z.to_nat population_size) (random_schedule self) σ
                = Ok (population, σ')
              ∧ length population = Z.to_nat population_size)
      as (pop & σ' & E & Hlen).
    { destruct (decide (1 ≤ population_size)) as [Hsize|Hsize];
        [|replace (Z.to_nat population_size) with 0%nat by lia; by exists [], σ].
      apply repeatM_total. intros σ0. unfold random_schedule.
      destruct (mapM_total (random_item self) activities) with (σ := σ0)
        as (ls & σ1 & Els).
      - intros Hact a σ1.
        apply random_item_total; cbn; intros E; apply Hok;
          unfold draws, empty_domain; auto.
      - cbn [GeneticAlgorithm.activities self]. erewrite bind_eq by exact Els.
        by eexists _, _. }
    exists pop, σ'. by erewrite bind_eq by exact E.
Qed.


(** *** The convergence test *)

Lemma eqb_abs_zero r : PrimFloat.eqb (PrimFloat.abs r) 0 = PrimFloat.eqb r 0.
Proof.
  rewrite !FloatAxioms.eqb_spec, FloatAxioms.abs_spec.
  change (Prim2SF 0) with (S754_zero false).
  by destruct (Prim2SF r) as [[]|[]| |[] ? ?].
Qed.

Lemma py_index_from_end_eq {A} (l : list A) (k : nat) (x : A) σ :
  (k ≤ length l)%nat → l !! (length l - k)%nat = Some x →
  py_index_from_end l k σ = Ok (x, σ).
Proof.
  intros Hk Hx. unfold py_index_from_end.
  by rewrite bool_decide_eq_true_2, Hx by done.
Qed.

(** The test on a history of at least 100 entries: the reference is the
    entry 100 places from the end, counting the latest as the first. *)
Lemma converged_eq history latest reference threshold σ :
  (100 ≤ length history)%nat →
  last history = Some latest →
  history !! (length history - 100)%nat = Some reference →
  converged history threshold σ =
    if PrimFloat.eqb reference 0 then Raise ZeroDivisionError
    else Ok (PrimFloat.ltb ((latest - reference) / PrimFloat.abs reference) threshold, σ).
Proof.
  intros Hlen Hlast Href. unfold converged.
  erewrite bind_eq; cycle 1.
  { apply py_index_from_end_eq; [lia|]. by rewrite <- Hlast, last_lookup, Nat.sub_1_r. }
  erewrite bind_eq by (by apply py_index_from_end_eq).
  unfold py_truediv. rewrite eqb_abs_zero. by destruct (PrimFloat.eqb reference 0).
Qed.

(** C2 as the code has it.  In a turn of the loop of [evolve] with index
    [gen >= 100], the history holding one average for each earlier turn:
    when the average that the test divides by, [avg_fitness_history[-100]],
    is zero, the turn raises [ZeroDivisionError] and so does the loop;
    when it is not zero the test raises nothing and gives the comparison of
    the quotient with the threshold. *)
Theorem convergence_test_zero_reference
    (threshold : float) (n : nat) (gen : Z) (st : loop) (σ : State)
    (avg best reference : float) :
  100 ≤ gen →
  length (avg_fitness_history st) = Z.to_nat gen →
  value (evaluate (self_ st) σ) = Some (avg, best) →
  (avg_fitness_history st ++ [avg]) !! (Z.to_nat gen - 99)%nat = Some reference →
  (PrimFloat.eqb reference 0 = true →
     generation threshold gen st σ = Raise ZeroDivisionError
     ∧ generations_from threshold (S n) gen st σ = Raise ZeroDivisionError)
  ∧ (PrimFloat.eqb reference 0 = false →
     ∀ σ', converged (avg_fitness_history st ++ [avg]) threshold σ'
           = Ok (PrimFloat.ltb ((avg - reference) / PrimFloat.abs reference) threshold,
                 σ')).
Proof.
  intros Hgen Hlen Heval Href.
  assert (∀ σ', converged (avg_fitness_history st ++ [avg]) threshold σ' =
            if PrimFloat.eqb reference 0 then Raise ZeroDivisionError
            else Ok (PrimFloat.ltb ((avg - reference) / PrimFloat.abs reference)
                       threshold, σ')) as Hconv.
  { intros σ'. apply converged_eq.
    - rewrite length_app, Hlen. cbn. lia.
    - by rewrite last_snoc.
    - rewrite length_app, Hlen. cbn [length].
      by replace (Z.to_nat gen + 1 - 100)%nat with (Z.to_nat gen - 99)%nat by lia. }
  split; intros Hzero; rewrite Hzero in Hconv; [|done].
  destruct (evaluate (self_ st) σ) as [[[avg' best'] σ1]|e] eqn:E; [|done].
  injection Heval as -> ->.
  assert (generation threshold gen st σ = Raise ZeroDivisionError) as Hturn.
  { unfold generation. erewrite bind_eq by exact E. cbv beta iota.
    apply bind_Raise. rewrite bool_decide_eq_true_2 by lia. apply Hconv. }
  split; [done|]. cbn [generations_from]. by apply bind_Raise.
Qed.

(** *** Examples *)

(** C3, counterexamples.  The constructor returns for an empty activity
    list, for a population size of zero and for a negative one (also with no
    room to choose from), for a mutation rate of 7.5 and for a population of
    3, below the tournament size.  The errors come in the run: [evolve]
    raises [ValueError] from [random.sample] for the population of 3 and
    from [randint] for the empty activity list, and [ZeroDivisionError] from
    the average for the empty population. *)
Lemma init_accepts_bad_configurations :
  outcome (run (init [] Data.rooms Data.time_slots Data.facilitators 500 0.01%float)
               Inputs.counting) = None
  ∧ outcome (run (init Data.activities Data.rooms Data.time_slots Data.facilitators
                       0 0.01%float) Inputs.counting) = None
  ∧ outcome (run (init Data.activities [] Data.time_slots Data.facilitators
                       (-3) 0.01%float) Inputs.counting) = None
  ∧ outcome (run (init Data.activities Data.rooms Data.time_slots Data.facilitators
                       5 7.5%float) Inputs.counting) = None
  ∧ outcome (run (init Data.activities Data.rooms Data.time_slots Data.facilitators
                       3 0.01%float) Inputs.counting) = None
  ∧ outcome (run (ga ← init Data.activities Data.rooms Data.time_slots Data.facilitators
                            3 0.01%float;
                  evolve ga 10 0.01%float) Inputs.counting) = Some ValueError
  ∧ outcome (run (ga ← init [] Data.rooms Data.time_slots Data.facilitators 5 0.01%float;
                  evolve ga 10 0.01%float) Inputs.counting) = Some ValueError
  ∧ outcome (run (ga ← init Data.activities Data.rooms Data.time_slots Data.facilitators
                            0 0.01%float;
                  evolve ga 10 0.01%float) Inputs.counting) = Some ZeroDivisionError.
Proof. vm_compute. repeat split. Qed.

Lemma flat_history :
  avg_fitness_history Inputs.flat_turn = replicate 100 0%float.
Proof. vm_compute. reflexivity. Qed.

(** C2, counterexample: an engine whose schedules all have fitness 0.0.
    [evolve] returns for 100 generations, every average being 0.0, and with
    101 generations the convergence test of generation 100 raises
    [ZeroDivisionError], which ends [evolve]. *)
Lemma evolve_raises_on_zero_average :
  outcome (Inputs.flat_evolve 100) = None
  ∧ avg_fitness_history Inputs.flat_turn = replicate 100 0%float
  ∧ outcome (Inputs.flat_evolve 101) = Some ZeroDivisionError.
Proof.
  split; [vm_compute; reflexivity|]. split; [exact flat_history|].
  vm_compute. reflexivity.
Qed.

Lemma convergence_test_zero_reference_witness :
  100 ≤ 100
  ∧ length (avg_fitness_history Inputs.flat_turn) = Z.to_nat 100
  ∧ value (evaluate (self_ Inputs.flat_turn) Inputs.flat_state) = Some (0%float, 0%float)
  ∧ (avg_fitness_history Inputs.flat_turn ++ [0%float]) !! (Z.to_nat 100 - 99)%nat
    = Some 0%float
  ∧ generation 0.01%float 100 Inputs.flat_turn Inputs.flat_state
    = Raise ZeroDivisionError.
Proof.
  assert (length (avg_fitness_history Inputs.flat_turn) = Z.to_nat 100) as Hlen
    by (rewrite flat_history; reflexivity).
  assert (value (evaluate (self_ Inputs.flat_turn) Inputs.flat_state)
          = Some (0%float, 0%float)) as Heval
    by (vm_compute; reflexivity).
  assert ((avg_fitness_history Inputs.flat_turn ++ [0%float]) !! (Z.to_nat 100 - 99)%nat
          = Some 0%float) as Href
    by (rewrite flat_history; reflexivity).
  split; [lia|]. split; [exact Hlen|]. split; [exact Heval|]. split; [exact Href|].
  exact (proj1 (proj1 (convergence_test_zero_reference 0.01%float 0 100
                         Inputs.flat_turn Inputs.flat_state
                         0%float 0%float 0%float ltac:(lia) Hlen Heval Href)
                  eq_refl)).
Defined.

Lemma small_history_eq :
  Inputs.small_history = (-18.219999999999999)%float :: replicate 100 (-15.6)%float.
Proof. vm_compute. reflexivity. Qed.

(** C4, the code at the failing input: the dataset with a population of 5,
    500 generations and a threshold of 0.01.  The loop ends in generation
    100.  The averages are -18.22 in generation 0 and -15.6 from generation
    1 on.  The test of the code compares generation 100 with the entry
    [avg_fitness_history[-100]], which is generation 1: no improvement, and
    it stops.  Against generation 0, 100 generations earlier, the
    improvement is 0.1438, which is not below the threshold. *)
Theorem convergence_window_off_by_one :
  length Inputs.small_history = 101%nat
  ∧ Inputs.small_history !! 0%nat = Some (-18.219999999999999)%float
  ∧ Inputs.small_history !! 1%nat = Some (-15.6)%float
  ∧ Inputs.small_history !! 100%nat = Some (-15.6)%float
  ∧ value (run (py_index_from_end Inputs.small_history 100) Inputs.counting)
    = Inputs.small_history !! 1%nat
  ∧ value (run (converged Inputs.small_history 0.01%float) Inputs.counting) = Some true
  ∧ improvement_per_spec Inputs.small_history 100 = Some 0.14379802414928647%float
  ∧ PrimFloat.ltb 0.14379802414928647 0.01 = false.
Proof.
  rewrite small_history_eq.
  split; [reflexivity|]. do 3 (split; [reflexivity|]).
  repeat split; vm_compute; reflexivity.
Qed.

End RunFacts.

(** * Further properties

    ** The keys of the time slots *)

Module KeyFacts.
Import MoreTerms.

Lemma pretty_N_char_digit x : pretty_N_char x ≠ ":"%char ∧ pretty_N_char x ≠ "-"%char.
Proof. unfold pretty_N_char. by repeat case_match. Qed.

Lemma pretty_N_go_chars x : ∀ s,
  string_forall (λ c, c ≠ ":"%char ∧ c ≠ "-"%char) s →
  string_forall (λ c, c ≠ ":"%char ∧ c ≠ "-"%char) (pretty_N_go x s).
Proof.
  induction (N.lt_wf_0 x) as [x _ IH]; intros s Hs.
  assert (x = 0 ∨ 0 < x)%N as [->|?] by lia; [by rewrite pretty_N_go_0|].
  rewrite pretty_N_go_step by done. apply IH; [by apply N.div_lt|].
  split; [apply pretty_N_char_digit | done].
Qed.

Lemma pretty_N_chars (x : N) :
  string_forall (λ c, c ≠ ":"%char ∧ c ≠ "-"%char) (pretty x).
Proof.
  unfold pretty, pretty_N. case_decide; [done|]. by apply pretty_N_go_chars.
Qed.

(** The first digit of a positive number is not a zero. *)
Lemma pretty_N_go_head x : ∀ s,
  (0 < x)%N → ∃ c rest, pretty_N_go x s = String c rest ∧ c ≠ "0"%char.
Proof.
  induction (N.lt_wf_0 x) as [x _ IH]; intros s Hx.
  rewrite pretty_N_go_step by done.
  destruct (N.eq_0_gt_0_cases (x `div` 10)) as [E|?].
  - rewrite E, pretty_N_go_0. eexists _, _. split; [done|].
    assert (x < 10)%N by (by apply N.div_small_iff in E).
    rewrite N.mod_small by done.
    assert (x = 1 ∨ x = 2 ∨ x = 3 ∨ x = 4 ∨ x = 5 ∨ x = 6
          ∨ x = 7 ∨ x = 8 ∨ x = 9)%N as Hx' by lia.
    by repeat (destruct Hx' as [->|Hx']; [done|]); subst x.
  - apply IH; [by apply N.div_lt | done].
Qed.

Lemma pretty_N_head (x : N) :
  (2 ≤ String.length (pretty x))%nat →
  ∃ c rest, pretty x = String c rest ∧ c ≠ "0"%char.
Proof.
  unfold pretty, pretty_N. case_decide; [cbn; lia|]. intros _.
  apply pretty_N_go_head. lia.
Qed.

Lemma format_02d_chars (n : Z) : string_forall (λ c, c ≠ ":"%char) (format_02d n).
Proof.
  assert (∀ s, string_forall (λ c, c ≠ ":"%char ∧ c ≠ "-"%char) s →
               string_forall (λ c, c ≠ ":"%char) s) as weaken.
  { induction s; cbn; [done|]. intros [[? _] ?]. auto. }
  unfold format_02d. destruct n as [|p|p]; try case_decide; cbn;
    repeat split; try done; apply weaken, pretty_N_chars.
Qed.

Lemma format_02d_inj : Inj (=) (=) format_02d.
Proof.
  assert (∀ n : Z, 0 ≤ n → ∃ c rest, format_02d n = String c rest ∧ c ≠ "-"%char) as Hpos.
  { intros n Hn. unfold format_02d.
    pose proof (pretty_N_chars (Z.to_N n)) as Hc.
    destruct n as [|p|p]; [..|lia]; case_decide; cbn; try (by eexists _, _);
      destruct (pretty _); cbn in *; try lia; eexists _, _; split; try done; tauto. }
  assert (∀ n m : Z, 0 ≤ n → 0 ≤ m → format_02d n = format_02d m → n = m) as Hnonneg.
  { intros n m Hn Hm. unfold format_02d.
    replace (match n with Z.neg p => "-" +:+ pretty (N.pos p) | _ =>
               let digits := pretty (Z.to_N n) in
               if decide (String.length digits < 2)%nat then "0" +:+ digits else digits end)
      with (let digits := pretty (Z.to_N n) in
            if decide (String.length digits < 2)%nat then "0" +:+ digits else digits)
      by (destruct n; [done..|lia]).
    replace (match m with Z.neg p => "-" +:+ pretty (N.pos p) | _ =>
               let digits := pretty (Z.to_N m) in
               if decide (String.length digits < 2)%nat then "0" +:+ digits else digits end)
      with (let digits := pretty (Z.to_N m) in
            if decide (String.length digits < 2)%nat then "0" +:+ digits else digits)
      by (destruct m; [done..|lia]).
    cbv zeta. intros H.
    cut (Z.to_N n = Z.to_N m); [lia|]. apply (inj pretty).
    repeat case_decide.
    - by injection H.
    - destruct (pretty_N_head (Z.to_N m)) as (c & rest & E & Hc); [lia|].
      rewrite E in H. cbn in H. by injection H as <- _.
    - destruct (pretty_N_head (Z.to_N n)) as (c & rest & E & Hc); [lia|].
      rewrite E in H. cbn in H. by injection H as -> _.
    - done. }
  intros n m H.
  destruct (decide (0 ≤ n)) as [Hn|Hn], (decide (0 ≤ m)) as [Hm|Hm].
  - by apply Hnonneg.
  - destruct (Hpos n Hn) as (c & rest & E & Hc). rewrite E in H.
    destruct m as [| |q]; [lia..|]. cbn in H. by injection H as -> _.
  - destruct (Hpos m Hm) as (c & rest & E & Hc). rewrite E in H.
    destruct n as [| |q]; [lia..|]. cbn in H. by injection H as <- _.
  - destruct n as [| |p]; [lia..|]. destruct m as [| |q]; [lia..|]. cbn in H.
    injection H as H. change ("" +:+ ?s) with s in H.
    apply (inj (pretty : N → string)) in H. congruence.
Qed.

Lemma app_colon_inj s1 : ∀ s2 t1 t2,
  string_forall (λ c, c ≠ ":"%char) s1 → string_forall (λ c, c ≠ ":"%char) s2 →
  s1 +:+ ":" +:+ t1 = s2 +:+ ":" +:+ t2 → s1 = s2 ∧ t1 = t2.
Proof.
  induction s1 as [|c s1 IH]; intros [|d s2] t1 t2 H1 H2 H; cbn in *.
  - by injection H.
  - injection H as <- _. tauto.
  - injection H as -> _. tauto.
  - injection H as -> H. destruct (IH s2 t1 t2) as [-> ->]; tauto.
Qed.

Lemma str_inj (ts1 ts2 : TimeSlot.t) : TimeSlot.str ts1 = TimeSlot.str ts2 → ts1 = ts2.
Proof.
  destruct ts1 as [h1 m1], ts2 as [h2 m2]. unfold TimeSlot.str. cbn. intros H.
  apply app_colon_inj in H as [Hh Hm]; [|apply format_02d_chars..].
  apply format_02d_inj in Hh, Hm. by subst.
Qed.

Lemma in_slot_time_slot (items : list item) (ts : TimeSlot.t) :
  FitnessTerms.in_slot items (TimeSlot.str ts) = filter (λ x, time_slot x = ts) items.
Proof.
  unfold FitnessTerms.in_slot. induction items as [|x items IH]; [done|].
  rewrite !filter_cons, IH.
  destruct (decide (TimeSlot.str (time_slot x) = TimeSlot.str ts)) as [E|N],
           (decide (time_slot x = ts)) as [E'|N']; try done.
  - by apply str_inj in E.
  - by rewrite E' in N.
Qed.

(** [str] of a time slot names the time slot: two time slots have the same
    key only if they are the same, whatever their hours and minutes, so a
    list of [time_slot_assignments] holds the items of one time slot, in the
    order of the schedule. *)
Theorem slot_key_names_time_slot (items : list item) (ts ts' : TimeSlot.t) :
  (TimeSlot.str ts = TimeSlot.str ts' ↔ ts = ts')
  ∧ (Fitness.tables items).2 !!! TimeSlot.str ts = filter (λ x, time_slot x = ts) items.
Proof.
  split; [split; [apply str_inj | by intros ->]|].
  by rewrite FitnessFacts.tables_slots, in_slot_time_slot.
Qed.

End KeyFacts.

(** ** The two tables of [calculate_fitness] *)

Module TableFacts.
Import Fitness FitnessTerms FitnessFacts KeyFacts.

Lemma tally_slots_lookup L T it key :
  (tally (L, T) it).2 !! key =
    if decide (TimeSlot.str (time_slot it) = key) then Some (T !!! key ++ [it])
    else T !! key.
Proof.
  cbn. set (k := TimeSlot.str (time_slot it)).
  destruct (decide (is_Some (T !! k))) as [Hs|Hn];
    destruct (decide (k = key)) as [<-|Hne].
  - by rewrite lookup_insert_eq.
  - by rewrite lookup_insert_ne.
  - by rewrite lookup_insert_eq, lookup_total_insert_eq, (lookup_total_alt T),
      (proj2 (eq_None_not_Some _) Hn).
  - by rewrite !lookup_insert_ne.
Qed.

Lemma foldl_tally_lookup items : ∀ L T key,
  (foldl tally (L, T) items).2 !! key =
    if decide (in_slot items key = []) then T !! key
    else Some (T !!! key ++ in_slot items key).
Proof.
  induction items as [|it items IH]; intros L T key; cbn [foldl]; [done|].
  destruct (tally (L, T) it) as [L' T'] eqn:E. rewrite IH.
  pose proof (tally_slots_lookup L T it key) as Hl.
  pose proof (tally_slots L T it key) as Ht.
  rewrite E in Hl, Ht. cbn in Hl, Ht. rewrite Hl, Ht.
  unfold in_slot. rewrite filter_cons.
  destruct (decide (TimeSlot.str (time_slot it) = key)).
  - rewrite (decide_False (P := _ :: _ = [])) by done.
    case_decide as E'; [by rewrite E'|]. by rewrite <- app_assoc.
  - rewrite app_nil_r. done.
Qed.

Lemma in_slot_elem items it : it ∈ items → it ∈ in_slot items (TimeSlot.str (time_slot it)).
Proof. intros Hin. unfold in_slot. by apply list_elem_of_filter. Qed.

(** The first loop of [calculate_fitness] gives [facilitator_loads] one
    entry for each facilitator of the schedule, the number of its items, and
    [time_slot_assignments] one entry for each time-slot key of the
    schedule, the items of that key in the order of the schedule; so the
    look-ups of the second loop (lines 69, 92 and 99) find their keys. *)
Theorem tables_complete (items : list item) :
  (∀ f, (tables items).1 !! f =
          if decide (load_of items f = 0) then None else Some (load_of items f))
  ∧ (∀ key, (tables items).2 !! key =
              if decide (in_slot items key = []) then None else Some (in_slot items key))
  ∧ Forall (λ it, (tables items).1 !! facilitator it = Some (load_of items (facilitator it))
                  ∧ (tables items).2 !! TimeSlot.str (time_slot it)
                    = Some (in_slot items (TimeSlot.str (time_slot it)))
                  ∧ 1 ≤ load_of items (facilitator it)
                  ∧ it ∈ in_slot items (TimeSlot.str (time_slot it)))
           items.
Proof.
  assert (∀ f, (tables items).1 !! f =
            if decide (load_of items f = 0) then None else Some (load_of items f)) as Hl.
  { intros f. unfold tables. rewrite (proj1 (foldl_tally items ∅ ∅)).
    rewrite lookup_empty. cbn. case_decide; [done|]. f_equal; lia. }
  assert (∀ key, (tables items).2 !! key =
            if decide (in_slot items key = []) then None else Some (in_slot items key)) as Hs.
  { intros key. unfold tables. rewrite foldl_tally_lookup.
    by rewrite lookup_empty, lookup_total_empty. }
  split; [done|]. split; [done|].
  apply Forall_forall. intros it Hin.
  pose proof (load_of_pos _ _ Hin). pose proof (in_slot_elem _ _ Hin) as Hk.
  rewrite Hl, Hs, decide_False by lia.
  rewrite decide_False by (intros E; rewrite E in Hk; by apply elem_of_nil in Hk).
  repeat split; try done; lia.
Qed.

(** *** Rule 4 *)

Lemma filter_filter_and {A} (P Q : A → Prop) `{∀ x, Decision (P x)} `{∀ x, Decision (Q x)}
    (l : list A) :
  filter P (filter Q l) = filter (λ x, Q x ∧ P x) l.
Proof.
  induction l as [|x l IH]; [done|]. rewrite !filter_cons.
  destruct (decide (Q x)), (decide (P x)); rewrite ?filter_cons, ?IH;
    repeat case_decide; try done; tauto.
Qed.

(** The step of rule 4 on an item of a schedule, by the number of items of
    the schedule that share its time slot and its facilitator. *)
Lemma slot_load_step (items : list item) (it : item) (fitness : float) :
  it ∈ items →
  let n := length (MoreTerms.same_slot_and_facilitator items it) in
  (1 ≤ n)%nat
  ∧ slot_load ((tables items).2 !!! TimeSlot.str (time_slot it)) it fitness =
      if decide (n = 1%nat) then (fitness + 0.2)%float else (fitness - 0.2)%float.
Proof.
  intros Hin n.
  assert (it ∈ MoreTerms.same_slot_and_facilitator items it) as Hself
    by (by apply list_elem_of_filter).
  assert (1 ≤ n)%nat as Hn.
  { unfold n. destruct (MoreTerms.same_slot_and_facilitator items it);
      [by apply elem_of_nil in Hself | cbn; lia]. }
  split; [done|]. unfold slot_load.
  rewrite tables_slots, in_slot_time_slot, filter_filter_and.
  change (length (filter _ items)) with n.
  split_decisions; try done; lia.
Qed.

(** Rule 4 in [calculate_fitness]: what the loop adds for an item of a
    schedule is the score of rules 1 to 3, then the step of rule 4, then
    rules 5 to 7.  The step counts the items of the schedule that share the
    time slot and the facilitator of the item, itself included: the count is
    at least 1, the item gains 0.2 when it is alone and loses 0.2 when it is
    not; the score is never left as it is. *)
Theorem slot_load_by_count (items : list item) (it : item) :
  it ∈ items →
  let n := length (MoreTerms.same_slot_and_facilitator items it) in
  let before := score_after 3 items it in
  (1 ≤ n)%nat
  ∧ item_fitness items (tables items).1 (tables items).2 it =
      rules_after 4 items it
        (if decide (n = 1%nat) then (before + 0.2)%float else (before - 0.2)%float)
  ∧ calculate_fitness items
    = foldl (λ total_fitness x,
               (total_fitness
                + item_fitness items (tables items).1 (tables items).2 x)%float)
            0%float items.
Proof.
  intros Hin n before. destruct (slot_load_step items it before Hin) as [Hn Hstep].
  split; [done|]. split; [|apply calculate_fitness_sum].
  rewrite (item_fitness_rules 4). f_equal.
  change (score_after 4 items it)
    with (slot_load ((tables items).2 !!! TimeSlot.str (time_slot it)) it before).
  exact Hstep.
Qed.

(** The first item of the schedule is alone with its facilitator in its
    time slot: 0.2 is added to the 0.3 that it has after rule 3. *)
Lemma slot_load_by_count_witness :
  Inputs.clash_schedule !!! 0%nat ∈ Inputs.clash_schedule
  ∧ score_after 3 Inputs.clash_schedule (Inputs.clash_schedule !!! 0%nat)
    = 0.29999999999999999%float
  ∧ item_fitness Inputs.clash_schedule (tables Inputs.clash_schedule).1
      (tables Inputs.clash_schedule).2 (Inputs.clash_schedule !!! 0%nat)
    = rules_after 4 Inputs.clash_schedule (Inputs.clash_schedule !!! 0%nat)
        (0.29999999999999999 + 0.2)%float.
Proof.
  assert (Inputs.clash_schedule !!! 0%nat ∈ Inputs.clash_schedule) as Hin
    by (refine (bool_decide_unpack _ _); vm_compute; exact I).
  split; [exact Hin|]. split; [vm_compute; reflexivity|].
  etrans; [exact (proj1 (proj2 (slot_load_by_count Inputs.clash_schedule
                                  (Inputs.clash_schedule !!! 0%nat) Hin)))|].
  vm_compute. reflexivity.
Defined.

End TableFacts.

(** ** The store along a run *)

Module StoreFacts.
Import GeneticAlgorithm EngineTerms EngineFacts MoreTerms.

Lemma mapM_preserves {A B} (f : A → M B) (I : State → Prop) (l : list A) :
  (∀ x σ y σ', x ∈ l → I σ → f x σ = Ok (y, σ') → I σ') →
  ∀ σ ys σ', I σ → mapM f l σ = Ok (ys, σ') → I σ'.
Proof.
  induction l as [|x l IH]; intros Hf σ ys σ' HI H.
  - by injection H as _ <-.
  - rewrite mapM_cons in H. apply bind_Ok in H as (y & σ1 & Hy & H).
    apply bind_Ok in H as (ys' & σ2 & Hys & H). injection H as _ <-.
    eapply IH; [|by eapply Hf; [left|..]|done].
    intros x' ? ? ? Hx'. apply Hf. by right.
Qed.

Lemma repeatM_preserves {A} (body : M A) (I : State → Prop) (n : nat) :
  (∀ σ y σ', I σ → body σ = Ok (y, σ') → I σ') →
  ∀ σ ys σ', I σ → repeatM n body σ = Ok (ys, σ') → I σ' ∧ length ys = n.
Proof.
  intros Hbody. induction n as [|n IH]; intros σ ys σ' HI H.
  - by injection H as <- <-.
  - cbn in H. apply bind_Ok in H as (y & σ1 & Hy & H).
    apply bind_Ok in H as (ys' & σ2 & Hys & H). injection H as <- <-.
    apply IH in Hys as [? <-]; [done|by eapply Hbody].
Qed.

(** *** Caches and stores *)

Lemma cache_coherent_frame σ σ' o :
  take (length (item_objs σ)) (item_objs σ') = item_objs σ →
  cache_coherent σ o → cache_coherent σ' o.
Proof.
  intros Htake [Hv Hc].
  assert (length (item_objs σ) ≤ length (item_objs σ'))%nat as Hlen.
  { rewrite <- Htake at 1. rewrite length_take. lia. }
  assert (deref σ' (Schedule.items o) = deref σ (Schedule.items o)) as Hd.
  { unfold deref. apply Forall_fmap_ext. eapply Forall_impl; [exact Hv|].
    intros l Hl. cbn. rewrite !list_lookup_total_alt. f_equal.
    rewrite <- (lookup_take_lt (item_objs σ') (length (item_objs σ)) l) by done.
    by rewrite Htake. }
  split.
  - eapply Forall_impl; [exact Hv|]. cbn. intros. lia.
  - intros f Hf. rewrite Hd. by apply Hc.
Qed.

Lemma cache_coherent_prefix σ σ' o :
  item_objs σ `prefix_of` item_objs σ' → cache_coherent σ o → cache_coherent σ' o.
Proof. intros [extra E]. apply cache_coherent_frame. by rewrite E, take_app_length. Qed.

Lemma cache_coherent_lookup σ s :
  Forall (cache_coherent σ) (schedule_objs σ) → cache_coherent σ (schedule_objs σ !!! s).
Proof.
  intros H. rewrite list_lookup_total_alt.
  destruct (schedule_objs σ !! s) as [o|] eqn:E; cbn.
  - by eapply Forall_lookup_1.
  - split; [constructor | done].
Qed.

Lemma store_inv_config self self' σ :
  same_config self self' → store_inv self σ → store_inv self' σ.
Proof.
  intros (Ha & Hr & Ht & Hf & _) [Hi Hs]. split; [|done].
  eapply Forall_impl; [exact Hi|]. unfold in_domain. intros it. by rewrite Ha, Hr, Ht, Hf.
Qed.

Lemma same_config_refl self : same_config self self.
Proof. by repeat split. Qed.

Lemma same_config_trans s1 s2 s3 : same_config s1 s2 → same_config s2 s3 → same_config s1 s3.
Proof. unfold same_config. intros (?&?&?&?&?&?) (?&?&?&?&?&?). repeat split; congruence. Qed.

(** A step that leaves the objects as they are, the oracle apart. *)
Lemma store_inv_same self σ σ' :
  item_objs σ' = item_objs σ → schedule_objs σ' = schedule_objs σ →
  store_inv self σ → store_inv self σ'.
Proof.
  intros Hi Hs [H1 H2]. split; [by rewrite Hi|]. rewrite Hs.
  eapply Forall_impl; [exact H2|]. intros o. apply cache_coherent_prefix. by rewrite Hi.
Qed.

(** A step that adds items of the domain and, at most, one schedule. *)
Lemma store_inv_grow self σ σ' new :
  item_objs σ' = item_objs σ ++ new → Forall (in_domain self) new →
  (schedule_objs σ' = schedule_objs σ
   ∨ ∃ refs, schedule_objs σ' = schedule_objs σ ++ [Schedule.mk refs None]
             ∧ valid_refs σ' refs) →
  store_inv self σ → store_inv self σ'.
Proof.
  intros Hi Hnew Hs [H1 H2]. split; [rewrite Hi; by apply Forall_app|].
  assert (Forall (cache_coherent σ') (schedule_objs σ)) as H3.
  { eapply Forall_impl; [exact H2|]. intros o. apply cache_coherent_prefix.
    rewrite Hi. by apply prefix_app_r. }
  destruct Hs as [->|(refs & -> & Hv)]; [done|].
  apply Forall_app. split; [done|]. by repeat constructor.
Qed.

(** *** [get_fitness] *)

Lemma get_fitness_store self s σ f σ' :
  store_inv self σ → get_fitness s σ = Ok (f, σ') →
  store_inv self σ' ∧ f = Fitness.calculate_fitness (items_of σ s)
  ∧ item_objs σ' = item_objs σ ∧ rng σ' = rng σ
  ∧ Schedule.items <$> schedule_objs σ' = Schedule.items <$> schedule_objs σ.
Proof.
  intros [H1 H2] H. pose proof (cache_coherent_lookup σ s H2) as [Hv Hc].
  pose proof (get_fitness_same _ _ _ _ H) as [_ Hsame].
  unfold get_fitness in H.
  apply bind_Ok in H as (o & σ0 & Ho & H). injection Ho as <- <-.
  destruct (Schedule._fitness _) as [f0|] eqn:E.
  - injection H as <- <-. repeat split; try done. by apply Hc.
  - apply bind_Ok in H as (f' & σ1 & Hf & H). injection Hf as <- <-.
    apply bind_Ok in H as (u & σ2 & Hu & H). injection Hu as _ <-.
    injection H as <- <-. repeat split; try done. cbn.
    apply Forall_alter.
    + eapply Forall_impl; [exact H2|]. intros o. by apply cache_coherent_prefix.
    + intros o Ho _. rewrite (list_lookup_total_correct _ _ _ Ho) in Hv.
      split; [done|]. cbn. intros f [= <-].
      by rewrite (list_lookup_total_correct _ _ _ Ho).
Qed.

Lemma with_fitness_store self s σ p σ' :
  store_inv self σ → with_fitness s σ = Ok (p, σ') →
  store_inv self σ' ∧ p = (s, Fitness.calculate_fitness (items_of σ s)).
Proof.
  unfold with_fitness. intros Hinv H. apply bind_Ok in H as (f & σ1 & Hf & H).
  injection H as <- <-. apply (get_fitness_store self) in Hf as (? & -> & _); done.
Qed.

Lemma sample_pool_store {A} k : ∀ (pool : list A) σ xs σ',
  sample_pool pool k σ = Ok (xs, σ') →
  item_objs σ' = item_objs σ ∧ schedule_objs σ' = schedule_objs σ.
Proof.
  induction k as [|k IH]; intros pool σ xs σ' H.
  - by injection H as <- <-.
  - cbn [sample_pool] in H. apply bind_Ok in H as (j & σ1 & Hj & H).
    rewrite randbelow_eq in Hj. injection Hj as <- <-.
    destruct (pool !! _) as [x|] eqn:Hx; [|done].
    destruct (last pool) as [y|] eqn:Hy; [|done].
    apply bind_Ok in H as (rest & σ2 & Hrest & H). injection H as <- <-.
    by apply IH in Hrest as [-> ->].
Qed.

Lemma select_parent_store self population σ s σ' :
  store_inv self σ → select_parent self population σ = Ok (s, σ') → store_inv self σ'.
Proof.
  unfold select_parent, random_sample. intros Hinv H.
  apply bind_Ok in H as (tournament & σ1 & Ht & H).
  case_bool_decide; [done|]. apply sample_pool_store in Ht as [Hi Hs].
  apply bind_Ok in H as (keyed & σ2 & Hk & H).
  apply py_max_by_inv in H as [-> _].
  eapply (mapM_preserves with_fitness (store_inv self)); [| |exact Hk].
  - intros x σa y σb _ Ha Hb. by apply (with_fitness_store self) in Hb as [? _].
  - by eapply store_inv_same.
Qed.

(** *** The initial population *)

Lemma random_item_store self a σ l σ' :
  a ∈ activities self → store_inv self σ →
  random_item self a σ = Ok (l, σ') → store_inv self σ'.
Proof.
  unfold random_item. intros Ha Hinv H.
  apply bind_Ok in H as (r & σ1 & Hr & H). apply random_choice_Ok in Hr as [Hr ->].
  apply bind_Ok in H as (ts & σ2 & Hts & H). apply random_choice_Ok in Hts as [Hts ->].
  apply bind_Ok in H as (f & σ3 & Hf & H). apply random_choice_Ok in Hf as [Hf ->].
  injection H as _ <-.
  eapply (store_inv_grow self σ _ [ScheduleItem.mk a r ts f]); [done| |by left|done].
  by repeat constructor.
Qed.

Lemma random_schedule_store self σ s σ' :
  store_inv self σ → random_schedule self σ = Ok (s, σ') → store_inv self σ'.
Proof.
  unfold random_schedule. intros Hinv H.
  apply bind_Ok in H as (ls & σ1 & Hls & H). injection H as _ <-.
  pose proof (random_items_inv _ _ _ _ _ Hls) as (-> & new & Hnew & Hi & Hs).
  assert (store_inv self σ1) as Hinv1.
  { eapply (mapM_preserves (random_item self) (store_inv self)); [|done|exact Hls].
    intros a ? ? ? Ha. by apply random_item_store. }
  eapply (store_inv_grow self σ1 _ []); [by rewrite app_nil_r|constructor| |done].
  right. eexists. split; [done|]. unfold valid_refs. cbn.
  apply Forall_seq. intros j Hj. rewrite Hi, length_app.
  assert (length new = length (activities self)) by (by rewrite <- Hnew, length_fmap).
  lia.
Qed.

Lemma initialize_population_store self σ pop σ' :
  store_inv self σ → initialize_population self σ = Ok (pop, σ') →
  store_inv self σ' ∧ length pop = Z.to_nat (population_size self).
Proof.
  intros Hinv H. eapply (repeatM_preserves _ (store_inv self)); [|done|exact H].
  intros ???. apply random_schedule_store.
Qed.

(** *** [crossover] and [mutate] *)

Lemma crossover_store self parent1 parent2 σ child σ' :
  store_inv self σ → crossover self parent1 parent2 σ = Ok (child, σ') →
  store_inv self σ'.
Proof.
  intros Hinv H. apply crossover_inv in H as (_ & _ & Hi & Hs).
  eapply (store_inv_grow self σ _ []); [by rewrite app_nil_r|constructor| |done].
  right. eexists. split; [exact Hs|]. destruct Hinv as [_ H2].
  destruct (cache_coherent_lookup σ parent1 H2) as [Hv1 _].
  destruct (cache_coherent_lookup σ parent2 H2) as [Hv2 _].
  unfold valid_refs in *. rewrite Hi.
  apply Forall_app. split; [by apply Forall_take | by apply Forall_drop].
Qed.

Lemma deepcopy_items_domain (P : item → Prop) refs : ∀ memo σ refs' σ',
  Forall P (item_objs σ) → valid_refs σ refs →
  deepcopy_items memo refs σ = Ok (refs', σ') → Forall P (item_objs σ').
Proof.
  induction refs as [|l refs IH]; intros memo σ refs' σ' HP Hv H.
  - by injection H as _ <-.
  - apply Forall_cons in Hv as [Hl Hv]. cbn [deepcopy_items] in H.
    destruct (memo !! l) as [l'|].
    + apply bind_Ok in H as (rest & σ1 & Hrest & H). injection H as _ <-.
      by eapply IH.
    + apply bind_Ok in H as (σ0 & σ1 & Hget & H). injection Hget as <- <-.
      apply bind_Ok in H as (l' & σ1 & Hnew & H). injection Hnew as <- <-.
      apply bind_Ok in H as (rest & σ2 & Hrest & H). injection H as _ <-.
      eapply IH; [| |exact Hrest]; cbn.
      * apply Forall_app. split; [done|]. repeat constructor.
        by apply Forall_lookup_total_1.
      * eapply Forall_impl; [exact Hv|]. cbn. intros. rewrite length_app. lia.
Qed.

Lemma facet_change_domain self g x :
  facet_change self g → in_domain self x → in_domain self (g x).
Proof. intros Hg (? & ? & ? & ?). by destruct Hg. Qed.

Lemma mutate_loop_domain self ls : ∀ σ us σ',
  Forall (in_domain self) (item_objs σ) →
  mapM (mutate_item self) ls σ = Ok (us, σ') →
  Forall (in_domain self) (item_objs σ').
Proof.
  intros σ us σ' HP H.
  eapply (mapM_preserves (mutate_item self) (λ σ, Forall (in_domain self) (item_objs σ)));
    [|exact HP|exact H].
  intros l σa u σb _ Ha Hb. apply mutate_item_inv in Hb as (g & -> & _ & Hg).
  apply Forall_alter; [done|]. intros x _ Hx.
  destruct (PrimFloat.ltb _ _); [by apply facet_change_domain | by subst g].
Qed.

Lemma mutate_store self s σ s' σ' :
  store_inv self σ → mutate self s σ = Ok (s', σ') → store_inv self σ'.
Proof.
  intros [H1 H2] H. destruct (cache_coherent_lookup σ s H2) as [Hv _].
  apply mutate_inv in H as (refs' & σ1 & σ2 & us & Hcopy & Hloop & -> & ->).
  pose proof (deepcopy_items_domain _ _ _ _ _ _ H1 Hv Hcopy) as HP1.
  pose proof (mutate_loop_domain _ _ _ _ _ HP1 Hloop) as HP2.
  destruct (deepcopy_items_spec (length (item_objs σ))
              (Schedule.items (schedule_objs σ !!! s)) ∅ σ)
    as (refs'' & extra & E & HF); [done|done|intros l l' Hl; by rewrite lookup_empty in Hl|].
  rewrite E in Hcopy. injection Hcopy as -> <-.
  apply (mutate_loop_frame _ (length (item_objs σ))) in Hloop
    as (Htake & Hlen & _ & Hsched);
    [|eapply Forall2_Forall_r; [exact HF|]; apply Forall_true; by intros ? ? (? & ? & ?)].
  cbn in Htake, Hlen, Hsched. rewrite take_app_length in Htake.
  split; [done|]. cbn [schedule_objs]. rewrite Hsched.
  apply Forall_app. split.
  - eapply Forall_impl; [exact H2|]. intros o. by apply cache_coherent_frame.
  - repeat constructor; [|done]. cbn. unfold valid_refs. cbn. rewrite Hlen.
    eapply Forall2_Forall_r; [exact HF|]. apply Forall_true.
    intros l l' (Hl & _ & Hl'). apply lookup_lt_is_Some. rewrite Hl'.
    by apply lookup_lt_is_Some_2.
Qed.

Lemma offspring_store self σ child σ' :
  store_inv self σ → offspring self σ = Ok (child, σ') → store_inv self σ'.
Proof.
  unfold offspring. intros Hinv H.
  apply bind_Ok in H as (p1 & σ1 & Hp1 & H). apply (select_parent_store self) in Hp1; [|done].
  apply bind_Ok in H as (p2 & σ2 & Hp2 & H). apply (select_parent_store self) in Hp2; [|done].
  apply bind_Ok in H as (c & σ3 & Hc & H). apply (crossover_store self) in Hc; [|done].
  by apply (mutate_store self) in H.
Qed.

(** *** [evolve] *)

Lemma py_truediv_state a b σ x σ' : py_truediv a b σ = Ok (x, σ') → σ' = σ.
Proof. unfold py_truediv. destruct (PrimFloat.eqb _ _); [done|]. by intros [= _ <-]. Qed.

Lemma get_fitness_list_store self l : ∀ σ fs σ',
  store_inv self σ → mapM get_fitness l σ = Ok (fs, σ') → store_inv self σ'.
Proof.
  intros σ fs σ' Hinv H.
  eapply (mapM_preserves get_fitness (store_inv self)); [|done|exact H].
  intros s σa f σb _ Ha Hb. by apply (get_fitness_store self) in Hb as [? _].
Qed.

Lemma evaluate_store self σ r σ' :
  store_inv self σ → evaluate self σ = Ok (r, σ') → store_inv self σ'.
Proof.
  unfold evaluate. intros Hinv H.
  apply bind_Ok in H as (fs & σ1 & Hfs & H).
  apply (get_fitness_list_store self) in Hfs; [|done].
  apply bind_Ok in H as (avg & σ2 & Havg & H). apply py_truediv_state in Havg as ->.
  apply bind_Ok in H as (best & σ3 & Hbest & H).
  apply py_max_by_inv in Hbest as [-> _]. by injection H as _ <-.
Qed.

Lemma with_population_config self pop : same_config self (with_population self pop).
Proof. by repeat split. Qed.

Lemma generation_store threshold gen st σ st' stop σ' :
  store_inv (self_ st) σ →
  generation threshold gen st σ = Ok ((st', stop), σ') →
  store_inv (self_ st') σ' ∧ same_config (self_ st) (self_ st').
Proof.
  unfold generation. intros Hinv H.
  apply bind_Ok in H as ([avg best] & σ1 & Heval & H).
  apply (evaluate_store (self_ st)) in Heval; [|done].
  apply bind_Ok in H as (b & σ2 & Hb & H).
  assert (σ2 = σ1) as ->.
  { case_bool_decide; [by eapply converged_state | by injection Hb as _ <-]. }
  destruct b.
  - injection H as <- _ <-. split; [done | apply same_config_refl].
  - apply bind_Ok in H as (new_population & σ3 & Hnew & H). injection H as <- _ <-.
    apply (repeatM_preserves _ (store_inv (self_ st))) in Hnew as [Hnew _];
      [|intros ???; apply offspring_store|done].
    split; [done | apply with_population_config].
Qed.

Lemma generations_from_store threshold n : ∀ gen st σ st' σ',
  store_inv (self_ st) σ →
  generations_from threshold n gen st σ = Ok (st', σ') →
  store_inv (self_ st') σ' ∧ same_config (self_ st) (self_ st').
Proof.
  induction n as [|n IH]; intros gen st σ st' σ' Hinv H.
  - injection H as <- <-. split; [done | apply same_config_refl].
  - cbn [generations_from] in H. apply bind_Ok in H as ([st1 stop] & σ1 & Hgen & H).
    apply generation_store in Hgen as (Hinv1 & Hc1); [|done].
    destruct stop.
    + by injection H as <- <-.
    + apply IH in H as (Hinv2 & Hc2); [|done].
      split; [done | by eapply same_config_trans].
Qed.

Lemma keyed_store self l : ∀ σ keyed σ',
  store_inv self σ → mapM with_fitness l σ = Ok (keyed, σ') →
  store_inv self σ'
  ∧ keyed = (λ s, (s, Fitness.calculate_fitness (items_of σ' s))) <$> l.
Proof.
  induction l as [|s l IH]; intros σ keyed σ' Hinv H.
  - by injection H as <- <-.
  - rewrite mapM_cons in H. apply bind_Ok in H as (p & σ1 & Hp & H).
    apply bind_Ok in H as (ps & σ2 & Hps & H). injection H as <- <-.
    pose proof (with_fitness_inv _ _ _ _ Hp) as [Hsame1 _].
    apply (with_fitness_store self) in Hp as [Hinv1 ->]; [|done].
    pose proof (keyed_inv _ _ _ _ Hps) as [Hsame2 _].
    apply IH in Hps as [Hinv2 ->]; [|done]. split; [done|]. cbn. f_equal. f_equal. f_equal.
    pose proof (same_objects_trans _ _ _ Hsame1 Hsame2) as [Hi Hs].
    unfold items_of, deref. rewrite Hi. f_equal.
    assert ((Schedule.items <$> schedule_objs σ2) !!! s
            = (Schedule.items <$> schedule_objs σ) !!! s) as Hl by (by rewrite Hs).
    rewrite !list_lookup_total_alt, !list_lookup_fmap in Hl.
    rewrite !list_lookup_total_alt.
    destruct (schedule_objs σ2 !! s), (schedule_objs σ !! s); done.
Qed.

Lemma same_config_sym self self' : same_config self self' → same_config self' self.
Proof. intros (?&?&?&?&?&?). by repeat split. Qed.

Lemma evolve_loop_store self generations threshold σ st σ' :
  store_inv self σ →
  evolve_loop self generations threshold σ = Ok (st, σ') →
  store_inv self σ' ∧ same_config self (self_ st).
Proof.
  unfold evolve_loop. intros Hinv H.
  apply generations_from_store in H as (Hinv1 & Hc); [|done]. cbn [self_] in Hc.
  split; [|done]. eapply store_inv_config; [|exact Hinv1]. by apply same_config_sym.
Qed.

(** The keys of the final [max] of [evolve] are the fitnesses of the
    schedules of the last population, as their items are at the end. *)
Lemma evolve_store self generations threshold σ best ga σ' :
  store_inv self σ →
  evolve self generations threshold σ = Ok ((best, ga), σ') →
  store_inv self σ' ∧ same_config self ga
  ∧ py_max_by ((λ s, (s, Fitness.calculate_fitness (items_of σ' s))) <$> population ga) σ'
    = Ok (best, σ').
Proof.
  unfold evolve. intros Hinv H.
  apply bind_Ok in H as (st & σ1 & Hloop & H).
  pose proof (evolve_loop_store _ _ _ _ _ _ Hinv Hloop) as (Hinv1 & Hc).
  apply bind_Ok in H as (keyed & σ2 & Hk & H).
  apply (keyed_store self) in Hk as [Hinv2 ->]; [|done].
  apply bind_Ok in H as (b & σ3 & Hb & H).
  pose proof (py_max_by_inv _ _ _ _ Hb) as [-> _].
  by injection H as <- <- <-.
Qed.

Lemma construct_store self σ ga σ' :
  store_inv self σ → construct self σ = Ok (ga, σ') →
  store_inv self σ' ∧ same_config self ga
  ∧ length (population ga) = Z.to_nat (population_size self)
  ∧ population_inv ga σ'.
Proof.
  unfold construct, init. intros Hinv H.
  apply bind_Ok in H as (pop & σ1 & Hpop & H). injection H as <- <-.
  set (self0 := mk _ _ _ _ _ _ []) in Hpop.
  pose proof (initialize_population_inv _ _ _ _ Hpop) as [_ Hpinv].
  apply (initialize_population_store self0) in Hpop as [Hinv1 Hlen].
  - split; [|split; [by repeat split | done]].
    eapply store_inv_config; [|exact Hinv1]. by repeat split.
  - eapply store_inv_config; [|exact Hinv]. by repeat split.
Qed.

End StoreFacts.

(** ** The order of the floats and [max] *)

Module OrderFacts.
Import GeneticAlgorithm EngineTerms EngineFacts MoreTerms.

Lemma SFltb_trans x y z : SFltb x y = true → SFltb y z = true → SFltb x z = true.
Proof.
  unfold SFltb, SFcompare.
  destruct x as [[]|[]| |[] mx ex], y as [[]|[]| |[] my ey], z as [[]|[]| |[] mz ez];
    try done; change (Pos.compare_cont Eq ?a ?b) with (a ?= b)%positive;
    intros H1 H2; compare_cases; cbn in *; try done; lia.
Qed.

Lemma SFltb_irrefl x : SFltb x x = false.
Proof.
  unfold SFltb, SFcompare. destruct x as [[]|[]| |[] m e]; try done;
    by rewrite Z.compare_refl, Pos.compare_cont_refl.
Qed.

Lemma ltb_trans (x y z : float) :
  PrimFloat.ltb x y = true → PrimFloat.ltb y z = true → PrimFloat.ltb x z = true.
Proof. rewrite !FloatAxioms.ltb_spec. apply SFltb_trans. Qed.

Lemma ltb_irrefl (x : float) : PrimFloat.ltb x x = false.
Proof. rewrite FloatAxioms.ltb_spec. apply SFltb_irrefl. Qed.

(** [max(l, key=...)] returns an element that no element of [l] beats. *)
Lemma py_max_by_greatest {A} (l : list (A * float)) σ x σ' :
  py_max_by l σ = Ok (x, σ') →
  ∃ k, (x, k) ∈ l ∧ ∀ q, q ∈ l → PrimFloat.ltb k q.2 = false.
Proof.
  destruct l as [|p l]; [done|]. intros H. injection H as <- _.
  assert (∀ seen best,
            best ∈ seen → (∀ q, q ∈ seen → PrimFloat.ltb best.2 q.2 = false) →
            let r := foldl (λ best q, if PrimFloat.ltb best.2 q.2 then q else best) best l in
            r ∈ seen ++ l ∧ ∀ q, q ∈ seen ++ l → PrimFloat.ltb r.2 q.2 = false) as Hfold.
  { induction l as [|q l IH]; intros seen best Hin Hbest; cbn [foldl].
    - rewrite app_nil_r. done.
    - replace (seen ++ q :: l) with ((seen ++ [q]) ++ l) by (by rewrite <- app_assoc).
      destruct (PrimFloat.ltb best.2 q.2) eqn:E; apply IH.
      + apply elem_of_app. right. by left.
      + intros q' [Hq'|Hq']%elem_of_app.
        * destruct (PrimFloat.ltb q.2 q'.2) eqn:E'; [|done].
          pose proof (Hbest _ Hq') as Hb. by rewrite (ltb_trans _ _ _ E E') in Hb.
        * apply list_elem_of_singleton in Hq' as ->. apply ltb_irrefl.
      + apply elem_of_app. by left.
      + intros q' [Hq'|Hq']%elem_of_app; [by apply Hbest|].
        by apply list_elem_of_singleton in Hq' as ->. }
  destruct (Hfold [p] p) as [Hin Hmax].
  - by left.
  - intros q Hq. apply list_elem_of_singleton in Hq as ->. apply ltb_irrefl.
  - cbn in *. set (r := foldl _ p l) in *. exists r.2. by destruct r.
Qed.

Lemma SFltb_leb_trans x y z : SFltb x y = true → SFleb y z = true → SFltb x z = true.
Proof.
  unfold SFltb, SFleb, SFcompare.
  destruct x as [[]|[]| |[] mx ex], y as [[]|[]| |[] my ey], z as [[]|[]| |[] mz ez];
    try done; change (Pos.compare_cont Eq ?a ?b) with (a ?= b)%positive;
    intros H1 H2; compare_cases; cbn in *; try done; lia.
Qed.

Lemma ltb_leb_trans (x y z : float) :
  PrimFloat.ltb x y = true → PrimFloat.leb y z = true → PrimFloat.ltb x z = true.
Proof. rewrite !FloatAxioms.ltb_spec, FloatAxioms.leb_spec. apply SFltb_leb_trans. Qed.

(** [max(l, key=...)] returns the first element of greatest key: no element
    has a greater key, and the key of no earlier element is as great. *)
Lemma py_max_by_first {A} (l : list (A * float)) σ x σ' :
  py_max_by l σ = Ok (x, σ') →
  ∃ i k, l !! i = Some (x, k)
         ∧ (∀ q, q ∈ l → PrimFloat.ltb k q.2 = false)
         ∧ (∀ j q, (j < i)%nat → l !! j = Some q → PrimFloat.leb k q.2 = false).
Proof.
  destruct l as [|p l]; [done|]. intros H. injection H as <- _.
  assert (∀ seen i best,
            seen !! i = Some best →
            (∀ q, q ∈ seen → PrimFloat.ltb best.2 q.2 = false) →
            (∀ j q, (j < i)%nat → seen !! j = Some q → PrimFloat.leb best.2 q.2 = false) →
            let r := foldl (λ best q, if PrimFloat.ltb best.2 q.2 then q else best) best l in
            ∃ i', (seen ++ l) !! i' = Some r
                  ∧ (∀ q, q ∈ seen ++ l → PrimFloat.ltb r.2 q.2 = false)
                  ∧ (∀ j q, (j < i')%nat → (seen ++ l) !! j = Some q →
                            PrimFloat.leb r.2 q.2 = false)) as Hfold.
  { induction l as [|q l IH]; intros seen i best Hi Hbest Hearlier; cbn [foldl].
    - rewrite app_nil_r. by exists i.
    - replace (seen ++ q :: l) with ((seen ++ [q]) ++ l) by (by rewrite <- app_assoc).
      destruct (PrimFloat.ltb best.2 q.2) eqn:E.
      + apply (IH (seen ++ [q]) (length seen) q).
        * by apply list_lookup_middle.
        * intros q' [Hq'|Hq']%elem_of_app.
          -- destruct (PrimFloat.ltb q.2 q'.2) eqn:E'; [|done].
             pose proof (Hbest _ Hq') as Hb. by rewrite (ltb_trans _ _ _ E E') in Hb.
          -- apply list_elem_of_singleton in Hq' as ->. apply ltb_irrefl.
        * intros j q' Hj Hq'. rewrite lookup_app_l in Hq' by done.
          destruct (PrimFloat.leb q.2 q'.2) eqn:E'; [|done].
          pose proof (Hbest q' (list_elem_of_lookup_2 _ _ _ Hq')) as Hb.
          by rewrite (ltb_leb_trans _ _ _ E E') in Hb.
      + apply (IH (seen ++ [q]) i best).
        * by apply lookup_app_l_Some.
        * intros q' [Hq'|Hq']%elem_of_app; [by apply Hbest|].
          by apply list_elem_of_singleton in Hq' as ->.
        * intros j q' Hj Hq'. apply (Hearlier j q' Hj).
          rewrite lookup_app_l in Hq'; [done|]. apply lookup_lt_Some in Hi. lia. }
  destruct (Hfold [p] 0%nat p) as (i & Hi & Hmax & Hfirst).
  - done.
  - intros q Hq. apply list_elem_of_singleton in Hq as ->. apply ltb_irrefl.
  - intros j q Hj. lia.
  - cbn in *. set (r := foldl _ p l) in *. exists i, r.2. by destruct r.
Qed.
End OrderFacts.

(** ** The loop of [evolve] *)

Module LoopFacts.
Import GeneticAlgorithm EngineTerms EngineFacts MoreTerms StoreFacts.

Lemma generation_shape threshold gen st σ st' stop σ' :
  generation threshold gen st σ = Ok ((st', stop), σ') →
  same_config (self_ st) (self_ st')
  ∧ length (avg_fitness_history st') = S (length (avg_fitness_history st))
  ∧ length (best_fitness_history st') = S (length (best_fitness_history st))
  ∧ (if stop then 100 ≤ gen ∧ population (self_ st') = population (self_ st)
     else length (population (self_ st')) = Z.to_nat (population_size (self_ st))).
Proof.
  unfold generation. intros H.
  apply bind_Ok in H as ([avg best] & σ1 & Heval & H).
  apply bind_Ok in H as (b & σ2 & Hb & H).
  assert (b = true → 100 ≤ gen) as Hgen.
  { intros ->. case_bool_decide; [lia|]. by injection Hb. }
  destruct b.
  - specialize (Hgen eq_refl). injection H as <- <- <-. cbn. rewrite !length_app. cbn.
    repeat split; try done; lia.
  - apply bind_Ok in H as (new_population & σ3 & Hnew & H). injection H as <- <- <-.
    apply (repeatM_preserves _ (λ _, True)) in Hnew as [_ Hlen]; [|done..].
    cbn. rewrite !length_app. cbn. repeat split; try done; lia.
Qed.

Lemma generations_from_shape threshold n : ∀ gen st σ st' σ',
  generations_from threshold n gen st σ = Ok (st', σ') →
  same_config (self_ st) (self_ st')
  ∧ ∃ k, (k ≤ n)%nat
      ∧ length (avg_fitness_history st') = (length (avg_fitness_history st) + k)%nat
      ∧ length (best_fitness_history st') = (length (best_fitness_history st) + k)%nat
      ∧ (k = n ∨ 100 ≤ gen + Z.of_nat k - 1)
      ∧ (population (self_ st') = population (self_ st)
         ∨ length (population (self_ st')) = Z.to_nat (population_size (self_ st))).
Proof.
  induction n as [|n IH]; intros gen st σ st' σ' H.
  - injection H as <- <-. split; [apply same_config_refl|]. exists 0%nat.
    repeat split; try lia; by left.
  - cbn [generations_from] in H. apply bind_Ok in H as ([st1 stop] & σ1 & Hgen & H).
    apply generation_shape in Hgen as (Hc1 & Ha1 & Hb1 & Hp1).
    destruct stop.
    + injection H as <- <-. split; [done|]. exists 1%nat.
      destruct Hp1 as [Hge Hp1]. repeat split; try lia. by left.
    + apply IH in H as (Hc2 & k & Hk & Ha2 & Hb2 & Hstop & Hp2).
      split; [by eapply same_config_trans|]. exists (S k).
      destruct Hc1 as (_ & _ & _ & _ & Hsize & _).
      repeat split; try lia. right. destruct Hp2 as [->|Hp2]; [done|]. by rewrite <- Hsize.
Qed.

(** In a run of [evolve] the loop records one average and one best fitness
    for each generation that it starts; it starts all the generations asked
    for unless it ends in [break], and never does so before it has started
    101 of them.  The engine keeps its configuration, and its population is
    the one it had or has [population_size] schedules.  [evolve] returns a
    schedule of that population. *)
Theorem evolve_loop_shape (self : t) (generations : Z) (threshold : float)
    (σ : State) (st : loop) (σ' : State) :
  evolve_loop self generations threshold σ = Ok (st, σ') →
  let n := length (avg_fitness_history st) in
  same_config self (self_ st)
  ∧ length (best_fitness_history st) = n
  ∧ (n ≤ Z.to_nat generations)%nat
  ∧ (n = Z.to_nat generations ∨ (101 ≤ n)%nat)
  ∧ (population (self_ st) = population self
     ∨ length (population (self_ st)) = Z.to_nat (population_size self))
  ∧ ∀ best ga σ2,
      evolve self generations threshold σ = Ok ((best, ga), σ2) →
      ga = self_ st ∧ best ∈ population ga.
Proof.
  intros H n. unfold evolve_loop in H.
  pose proof (generations_from_shape _ _ _ _ _ _ _ H)
    as (Hc & k & Hk & Ha & Hb & Hstop & Hp).
  cbn in Ha, Hb, Hp, Hc. subst n. rewrite Ha, Hb.
  do 5 (split; [done || lia|]).
  intros best ga σ2 E. unfold evolve, evolve_loop in E. erewrite bind_eq in E by exact H.
  apply bind_Ok in E as (keyed & σ3 & Hkeyed & E).
  apply keyed_inv in Hkeyed as [_ Hfst].
  apply bind_Ok in E as (b & σ4 & Hmax & E). apply py_max_by_inv in Hmax as [_ Hin].
  injection E as <- <- _. by rewrite Hfst in Hin.
Qed.

Lemma short_loop_returns :
  outcome ((construct Inputs.small_engine ≫= λ ga, evolve_loop ga 2 0.01%float) empty_store)
  = None.
Proof. vm_compute. reflexivity. Qed.

Lemma evolve_loop_shape_witness :
  ∃ ga σ1 st σ2,
    construct Inputs.small_engine empty_store = Ok (ga, σ1)
    ∧ evolve_loop ga 2 0.01%float σ1 = Ok (st, σ2)
    ∧ length (avg_fitness_history st) = 2%nat
    ∧ length (best_fitness_history st) = 2%nat.
Proof.
  pose proof short_loop_returns as Hret.
  destruct ((construct Inputs.small_engine ≫= λ ga, evolve_loop ga 2 0.01%float) empty_store)
    as [[st σ2]|e] eqn:E; [|discriminate Hret].
  apply bind_Ok in E as (ga & σ1 & H1 & H2).
  exists ga, σ1, st, σ2. split; [exact H1|]. split; [exact H2|].
  destruct (evolve_loop_shape ga 2 0.01%float σ1 st σ2 H2) as (_ & Hb & Hle & Hn & _).
  assert (length (avg_fitness_history st) = 2%nat) as Hn2 by lia.
  rewrite Hb, Hn2. split; reflexivity.
Defined.

End LoopFacts.

(** ** The cache of the fitness and the domain of the items *)

Module CacheFacts.
Import GeneticAlgorithm EngineTerms EngineFacts MoreTerms StoreFacts OrderFacts.

Lemma no_object_inv self g : store_inv self (mkState [] [] g).
Proof. split; constructor. Qed.

Lemma empty_store_inv self : store_inv self empty_store.
Proof. split; constructor. Qed.

Lemma items_of_domain self σ s :
  store_inv self σ → Forall (in_domain self) (items_of σ s).
Proof.
  intros [H1 H2]. destruct (cache_coherent_lookup σ s H2) as [Hv _].
  unfold items_of, deref. apply Forall_fmap.
  eapply Forall_impl; [exact Hv|]. cbn. intros l Hl. by apply Forall_lookup_total_1.
Qed.

(** On a store where the caches are coherent, [get_fitness] of a schedule
    returns the fitness of the items of the schedule as they are, and
    leaves it in the cache; a second call returns the same value and
    changes nothing.  The items and the oracle are not touched. *)
Theorem get_fitness_cached (self : t) (s : nat) (σ : State) :
  store_inv self σ → (s < length (schedule_objs σ))%nat →
  ∃ σ', get_fitness s σ = Ok (Fitness.calculate_fitness (items_of σ s), σ')
        ∧ Schedule._fitness (schedule_objs σ' !!! s)
          = Some (Fitness.calculate_fitness (items_of σ s))
        ∧ get_fitness s σ' = Ok (Fitness.calculate_fitness (items_of σ s), σ')
        ∧ item_objs σ' = item_objs σ ∧ rng σ' = rng σ
        ∧ items_of σ' s = items_of σ s
        ∧ store_inv self σ'.
Proof.
  intros Hinv Hs.
  destruct (lookup_lt_is_Some_2 _ _ Hs) as [o Ho].
  pose proof (list_lookup_total_correct _ _ _ Ho) as Ht.
  assert (∃ f σ', get_fitness s σ = Ok (f, σ')
                  ∧ Schedule._fitness (schedule_objs σ' !!! s) = Some f) as (f & σ' & E & Hc).
  { unfold get_fitness. erewrite bind_eq by reflexivity. rewrite Ht.
    destruct (Schedule._fitness o) as [f0|] eqn:Ef.
    - exists f0, σ. by rewrite Ht.
    - eexists _, _. split; [reflexivity|]. cbn.
      rewrite list_lookup_total_alter_eq by done. done. }
  pose proof (get_fitness_store self _ _ _ _ Hinv E) as (Hinv' & -> & Hi & Hr & Hsch).
  exists σ'. split; [done|]. split; [done|]. split.
  { unfold get_fitness. erewrite bind_eq by reflexivity. by rewrite Hc. }
  split; [done|]. split; [done|]. split; [|done].
  unfold items_of, deref. rewrite Hi. f_equal.
  assert ((Schedule.items <$> schedule_objs σ') !!! s
          = (Schedule.items <$> schedule_objs σ) !!! s) as Hl by (by rewrite Hsch).
  rewrite !list_lookup_total_alt, !list_lookup_fmap in Hl.
  rewrite !list_lookup_total_alt.
  destruct (schedule_objs σ' !! s), (schedule_objs σ !! s); done.
Qed.

Lemma outcome_None_Ok {A} (r : result (A * State)) :
  outcome r = None → ∃ a σ, r = Ok (a, σ).
Proof. destruct r as [[a σ]|e]; [by exists a, σ | done]. Qed.

Lemma small_construct_returns : outcome (construct Inputs.small_engine empty_store) = None.
Proof. vm_compute. reflexivity. Qed.

Lemma get_fitness_cached_witness :
  ∃ ga σ s,
    construct Inputs.small_engine empty_store = Ok (ga, σ)
    ∧ store_inv Inputs.small_engine σ
    ∧ (s < length (schedule_objs σ))%nat
    ∧ ∃ σ', get_fitness s σ = Ok (Fitness.calculate_fitness (items_of σ s), σ')
            ∧ get_fitness s σ' = Ok (Fitness.calculate_fitness (items_of σ s), σ').
Proof.
  destruct (outcome_None_Ok _ small_construct_returns) as (ga & σ & E).
  destruct (construct_store _ _ _ _ (empty_store_inv Inputs.small_engine) E)
    as (Hinv & _ & Hlen & Hpop).
  unfold population_inv in Hpop. destruct (population ga) as [|s pop] eqn:Ep;
    [vm_compute in Hlen; discriminate Hlen|].
  apply Forall_cons in Hpop as [(Hs & _) _].
  exists ga, σ, s. split; [exact E|]. split; [exact Hinv|]. split; [exact Hs|].
  destruct (get_fitness_cached Inputs.small_engine s σ Hinv Hs) as (σ' & H1 & _ & H2 & _).
  exists σ'. split; [exact H1 | exact H2].
Defined.

(** The empty store has coherent caches and items of the domain, and every
    method of the engine keeps a store so: the constructor,
    [select_parent], [crossover], [mutate], [get_fitness] and [evolve].  No
    method writes to an item of a schedule whose fitness is in its cache,
    and every room, time slot and facilitator that a method gives to an
    item comes from the lists of the engine. *)
Theorem store_invariant (self : t) :
  (∀ g, store_inv self (mkState [] [] g))
  ∧ (∀ σ ga σ', store_inv self σ → construct self σ = Ok (ga, σ') → store_inv self σ')
  ∧ (∀ σ population parent σ',
       store_inv self σ → select_parent self population σ = Ok (parent, σ') →
       store_inv self σ')
  ∧ (∀ σ parent1 parent2 child σ',
       store_inv self σ → crossover self parent1 parent2 σ = Ok (child, σ') →
       store_inv self σ')
  ∧ (∀ σ schedule mutated σ',
       store_inv self σ → mutate self schedule σ = Ok (mutated, σ') → store_inv self σ')
  ∧ (∀ σ schedule f σ',
       store_inv self σ → get_fitness schedule σ = Ok (f, σ') → store_inv self σ')
  ∧ (∀ σ generations improvement_threshold best ga σ',
       store_inv self σ →
       evolve self generations improvement_threshold σ = Ok ((best, ga), σ') →
       store_inv self σ').
Proof.
  split; [apply no_object_inv|].
  split; [intros σ ga σ' Hinv H; by apply construct_store in H as [? _]|].
  split; [intros σ population parent σ'; apply select_parent_store|].
  split; [intros σ parent1 parent2 child σ'; apply crossover_store|].
  split; [intros σ schedule mutated σ'; apply mutate_store|].
  split; [intros σ schedule f σ' Hinv H; by apply (get_fitness_store self) in H as [? _]|].
  intros σ generations threshold best ga σ' Hinv H. by apply evolve_store in H as [? _].
Qed.

(** *** The result of a run *)

(** A short run: the engine on the dataset with a population of 5, built
    on the empty store and run for two generations. *)
Lemma short_run_returns :
  outcome ((construct Inputs.small_engine ≫= λ ga, evolve ga 2 0.01%float) empty_store)
  = None.
Proof. vm_compute. reflexivity. Qed.

Lemma short_run_steps :
  ∃ ga σ1 best ga' σ2,
    construct Inputs.small_engine empty_store = Ok (ga, σ1)
    ∧ evolve ga 2 0.01%float σ1 = Ok ((best, ga'), σ2).
Proof.
  destruct (outcome_None_Ok _ short_run_returns) as ([best ga'] & σ2 & E).
  apply bind_Ok in E as (ga & σ1 & H1 & H2).
  exists ga, σ1, best, ga', σ2. split; [exact H1 | exact H2].
Qed.

(** The engine built on a store with coherent caches and run: the schedule
    that [evolve] returns and the schedules of the last population hold rooms,
    time slots and facilitators of the lists given to the constructor, and
    activities of its list. *)
Theorem evolve_result_in_domain (self : t) (σ : State) (ga : t) (σ1 : State)
    (generations : Z) (improvement_threshold : float) (best : nat) (ga' : t) (σ2 : State) :
  store_inv self σ →
  construct self σ = Ok (ga, σ1) →
  evolve ga generations improvement_threshold σ1 = Ok ((best, ga'), σ2) →
  Forall (in_domain self) (items_of σ2 best)
  ∧ Forall (λ s, Forall (in_domain self) (items_of σ2 s)) (population ga')
  ∧ Forall (in_domain self) (item_objs σ2).
Proof.
  intros Hinv Hc He.
  apply construct_store in Hc as (Hinv1 & Hcfg & _); [|done].
  apply (store_inv_config _ ga) in Hinv1; [|done].
  apply evolve_store in He as (Hinv2 & _); [|done].
  apply (store_inv_config _ self) in Hinv2; [|by apply same_config_sym].
  split; [by apply items_of_domain|]. split; [|by destruct Hinv2].
  apply Forall_forall. intros s _. by apply items_of_domain.
Qed.

Lemma evolve_result_in_domain_witness :
  ∃ ga σ1 best ga' σ2,
    construct Inputs.small_engine empty_store = Ok (ga, σ1)
    ∧ evolve ga 2 0.01%float σ1 = Ok ((best, ga'), σ2)
    ∧ Forall (in_domain Inputs.small_engine) (items_of σ2 best).
Proof.
  destruct short_run_steps as (ga & σ1 & best & ga' & σ2 & H1 & H2).
  exists ga, σ1, best, ga', σ2. split; [exact H1|]. split; [exact H2|].
  exact (proj1 (evolve_result_in_domain Inputs.small_engine _ _ _ _ _ _ _ _
                  (empty_store_inv _) H1 H2)).
Defined.

(** [evolve] returns a fittest schedule of its last population: a schedule
    of that population such that no schedule of the population has a
    greater fitness, the fitness being that of the items as they are when
    [evolve] returns. *)
Theorem evolve_returns_fittest (self : t) (generations : Z) (improvement_threshold : float)
    (σ : State) (best : nat) (ga : t) (σ' : State) :
  store_inv self σ →
  evolve self generations improvement_threshold σ = Ok ((best, ga), σ') →
  best ∈ population ga
  ∧ Forall (λ s, PrimFloat.ltb (Fitness.calculate_fitness (items_of σ' best))
                               (Fitness.calculate_fitness (items_of σ' s)) = false)
           (population ga).
Proof.
  intros Hinv H. apply evolve_store in H as (_ & _ & Hmax); [|done].
  apply py_max_by_greatest in Hmax as (k & Hin & Hmax).
  apply list_elem_of_fmap in Hin as (s & [= <- ->] & Hin). split; [done|].
  apply Forall_forall. intros s Hs.
  apply (Hmax (s, Fitness.calculate_fitness (items_of σ' s))).
  apply list_elem_of_fmap. by exists s.
Qed.

Lemma evolve_returns_fittest_witness :
  ∃ ga σ1 best ga' σ2,
    construct Inputs.small_engine empty_store = Ok (ga, σ1)
    ∧ store_inv ga σ1
    ∧ evolve ga 2 0.01%float σ1 = Ok ((best, ga'), σ2)
    ∧ best ∈ population ga'.
Proof.
  destruct short_run_steps as (ga & σ1 & best & ga' & σ2 & H1 & H2).
  assert (store_inv ga σ1) as Hinv.
  { pose proof (construct_store _ _ _ _ (empty_store_inv _) H1) as (Hinv & Hcfg & _).
    exact (store_inv_config _ ga _ Hcfg Hinv). }
  exists ga, σ1, best, ga', σ2. split; [exact H1|]. split; [exact Hinv|].
  split; [exact H2|].
  exact (proj1 (evolve_returns_fittest ga 2 0.01%float σ1 best ga' σ2 Hinv H2)).
Defined.

End CacheFacts.

(** ** The exceptions of the engine *)

Module ErrorFacts.
Import GeneticAlgorithm EngineTerms EngineFacts MoreTerms StoreFacts LoopFacts.

Lemma safe_bind {A B} (m : M A) (f : A → M B) σ :
  index_safe (m σ) → (∀ a σ1, m σ = Ok (a, σ1) → index_safe (f a σ1)) →
  index_safe ((m ≫= f) σ).
Proof.
  unfold index_safe, mbind, M_bind. destruct (m σ) as [[a σ1]|e]; [|done].
  intros _ Hf. by apply Hf.
Qed.

Lemma safe_Ok {A} (x : A) σ : index_safe (Ok (x, σ)).
Proof. done. Qed.

Lemma mapM_safe {A B} (f : A → M B) (l : list A) :
  (∀ x σ, x ∈ l → index_safe (f x σ)) → ∀ σ, index_safe (mapM f l σ).
Proof.
  induction l as [|x l IH]; intros Hf σ; [done|]. rewrite mapM_cons.
  apply safe_bind; [apply Hf; by left|]. intros y σ1 _.
  apply safe_bind; [|done]. apply IH. intros ?? Hx. apply Hf. by right.
Qed.

Lemma repeatM_safe {A} (body : M A) (n : nat) :
  (∀ σ, index_safe (body σ)) → ∀ σ, index_safe (repeatM n body σ).
Proof.
  intros Hbody. induction n as [|n IH]; intros σ; [done|]. cbn.
  apply safe_bind; [done|]. intros y σ1 _. by apply safe_bind.
Qed.

Lemma get_fitness_safe s σ : index_safe (get_fitness s σ).
Proof.
  unfold get_fitness. apply safe_bind; [done|]. intros o σ1 _.
  by destruct (Schedule._fitness o).
Qed.

Lemma with_fitness_safe s σ : index_safe (with_fitness s σ).
Proof. unfold with_fitness. apply safe_bind; [apply get_fitness_safe | done]. Qed.

Lemma py_max_by_safe {A} (l : list (A * float)) σ : index_safe (py_max_by l σ).
Proof. by destruct l. Qed.

Lemma py_truediv_safe a b σ : index_safe (py_truediv a b σ).
Proof. unfold py_truediv. by destruct (PrimFloat.eqb _ _). Qed.

(** The draws of [random.sample] fall in the pool. *)
Lemma sample_pool_safe {A} (k : nat) : ∀ (pool : list A) σ,
  (k ≤ length pool)%nat → index_safe (sample_pool pool k σ).
Proof.
  induction k as [|k IH]; intros pool σ Hk; [done|]. cbn [sample_pool].
  apply safe_bind; [done|]. intros j σ1 Hj.
  rewrite randbelow_eq in Hj. injection Hj as Hj <-.
  assert (j < length pool)%nat as Hlt.
  { rewrite <- Hj. apply (randbelow_lt (length pool) σ). lia. }
  clear Hj. destruct (lookup_lt_is_Some_2 pool j Hlt) as [x ->].
  destruct (last pool) as [y|] eqn:Hy.
  - apply safe_bind; [|done]. apply IH. rewrite length_take, length_insert. lia.
  - apply last_None in Hy. subst pool. cbn in Hk. lia.
Qed.

Lemma select_parent_safe self population σ : index_safe (select_parent self population σ).
Proof.
  unfold select_parent, random_sample. apply safe_bind.
  - case_bool_decide; [done|]. apply sample_pool_safe. lia.
  - intros tournament σ1 _. apply safe_bind; [|intros; apply py_max_by_safe].
    apply mapM_safe. intros. apply with_fitness_safe.
Qed.

Lemma crossover_safe self parent1 parent2 σ : index_safe (crossover self parent1 parent2 σ).
Proof.
  unfold crossover. apply safe_bind.
  - unfold random_randint. case_bool_decide; [done|]. by apply safe_bind.
  - intros c σ1 _. apply safe_bind; [done|]. intros p1 σ2 _. by apply safe_bind.
Qed.

Lemma deepcopy_items_safe refs : ∀ memo σ, index_safe (deepcopy_items memo refs σ).
Proof.
  induction refs as [|l refs IH]; intros memo σ; [done|]. cbn [deepcopy_items].
  destruct (memo !! l).
  - apply safe_bind; [apply IH | done].
  - apply safe_bind; [done|]. intros σ0 σ1 _. apply safe_bind; [done|].
    intros l' σ2 _. apply safe_bind; [apply IH | done].
Qed.

Lemma random_choice_safe {A} (seq : list A) σ : seq ≠ [] → index_safe (random_choice seq σ).
Proof. intros Hne. by destruct (random_choice_eq seq σ Hne) as (x & _ & ->). Qed.

Section NonEmptyDomain.
Context (self : t).
Hypothesis some_room : rooms self ≠ [].
Hypothesis some_time_slot : time_slots self ≠ [].
Hypothesis some_facilitator : facilitators self ≠ [].

Lemma mutate_item_safe l σ : index_safe (mutate_item self l σ).
Proof using some_room some_time_slot some_facilitator.
  unfold mutate_item. apply safe_bind; [done|]. intros x σ1 _.
  destruct (PrimFloat.ltb _ _); [|done].
  apply safe_bind; [by apply random_choice_safe|]. intros ty σ2 _.
  repeat case_bool_decide; (apply safe_bind; [by apply random_choice_safe | done]).
Qed.

Lemma mutate_safe s σ : index_safe (mutate self s σ).
Proof using some_room some_time_slot some_facilitator.
  unfold mutate. apply safe_bind; [done|]. intros o σ1 _.
  apply safe_bind; [apply deepcopy_items_safe|]. intros refs σ2 _.
  apply safe_bind; [|done]. apply mapM_safe. intros. apply mutate_item_safe.
Qed.

Lemma offspring_safe σ : index_safe (offspring self σ).
Proof using some_room some_time_slot some_facilitator.
  unfold offspring. apply safe_bind; [apply select_parent_safe|]. intros p1 σ1 _.
  apply safe_bind; [apply select_parent_safe|]. intros p2 σ2 _.
  apply safe_bind; [apply crossover_safe|]. intros c σ3 _. apply mutate_safe.
Qed.
End NonEmptyDomain.

Lemma evaluate_safe self σ : index_safe (evaluate self σ).
Proof.
  unfold evaluate. apply safe_bind.
  { apply mapM_safe. intros. apply get_fitness_safe. }
  intros fs σ1 _. apply safe_bind; [apply py_truediv_safe|]. intros avg σ2 _.
  apply safe_bind; [apply py_max_by_safe | done].
Qed.

Lemma py_index_from_end_safe {A} (l : list A) (k : nat) σ :
  (1 ≤ k ≤ length l)%nat → index_safe (py_index_from_end l k σ).
Proof.
  intros Hk. unfold py_index_from_end. rewrite bool_decide_eq_true_2 by lia.
  destruct (lookup_lt_is_Some_2 l (length l - k)) as [x ->]; [lia | done].
Qed.

(** The history is long enough for [avg_fitness_history[-100]]. *)
Lemma converged_safe history threshold σ :
  (100 ≤ length history)%nat → index_safe (converged history threshold σ).
Proof.
  intros Hlen. unfold converged.
  apply safe_bind; [apply py_index_from_end_safe; lia|]. intros latest σ1 _.
  apply safe_bind; [apply py_index_from_end_safe; lia|]. intros reference σ2 _.
  apply safe_bind; [apply py_truediv_safe | done].
Qed.

Lemma generation_safe threshold gen st σ :
  rooms (self_ st) ≠ [] → time_slots (self_ st) ≠ [] → facilitators (self_ st) ≠ [] →
  0 ≤ gen → length (avg_fitness_history st) = Z.to_nat gen →
  index_safe (generation threshold gen st σ).
Proof.
  intros Hr Ht Hf Hgen Hlen. unfold generation.
  apply safe_bind; [apply evaluate_safe|]. intros [avg best] σ1 _.
  apply safe_bind.
  - case_bool_decide; [|done]. apply converged_safe. rewrite length_app, Hlen. cbn. lia.
  - intros [] σ2 _; [done|]. apply safe_bind; [|done].
    apply repeatM_safe. intros. by apply offspring_safe.
Qed.

Lemma generations_from_safe threshold n : ∀ gen st σ,
  rooms (self_ st) ≠ [] → time_slots (self_ st) ≠ [] → facilitators (self_ st) ≠ [] →
  0 ≤ gen → length (avg_fitness_history st) = Z.to_nat gen →
  index_safe (generations_from threshold n gen st σ).
Proof.
  induction n as [|n IH]; intros gen st σ Hr Ht Hf Hgen Hlen; [done|].
  cbn [generations_from]. apply safe_bind; [by apply generation_safe|].
  intros [st1 stop] σ1 H. destruct stop; [done|].
  apply generation_shape in H as ((_ & Hr1 & Ht1 & Hf1 & _) & Ha & _).
  apply IH; try congruence; lia.
Qed.

(** On an engine that has a room, a time slot and a facilitator, [evolve]
    never raises [IndexError]: the draws of [random.sample] and of
    [random.choice] fall in their sequences, and the history is long enough
    for [avg_fitness_history[-100]] whenever the convergence test reads it.
    The exceptions left are [ValueError] and [ZeroDivisionError]. *)
Theorem evolve_never_index_error (self : t) (generations : Z)
    (improvement_threshold : float) (σ : State) :
  rooms self ≠ [] → time_slots self ≠ [] → facilitators self ≠ [] →
  outcome (evolve self generations improvement_threshold σ) ≠ Some IndexError
  ∧ (outcome (evolve self generations improvement_threshold σ) = None
     ∨ outcome (evolve self generations improvement_threshold σ) = Some ValueError
     ∨ outcome (evolve self generations improvement_threshold σ) = Some ZeroDivisionError).
Proof.
  intros Hr Ht Hf.
  assert (index_safe (evolve self generations improvement_threshold σ)) as Hsafe.
  { unfold evolve, evolve_loop. apply safe_bind; [by apply generations_from_safe|].
    intros st σ1 _. apply safe_bind.
    - apply mapM_safe. intros. apply with_fitness_safe.
    - intros keyed σ2 _. apply safe_bind; [apply py_max_by_safe | done]. }
  split; [exact Hsafe|]. unfold index_safe in Hsafe.
  destruct (evolve _ _ _ _) as [?|[]]; cbn in *; auto. done.
Qed.

Lemma evolve_never_index_error_witness :
  rooms Inputs.small_engine ≠ [] ∧ time_slots Inputs.small_engine ≠ []
  ∧ facilitators Inputs.small_engine ≠ []
  ∧ outcome (evolve Inputs.small_engine 2 0.01%float empty_store) ≠ Some IndexError.
Proof.
  assert (rooms Inputs.small_engine ≠ []) as Hr by done.
  assert (time_slots Inputs.small_engine ≠ []) as Ht by done.
  assert (facilitators Inputs.small_engine ≠ []) as Hf by done.
  split; [exact Hr|]. split; [exact Ht|]. split; [exact Hf|].
  exact (proj1 (evolve_never_index_error Inputs.small_engine 2 0.01%float
                  empty_store Hr Ht Hf)).
Defined.

End ErrorFacts.

(** ** Selection and breeding *)

Module BreedingFacts.
Import GeneticAlgorithm EngineTerms EngineFacts MoreTerms StoreFacts OrderFacts.

Lemma get_fitness_Ok s σ : ∃ f σ', get_fitness s σ = Ok (f, σ').
Proof.
  unfold get_fitness. erewrite bind_eq by reflexivity.
  destruct (Schedule._fitness _); by eexists _, _.
Qed.

Lemma with_fitness_Ok s σ : ∃ p σ', with_fitness s σ = Ok (p, σ').
Proof.
  unfold with_fitness. destruct (get_fitness_Ok s σ) as (f & σ' & E).
  erewrite bind_eq by exact E. by eexists _, _.
Qed.

Lemma sample_pool_Ok {A} (k : nat) : ∀ (pool : list A) σ,
  (k ≤ length pool)%nat →
  ∃ xs σ', sample_pool pool k σ = Ok (xs, σ') ∧ length xs = k.
Proof.
  induction k as [|k IH]; intros pool σ Hk; [by exists [], σ|]. cbn [sample_pool].
  erewrite bind_eq by apply randbelow_eq.
  set (j := (Random.randbelow (length pool) (rng σ)).1).
  assert (j < length pool)%nat as Hlt by (apply randbelow_lt; lia).
  destruct (lookup_lt_is_Some_2 pool j Hlt) as [x ->].
  destruct (last pool) as [y|] eqn:Hy.
  - destruct (IH (take (length pool - 1) (<[j:=y]> pool)) (drawn σ))
      as (rest & σ' & E & Hlen).
    { rewrite length_take, length_insert. lia. }
    erewrite bind_eq by exact E. exists (x :: rest), σ'. split; [done|]. cbn. by rewrite Hlen.
  - apply last_None in Hy. subst pool. cbn in Hk. lia.
Qed.

Lemma same_objects_items_of σ σ' s :
  same_objects σ σ' → items_of σ' s = items_of σ s.
Proof.
  intros [Hi Hs]. unfold items_of, deref. rewrite Hi. f_equal.
  assert ((Schedule.items <$> schedule_objs σ') !!! s
          = (Schedule.items <$> schedule_objs σ) !!! s) as Hl by (by rewrite Hs).
  rewrite !list_lookup_total_alt, !list_lookup_fmap in Hl.
  rewrite !list_lookup_total_alt.
  destruct (schedule_objs σ' !! s), (schedule_objs σ !! s); done.
Qed.

Lemma select_parent_Ok self population σ :
  (5 ≤ length population)%nat → ∃ s σ', select_parent self population σ = Ok (s, σ').
Proof.
  intros Hlen. unfold select_parent, random_sample.
  rewrite bool_decide_eq_false_2 by (unfold tournament_size; lia).
  destruct (sample_pool_Ok tournament_size population σ Hlen) as (xs & σ1 & E1 & Hxs).
  erewrite bind_eq by exact E1.
  destruct (RunFacts.mapM_total with_fitness xs (λ _, with_fitness_Ok) σ1)
    as (keyed & σ2 & E2).
  erewrite bind_eq by exact E2.
  apply keyed_inv in E2 as [_ Hfst].
  destruct keyed as [|p keyed]; [by destruct xs|]. by eexists _, _.
Qed.

(** [select_parent] needs 5 schedules: with fewer [random.sample] raises
    [ValueError].  With 5 to 21 schedules, where [random.sample] takes its
    sample from a pool, it returns.  The schedule that it returns is then
    one of the tournament that [random.sample] drew, 5 schedules of the
    population, and no item is written; on a store with coherent caches it
    is the first schedule of the tournament of greatest fitness: none of
    the 5 has a greater fitness, and none before it has one as great. *)
Theorem select_parent_tournament (self : t) (population : list nat) (σ : State) :
  ((length population < 5)%nat → select_parent self population σ = Raise ValueError)
  ∧ ((5 ≤ length population ≤ 21)%nat →
     ∃ parent σ', select_parent self population σ = Ok (parent, σ'))
  ∧ ((length population ≤ 21)%nat → ∀ parent σ',
       select_parent self population σ = Ok (parent, σ') →
       ∃ tournament σ1 i,
         random_sample population tournament_size σ = Ok (tournament, σ1)
         ∧ length tournament = 5%nat
         ∧ Forall (λ s, s ∈ population) tournament
         ∧ tournament !! i = Some parent
         ∧ item_objs σ' = item_objs σ
         ∧ (store_inv self σ →
            let fitness s := Fitness.calculate_fitness (items_of σ s) in
            Forall (λ s, PrimFloat.ltb (fitness parent) (fitness s) = false) tournament
            ∧ ∀ j s, (j < i)%nat → tournament !! j = Some s →
                     PrimFloat.leb (fitness parent) (fitness s) = false)).
Proof.
  split; [|split].
  - intros Hlen. unfold select_parent, random_sample, tournament_size.
    by rewrite bool_decide_eq_true_2 by done.
  - intros [Hlen _]. by apply select_parent_Ok.
  - intros _ parent σ' H. pose proof (select_parent_inv _ _ _ _ _ H) as [[Hobjs _] _].
    unfold select_parent in H.
    apply bind_Ok in H as (tournament & σ1 & Ht & H).
    assert (length tournament = 5%nat ∧ same_objects σ σ1
            ∧ Forall (λ s, s ∈ population) tournament
            ∧ (store_inv self σ → store_inv self σ1)) as (Hlen & Hsame1 & Hin & Hinv1).
    { unfold random_sample in Ht. case_bool_decide as Hlen; [done|].
      destruct (sample_pool_Ok tournament_size population σ) as (xs & σ1' & E & Hxs);
        [lia|].
      rewrite E in Ht. injection Ht as <- <-.
      pose proof (sample_pool_inv _ _ _ _ _ E) as [Hsame1 Hin].
      pose proof (sample_pool_store _ _ _ _ _ E) as [Hi Hs].
      do 3 (split; [done|]). intros Hinv. by eapply store_inv_same. }
    apply bind_Ok in H as (keyed & σ2 & Hk & H).
    pose proof (keyed_inv _ _ _ _ Hk) as [Hsame2 Hfst].
    assert (∀ s, items_of σ2 s = items_of σ s) as Hitems.
    { intros s'. apply same_objects_items_of. by eapply same_objects_trans. }
    apply py_max_by_first in H as (i & k & Hi & Hmax & Hfirst).
    exists tournament, σ1, i. split; [done|]. split; [done|]. split; [done|].
    split.
    { rewrite <- Hfst, list_lookup_fmap, Hi. done. }
    split; [done|]. intros Hinv fitness.
    apply (keyed_store self) in Hk as [_ ->]; [|by apply Hinv1].
    apply list_lookup_fmap_Some in Hi as (s & [= <- ->] & Hi). split.
    + apply Forall_forall. intros s' Hs'. unfold fitness. rewrite <- !Hitems.
      apply (Hmax (s', Fitness.calculate_fitness (items_of σ2 s'))).
      apply list_elem_of_fmap. by exists s'.
    + intros j s' Hj Hs'. unfold fitness. rewrite <- !Hitems.
      apply (Hfirst j (s', Fitness.calculate_fitness (items_of σ2 s')) Hj).
      by rewrite list_lookup_fmap, Hs'.
Qed.

Lemma select_parent_tournament_witness :
  ∃ ga σ parent σ' tournament σ1 i,
    construct Inputs.small_engine empty_store = Ok (ga, σ)
    ∧ (5 ≤ length (population ga) ≤ 21)%nat
    ∧ select_parent ga (population ga) σ = Ok (parent, σ')
    ∧ random_sample (population ga) tournament_size σ = Ok (tournament, σ1)
    ∧ tournament !! i = Some parent.
Proof.
  destruct (CacheFacts.outcome_None_Ok _ CacheFacts.small_construct_returns)
    as (ga & σ & E).
  destruct (construct_store _ _ _ _ (CacheFacts.empty_store_inv Inputs.small_engine) E)
    as (_ & _ & Hlen & _).
  assert (5 ≤ length (population ga) ≤ 21)%nat as Hsize
    by (rewrite Hlen; vm_compute; lia).
  destruct (select_parent_tournament ga (population ga) σ) as (_ & Hok & Htour).
  destruct (Hok Hsize) as (parent & σ' & Hsel).
  destruct (Htour (proj2 Hsize) parent σ' Hsel)
    as (tournament & σ1 & i & Hsample & _ & _ & Hi & _).
  exists ga, σ, parent, σ', tournament, σ1, i.
  split; [exact E|]. split; [exact Hsize|]. split; [exact Hsel|].
  split; [exact Hsample | exact Hi].
Defined.

(** *** One child *)

Lemma deepcopy_items_Ok refs : ∀ memo σ, ∃ refs' σ', deepcopy_items memo refs σ = Ok (refs', σ').
Proof.
  induction refs as [|l refs IH]; intros memo σ; [by exists [], σ|]. cbn [deepcopy_items].
  destruct (memo !! l) as [l'|].
  - destruct (IH memo σ) as (rest & σ' & E). erewrite bind_eq by exact E. by eexists _, _.
  - do 2 (erewrite bind_eq by reflexivity; cbv beta).
    destruct (IH (<[l:=length (item_objs σ)]> memo)
                 (mkState (item_objs σ ++ [item_objs σ !!! l]) (schedule_objs σ) (rng σ)))
      as (rest & σ' & E).
    erewrite bind_eq by exact E. by eexists _, _.
Qed.

Lemma mutate_item_Ok self l σ :
  rooms self ≠ [] → time_slots self ≠ [] → facilitators self ≠ [] →
  ∃ σ', mutate_item self l σ = Ok (tt, σ').
Proof.
  intros Hr Ht Hf. unfold mutate_item. erewrite bind_eq by apply random_random_eq.
  destruct (PrimFloat.ltb _ _); [|by eexists].
  destruct (random_choice_eq ["room"; "time"; "facilitator"] (drawn σ)) as (ty & _ & E);
    [done|].
  erewrite bind_eq by exact E.
  repeat case_bool_decide.
  - destruct (random_choice_eq (rooms self) (drawn (drawn σ)) Hr) as (r & _ & E').
    erewrite bind_eq by exact E'. by eexists.
  - destruct (random_choice_eq (time_slots self) (drawn (drawn σ)) Ht) as (r & _ & E').
    erewrite bind_eq by exact E'. by eexists.
  - destruct (random_choice_eq (facilitators self) (drawn (drawn σ)) Hf) as (r & _ & E').
    erewrite bind_eq by exact E'. by eexists.
Qed.

Lemma mutate_Ok self s σ :
  rooms self ≠ [] → time_slots self ≠ [] → facilitators self ≠ [] →
  ∃ s' σ', mutate self s σ = Ok (s', σ').
Proof.
  intros Hr Ht Hf. unfold mutate. erewrite bind_eq by reflexivity.
  destruct (deepcopy_items_Ok (Schedule.items (schedule_objs σ !!! s)) ∅ σ)
    as (refs' & σ1 & E1).
  erewrite bind_eq by exact E1.
  destruct (RunFacts.mapM_total (mutate_item self) refs') with (σ := σ1) as (us & σ2 & E2).
  { intros _ l σ0. destruct (mutate_item_Ok self l σ0 Hr Ht Hf) as (σ' & E).
    by exists tt, σ'. }
  erewrite bind_eq by exact E2. by eexists _, _.
Qed.

Lemma offspring_Ok self σ :
  (5 ≤ length (population self))%nat → (2 ≤ length (activities self))%nat →
  rooms self ≠ [] → time_slots self ≠ [] → facilitators self ≠ [] →
  ∃ child σ', offspring self σ = Ok (child, σ').
Proof.
  intros Hpop HK Hr Ht Hf. unfold offspring.
  destruct (select_parent_Ok self (population self) σ Hpop) as (p1 & σ1 & E1).
  erewrite bind_eq by exact E1.
  destruct (select_parent_Ok self (population self) σ1 Hpop) as (p2 & σ2 & E2).
  erewrite bind_eq by exact E2.
  pose proof (crossover_eq self p1 p2 σ2 HK) as E3. cbn zeta in E3.
  unfold new_schedule in E3 at 1.
  erewrite bind_eq by exact E3. apply mutate_Ok; done.
Qed.

Lemma offspring_small self σ :
  (length (population self) < 5)%nat ∨ (length (activities self) < 2)%nat →
  offspring self σ = Raise ValueError.
Proof.
  intros Hsmall. unfold offspring.
  destruct (decide (length (population self) < 5)%nat) as [Hpop|Hpop].
  { apply bind_Raise. unfold select_parent, random_sample, tournament_size.
    by rewrite bool_decide_eq_true_2 by done. }
  destruct (select_parent_Ok self (population self) σ) as (p1 & σ1 & E1); [lia|].
  erewrite bind_eq by exact E1.
  destruct (select_parent_Ok self (population self) σ1) as (p2 & σ2 & E2); [lia|].
  erewrite bind_eq by exact E2.
  apply bind_Raise. unfold crossover. apply bind_Raise. unfold random_randint.
  rewrite bool_decide_eq_true_2; [done|]. lia.
Qed.

Lemma deepcopy_items_schedules refs : ∀ memo σ refs' σ',
  deepcopy_items memo refs σ = Ok (refs', σ') → schedule_objs σ' = schedule_objs σ.
Proof.
  induction refs as [|l refs IH]; intros memo σ refs' σ' H.
  - by injection H as _ <-.
  - cbn [deepcopy_items] in H. destruct (memo !! l).
    + apply bind_Ok in H as (rest & σ1 & Hrest & H). injection H as _ <-.
      by eapply IH.
    + apply bind_Ok in H as (σ0 & σ1 & Hget & H). injection Hget as <- <-.
      apply bind_Ok in H as (l' & σ1 & Hnew & H). injection Hnew as <- <-.
      apply bind_Ok in H as (rest & σ2 & Hrest & H). injection H as _ <-.
      by apply IH in Hrest.
Qed.

(** A breeding step makes two [Schedule] objects, the child of
    [crossover] and its mutated copy, which it returns. *)
Lemma offspring_fresh self σ child σ' :
  offspring self σ = Ok (child, σ') →
  child = S (length (schedule_objs σ))
  ∧ length (schedule_objs σ') = S (S (length (schedule_objs σ))).
Proof.
  unfold offspring. intros H.
  apply bind_Ok in H as (p1 & σ1 & Hp1 & H). apply select_parent_inv in Hp1 as [[_ Hs1] _].
  apply bind_Ok in H as (p2 & σ2 & Hp2 & H). apply select_parent_inv in Hp2 as [[_ Hs2] _].
  apply bind_Ok in H as (c & σ3 & Hc & H). apply crossover_inv in Hc as (_ & _ & _ & Hs3).
  apply mutate_inv in H as (refs' & σa & σb & us & Hcopy & Hloop & -> & ->).
  apply (mutate_loop_frame self 0) in Hloop as (_ & _ & _ & ->);
    [|apply Forall_true; intros; lia].
  apply deepcopy_items_schedules in Hcopy as ->.
  assert (length (schedule_objs σ2) = length (schedule_objs σ)) as Hlen.
  { rewrite <- (length_fmap Schedule.items (schedule_objs σ2)), Hs2, Hs1.
    apply length_fmap. }
  cbn. rewrite !length_app, Hs3, length_app, Hlen. cbn. lia.
Qed.

(** One breeding step of [evolve] (two [select_parent], [crossover],
    [mutate]) raises [ValueError] when the population has fewer than 5
    schedules, the size of the tournament, or, the tournaments drawn, when
    the engine has fewer than 2 activities, the range of the cut point being
    empty.  With 5 to 21 schedules, where [random.sample] takes its sample
    from a pool, at least 2 activities, a room, a time slot and a
    facilitator, it returns a child.  When the schedules of the population
    have one item for each activity, so has the child, and the objects of
    the store stay as they were. *)
Theorem offspring_requirements (self : t) (σ : State) :
  ((length (population self) < 5)%nat
   ∨ ((length (population self) ≤ 21)%nat ∧ (length (activities self) < 2)%nat) →
   offspring self σ = Raise ValueError)
  ∧ ((5 ≤ length (population self) ≤ 21)%nat → (2 ≤ length (activities self))%nat →
     rooms self ≠ [] → time_slots self ≠ [] → facilitators self ≠ [] →
     ∃ child σ', offspring self σ = Ok (child, σ'))
  ∧ (population_inv self σ → ∀ child σ',
       offspring self σ = Ok (child, σ') →
       extends σ σ' ∧ schedule_inv self σ' child
       ∧ (length (schedule_objs σ) < child)%nat).
Proof.
  split; [|split].
  - intros [Hpop|[_ HK]]; apply offspring_small; auto.
  - intros [Hpop _]. by apply offspring_Ok.
  - intros Hinv child σ' H. pose proof (offspring_inv _ _ _ _ Hinv H) as [Hext Hchild].
    split; [done|]. split; [done|]. apply offspring_fresh in H as [-> _]. lia.
Qed.

Lemma offspring_requirements_witness :
  ∃ ga σ,
    construct Inputs.small_engine empty_store = Ok (ga, σ)
    ∧ (5 ≤ length (population ga) ≤ 21)%nat
    ∧ population_inv ga σ
    ∧ ∃ child σ', offspring ga σ = Ok (child, σ') ∧ schedule_inv ga σ' child.
Proof.
  destruct (CacheFacts.outcome_None_Ok _ CacheFacts.small_construct_returns)
    as (ga & σ & E).
  destruct (construct_store _ _ _ _ (CacheFacts.empty_store_inv Inputs.small_engine) E)
    as (_ & (Ha & Hr & Ht & Hf & _) & Hlen & Hpop).
  assert (5 ≤ length (population ga) ≤ 21)%nat as Hsize
    by (rewrite Hlen; vm_compute; lia).
  exists ga, σ. split; [exact E|]. split; [exact Hsize|]. split; [exact Hpop|].
  destruct (offspring_requirements ga σ) as (_ & Hok & Hinv).
  destruct Hok as (child & σ' & E').
  - exact Hsize.
  - rewrite Ha. vm_compute. lia.
  - by rewrite Hr.
  - by rewrite Ht.
  - by rewrite Hf.
  - exists child, σ'. split; [exact E'|]. exact (proj1 (proj2 (Hinv Hpop child σ' E'))).
Defined.

(** *** No schedule *)

(** With a population size of zero or less the constructor makes no
    schedule and draws nothing; [evolve] on that engine raises
    [ZeroDivisionError] in its first generation, the average of no fitness,
    and with no generation to run it raises [ValueError], the [max] of
    nothing. *)
Theorem empty_population_fails (self : t) (generations : Z) (improvement_threshold : float)
    (σ : State) :
  population_size self ≤ 0 →
  ∃ ga, construct self σ = Ok (ga, σ) ∧ population ga = []
        ∧ evolve ga generations improvement_threshold σ
          = Raise (if decide (1 ≤ generations) then ZeroDivisionError else ValueError).
Proof.
  intros Hsize.
  assert (Z.to_nat (population_size self) = 0%nat) as Hz by lia.
  exists (mk (activities self) (rooms self) (time_slots self) (facilitators self)
            (population_size self) (mutation_rate self) []).
  split.
  { unfold construct, init, initialize_population. cbn [population_size].
    rewrite Hz. reflexivity. }
  split; [done|]. unfold evolve, evolve_loop.
  case_decide as Hgen.
  - destruct (Z.to_nat generations) as [|n] eqn:E; [lia|]. reflexivity.
  - replace (Z.to_nat generations) with 0%nat by lia. reflexivity.
Qed.

Lemma empty_population_fails_witness :
  population_size (mk Data.activities Data.rooms Data.time_slots Data.facilitators
                      0 0.01%float []) ≤ 0
  ∧ ∃ ga, construct (mk Data.activities Data.rooms Data.time_slots Data.facilitators
                        0 0.01%float []) empty_store = Ok (ga, empty_store)
          ∧ evolve ga 500 0.01%float empty_store = Raise ZeroDivisionError.
Proof.
  assert (population_size (mk Data.activities Data.rooms Data.time_slots Data.facilitators
                             0 0.01%float []) ≤ 0) as Hsize by (cbn; lia).
  split; [exact Hsize|].
  destruct (empty_population_fails _ 500 0.01%float empty_store Hsize) as (ga & H1 & _ & H2).
  exists ga. split; [exact H1 | exact H2].
Defined.

(** *** Fewer schedules than the tournament takes *)

Lemma mapM_length {A B} (f : A → M B) (l : list A) : ∀ σ ys σ',
  mapM f l σ = Ok (ys, σ') → length ys = length l.
Proof.
  induction l as [|x l IH]; intros σ ys σ' H.
  - by injection H as <- _.
  - rewrite mapM_cons in H. apply bind_Ok in H as (y & σ1 & Hy & H).
    apply bind_Ok in H as (ys' & σ2 & Hys & H). injection H as <- _.
    cbn. by rewrite (IH _ _ _ Hys).
Qed.

Lemma evaluate_few self σ :
  (1 ≤ length (population self) < 5)%nat → ∃ r σ', evaluate self σ = Ok (r, σ').
Proof.
  intros Hlen. unfold evaluate.
  destruct (RunFacts.mapM_total get_fitness (population self) (λ _, get_fitness_Ok) σ)
    as (fs & σ1 & E).
  erewrite bind_eq by exact E. apply mapM_length in E.
  assert (PrimFloat.eqb (float_of_nat (length fs)) 0 = false) as Hdiv.
  { rewrite E. destruct (length (population self)) as [|[|[|[|[|n]]]]]; try lia; reflexivity. }
  unfold py_truediv. rewrite Hdiv. erewrite bind_eq by reflexivity.
  destruct fs as [|f fs]; [cbn in E; lia|]. by eexists _, _.
Qed.

(** An engine with 1 to 4 schedules, fewer than a tournament takes, and a
    population size of at least 1 cannot run a generation: [evolve] raises
    [ValueError], from [random.sample], in its first generation. *)
Theorem small_population_fails (self : t) (generations : Z)
    (improvement_threshold : float) (σ : State) :
  (1 ≤ length (population self) < 5)%nat → 1 ≤ population_size self → 1 ≤ generations →
  evolve self generations improvement_threshold σ = Raise ValueError.
Proof.
  intros Hlen Hsize Hgen. unfold evolve, evolve_loop. apply bind_Raise.
  destruct (Z.to_nat generations) as [|n] eqn:En; [lia|]. cbn [generations_from].
  apply bind_Raise. unfold generation. cbn [self_].
  destruct (evaluate_few self σ Hlen) as ([avg best] & σ1 & E).
  erewrite bind_eq by exact E. cbv beta iota.
  rewrite bool_decide_eq_false_2 by lia. erewrite bind_eq by reflexivity. cbv beta iota.
  apply bind_Raise.
  destruct (Z.to_nat (population_size self)) as [|m] eqn:Em; [lia|]. cbn [repeatM].
  apply bind_Raise. apply offspring_small. left. lia.
Qed.

Lemma small_population_fails_witness :
  ∃ ga σ,
    construct Inputs.small_engine empty_store = Ok (ga, σ)
    ∧ (1 ≤ length (population (with_population ga (take 3 (population ga)))) < 5)%nat
    ∧ evolve (with_population ga (take 3 (population ga))) 10 0.01%float σ
      = Raise ValueError.
Proof.
  destruct (CacheFacts.outcome_None_Ok _ CacheFacts.small_construct_returns)
    as (ga & σ & E).
  destruct (construct_store _ _ _ _ (CacheFacts.empty_store_inv Inputs.small_engine) E)
    as (_ & (_ & _ & _ & _ & Hsize & _) & Hlen & _).
  assert (length (population ga) = 5%nat) as Hlen5 by (rewrite Hlen; reflexivity).
  assert (1 ≤ length (population (with_population ga (take 3 (population ga)))) < 5)%nat
    as Hfew by (cbn [population with_population]; rewrite length_take, Hlen5; lia).
  assert (1 ≤ population_size (with_population ga (take 3 (population ga)))) as Hpos
    by (cbn [population_size with_population]; rewrite Hsize; cbn; lia).
  exists ga, σ. split; [exact E|]. split; [exact Hfew|].
  exact (small_population_fails _ 10 0.01%float σ Hfew Hpos ltac:(lia)).
Defined.

End BreedingFacts.

(** ** The item objects of the schedules *)

Module ObjectFacts.
Import GeneticAlgorithm EngineTerms EngineFacts MoreTerms StoreFacts.
Import CacheFacts BreedingFacts.

Lemma block_extends K σ σ' s : extends σ σ' → block K σ s → block K σ' s.
Proof.
  intros Hext (Hs & j & Hitems & Hlen).
  destruct (extends_schedule _ _ _ Hext Hs) as [Hs' Hobj]. destruct Hext as [Hpre _].
  apply prefix_length in Hpre. split; [done|]. exists j. rewrite Hobj. split; [done | lia].
Qed.

Lemma block_distinct K σ s :
  block K σ s →
  NoDup (Schedule.items (schedule_objs σ !!! s))
  ∧ valid_refs σ (Schedule.items (schedule_objs σ !!! s))
  ∧ length (Schedule.items (schedule_objs σ !!! s)) = K.
Proof.
  intros (_ & j & -> & Hlen). split; [apply NoDup_seq|]. split; [|apply length_seq].
  apply Forall_seq. intros. lia.
Qed.

(** A loop whose body adds to the store and returns a schedule with a
    property that additions keep. *)
Lemma repeatM_collect (body : M nat) (I : State → Prop) (Q : State → nat → Prop) (n : nat) :
  (∀ σ σ' s, extends σ σ' → Q σ s → Q σ' s) →
  (∀ σ s σ', I σ → body σ = Ok (s, σ') → I σ' ∧ extends σ σ' ∧ Q σ' s) →
  ∀ σ pop σ', I σ → repeatM n body σ = Ok (pop, σ') →
              I σ' ∧ extends σ σ' ∧ Forall (Q σ') pop.
Proof.
  intros Hmono Hbody. induction n as [|n IH]; intros σ pop σ' HI H.
  - injection H as <- <-. split; [done|]. split; [apply extends_refl | constructor].
  - cbn in H. apply bind_Ok in H as (s & σ1 & Hs & H).
    apply bind_Ok in H as (pop' & σ2 & Hpop & H). injection H as <- <-.
    apply Hbody in Hs as (HI1 & He1 & HQ); [|done].
    apply IH in Hpop as (HI2 & He2 & Hall); [|done].
    split; [done|]. split; [by eapply extends_trans|].
    constructor; [by eapply Hmono | done].
Qed.

(** *** The initial population *)

Lemma random_schedule_block self σ s σ' :
  aligned (length (activities self)) σ →
  random_schedule self σ = Ok (s, σ') →
  aligned (length (activities self)) σ' ∧ extends σ σ'
  ∧ block (length (activities self)) σ' s.
Proof.
  intros [m Hm] H. pose proof (random_schedule_inv _ _ _ _ H) as [Hext _].
  unfold random_schedule in H.
  apply bind_Ok in H as (ls & σ1 & Hls & H). injection H as <- <-.
  apply random_items_inv in Hls as (-> & new & Hnew & Hi & Hs).
  assert (length new = length (activities self)) as Hlen
    by (by rewrite <- Hnew, length_fmap).
  split; [|split; [done|]].
  - exists (S m). cbn. rewrite Hi, length_app. lia.
  - split; cbn; [rewrite length_app; cbn; lia|]. exists m.
    rewrite list_lookup_total_middle by done. cbn. rewrite Hm. split; [done|].
    rewrite Hi, length_app. lia.
Qed.

Lemma initialize_population_blocks self σ pop σ' :
  aligned (length (activities self)) σ →
  initialize_population self σ = Ok (pop, σ') →
  aligned (length (activities self)) σ' ∧ extends σ σ'
  ∧ Forall (block (length (activities self)) σ') pop.
Proof.
  intros Ha H.
  eapply (repeatM_collect _ (aligned (length (activities self)))); [| |exact Ha|exact H].
  - intros ???. apply block_extends.
  - intros ???. apply random_schedule_block.
Qed.

(** *** One child *)

Lemma crossover_refs_distinct K j1 j2 C :
  NoDup (take C (seq (K * j1) K) ++ drop C (seq (K * j2) K)).
Proof.
  rewrite take_seq, drop_seq. apply NoDup_app.
  split; [apply NoDup_seq|]. split; [|apply NoDup_seq].
  intros x [H1 H2]%elem_of_seq [H3 H4]%elem_of_seq.
  destruct (decide (j1 = j2)) as [->|Hne]; [lia|].
  destruct (decide (j1 < j2)%nat); nia.
Qed.

Lemma cut_point_range K σ : (2 ≤ K)%nat → (1 ≤ cut_point K σ ≤ K - 1)%nat.
Proof. intros HK. unfold cut_point. pose proof (randbelow_lt (K - 1) σ). lia. Qed.

Lemma crossover_blocks self parent1 parent2 σ child σ' :
  let K := length (activities self) in
  block K σ parent1 → block K σ parent2 →
  crossover self parent1 parent2 σ = Ok (child, σ') →
  (2 ≤ K)%nat
  ∧ child = length (schedule_objs σ)
  ∧ item_objs σ' = item_objs σ
  ∧ extends σ σ'
  ∧ NoDup (Schedule.items (schedule_objs σ' !!! child))
  ∧ valid_refs σ' (Schedule.items (schedule_objs σ' !!! child))
  ∧ length (Schedule.items (schedule_objs σ' !!! child)) = K
  ∧ items_of σ' child
    = take (cut_point K σ) (items_of σ parent1) ++ drop (cut_point K σ) (items_of σ parent2).
Proof.
  intros K (Hs1 & j1 & Hi1 & Hl1) (Hs2 & j2 & Hi2 & Hl2) H.
  apply crossover_inv in H as (HK & -> & Hi & Hs). fold K in HK, Hs.
  pose proof (cut_point_range K σ HK) as HC.
  split; [done|]. split; [done|]. split; [done|]. split.
  { split; [by rewrite Hi|]. rewrite Hs, fmap_app. by apply prefix_app_r. }
  unfold items_of. rewrite Hs, list_lookup_total_middle by done. cbn [Schedule.items].
  rewrite Hi1, Hi2. split; [apply crossover_refs_distinct|]. split; [|split].
  - unfold valid_refs. rewrite Hi, take_seq, drop_seq.
    apply Forall_app. split; apply Forall_seq; intros; lia.
  - rewrite length_app, length_take, length_drop, !length_seq. lia.
  - unfold deref. by rewrite Hi, fmap_app, fmap_take, fmap_drop.
Qed.

Lemma mutate_blocks self s σ s' σ' :
  let K := length (activities self) in
  aligned K σ →
  NoDup (Schedule.items (schedule_objs σ !!! s)) →
  valid_refs σ (Schedule.items (schedule_objs σ !!! s)) →
  length (Schedule.items (schedule_objs σ !!! s)) = K →
  mutate self s σ = Ok (s', σ') →
  aligned K σ' ∧ block K σ' s'.
Proof.
  intros K [m Hm] Hnd Hv Hlen H.
  apply mutate_inv in H as (refs' & σ1 & σ2 & us & Hcopy & Hloop & -> & ->).
  rewrite deepcopy_items_fresh in Hcopy by done. injection Hcopy as <- <-.
  apply (mutate_loop_frame self 0) in Hloop as (_ & Hlen2 & _ & Hsched);
    [|apply Forall_true; intros; lia].
  cbn in Hlen2, Hsched. rewrite length_app in Hlen2. unfold deref in Hlen2.
  rewrite length_fmap, Hlen in Hlen2.
  split.
  - exists (S m). cbn. lia.
  - split; cbn; [rewrite length_app; cbn; lia|]. exists m.
    rewrite list_lookup_total_middle by done. cbn. rewrite Hlen, Hm. split; [done | lia].
Qed.

(** One breeding step on a population of blocks: the child is the cut of
    two schedules of the population with, in each item, at most one of the
    room, the time slot and the facilitator drawn again. *)
Lemma offspring_blocks self σ child σ' :
  let K := length (activities self) in
  blocks_inv self σ →
  offspring self σ = Ok (child, σ') →
  aligned K σ' ∧ extends σ σ' ∧ block K σ' child
  ∧ ∃ parent1 parent2 C,
      parent1 ∈ population self ∧ parent2 ∈ population self ∧ (1 ≤ C ≤ K - 1)%nat
      ∧ Forall2 (λ x y, activity y = activity x ∧ (facets_changed x y ≤ 1)%nat)
          (take C (items_of σ parent1) ++ drop C (items_of σ parent2))
          (items_of σ' child).
Proof.
  intros K [Ha Hpop] H. unfold offspring in H. rewrite Forall_forall in Hpop.
  apply bind_Ok in H as (p1 & σ1 & Hp1 & H).
  apply select_parent_inv in Hp1 as [Hsame1 Hin1].
  apply bind_Ok in H as (p2 & σ2 & Hp2 & H).
  apply select_parent_inv in Hp2 as [Hsame2 Hin2].
  pose proof (same_objects_trans _ _ _ Hsame1 Hsame2) as Hsame.
  pose proof (same_objects_extends _ _ Hsame) as Hext12.
  apply bind_Ok in H as (c & σ3 & Hc & H).
  apply crossover_blocks in Hc
    as (HK & -> & Hi3 & Hext3 & Hnd & Hv & Hlen & Hitems);
    [|by eapply block_extends; [|apply Hpop]..].
  fold K in HK, Hitems.
  assert (aligned K σ3) as Ha3.
  { destruct Ha as [m Hm]. exists m. destruct Hsame as [Hi _]. by rewrite Hi3, Hi. }
  pose proof (mutate_frame _ _ _ _ _ Hv H) as (Hpre & _ & (refs' & Hsch & _) & _).
  pose proof (mutate_blocks _ _ _ _ _ Ha3 Hnd Hv Hlen H) as [Ha4 Hb4].
  split; [done|]. split.
  { eapply extends_trans; [exact Hext12|]. eapply extends_trans; [exact Hext3|].
    split; [done|]. rewrite Hsch, fmap_app. by apply prefix_app_r. }
  split; [done|].
  exists p1, p2, (cut_point K σ2). split; [done|]. split; [done|].
  split; [by apply cut_point_range|].
  assert (∀ s, items_of σ2 s = items_of σ s) as Hsame_items.
  { intros s. unfold items_of, deref. destruct Hsame as [Hi Hs]. rewrite Hi. f_equal.
    assert ((Schedule.items <$> schedule_objs σ2) !!! s
            = (Schedule.items <$> schedule_objs σ) !!! s) as Hl by (by rewrite Hs).
    rewrite !list_lookup_total_alt, !list_lookup_fmap in Hl.
    rewrite !list_lookup_total_alt.
    destruct (schedule_objs σ2 !! s), (schedule_objs σ !! s); done. }
  rewrite <- !Hsame_items, <- Hitems.
  eapply Forall2_impl.
  - apply (mutate_each self (λ g, ∀ x, activity (g x) = activity x
                                       ∧ (facets_changed x (g x) ≤ 1)%nat));
      [|exact Hv|exact Hnd|exact H].
    intros x g Hg a. destruct (PrimFloat.ltb _ _).
    + by apply (facet_change_one self).
    + subst g. split; [done|]. unfold facets_changed.
      rewrite !decide_True by done. lia.
  - cbn. intros x y (g & Hg & ->). apply Hg.
Qed.

(** *** The populations of a run *)

Lemma blocks_inv_extends self σ σ' :
  extends σ σ' → aligned (length (activities self)) σ' →
  blocks_inv self σ → blocks_inv self σ'.
Proof.
  intros Hext Ha [_ Hpop]. split; [done|].
  eapply Forall_impl; [exact Hpop|]. intros s. by apply block_extends.
Qed.

Lemma generation_blocks threshold gen st σ st' stop σ' :
  blocks_inv (self_ st) σ →
  generation threshold gen st σ = Ok ((st', stop), σ') →
  blocks_inv (self_ st') σ' ∧ activities (self_ st') = activities (self_ st).
Proof.
  unfold generation. intros Hinv H.
  apply bind_Ok in H as ([avg best] & σ1 & Heval & H).
  apply evaluate_same in Heval.
  assert (blocks_inv (self_ st) σ1) as Hinv1.
  { eapply blocks_inv_extends; [by apply same_objects_extends| |done].
    destruct Hinv as [[m Hm] _], Heval as [Hi _]. exists m. by rewrite Hi. }
  apply bind_Ok in H as (b & σ2 & Hb & H).
  assert (σ2 = σ1) as ->.
  { case_bool_decide; [by eapply converged_state | by injection Hb as _ <-]. }
  destruct b.
  - by injection H as <- _ <-.
  - apply bind_Ok in H as (new_population & σ3 & Hnew & H). injection H as <- _ <-.
    apply (repeatM_collect _ (blocks_inv (self_ st))
             (block (length (activities (self_ st))))) in Hnew
      as ([Ha3 _] & _ & Hall); [done| | |done].
    + intros ???. apply block_extends.
    + intros σa s σb Ha Hs.
      apply offspring_blocks in Hs as (Hal & Hext & Hblock & _); [|done].
      split; [by eapply blocks_inv_extends | done].
Qed.

Lemma generations_from_blocks threshold n : ∀ gen st σ st' σ',
  blocks_inv (self_ st) σ →
  generations_from threshold n gen st σ = Ok (st', σ') →
  blocks_inv (self_ st') σ' ∧ activities (self_ st') = activities (self_ st).
Proof.
  induction n as [|n IH]; intros gen st σ st' σ' Hinv H.
  - by injection H as <- <-.
  - cbn [generations_from] in H. apply bind_Ok in H as ([st1 stop] & σ1 & Hgen & H).
    apply generation_blocks in Hgen as (Hinv1 & Hact1); [|done].
    destruct stop.
    + by injection H as <- <-.
    + apply IH in H as (Hinv2 & Hact2); [|done]. split; [done | congruence].
Qed.

Lemma evolve_blocks self generations threshold σ best ga σ' :
  blocks_inv self σ →
  evolve self generations threshold σ = Ok ((best, ga), σ') →
  blocks_inv ga σ' ∧ activities ga = activities self ∧ best ∈ population ga.
Proof.
  unfold evolve, evolve_loop. intros Hinv H.
  apply bind_Ok in H as (st & σ1 & Hloop & H).
  apply generations_from_blocks in Hloop as (Hinv1 & Hact); [|done]. cbn [self_] in Hact.
  apply bind_Ok in H as (keyed & σ2 & Hk & H).
  apply keyed_inv in Hk as [Hsame Hfst].
  apply bind_Ok in H as (b & σ3 & Hb & H). apply py_max_by_inv in Hb as [-> Hin].
  injection H as <- <- <-. rewrite Hfst in Hin. split; [|done].
  eapply blocks_inv_extends; [by apply same_objects_extends| |done].
  destruct Hinv1 as [[m Hm] _], Hsame as [Hi _]. exists m. by rewrite Hi.
Qed.

Lemma construct_blocks self σ ga σ' :
  aligned (length (activities self)) σ →
  construct self σ = Ok (ga, σ') →
  blocks_inv ga σ' ∧ activities ga = activities self.
Proof.
  unfold construct, init. intros Ha H.
  apply bind_Ok in H as (pop & σ1 & Hpop & H). injection H as <- <-.
  apply initialize_population_blocks in Hpop as (Ha1 & _ & Hall); [|done].
  by split.
Qed.

(** In a run from a store whose items come in blocks of one for each
    activity, the empty store for one, every schedule of the population that
    the constructor makes and of the last population of [evolve], and the
    schedule that [evolve] returns, holds as many item objects as there are
    activities, all distinct: no item object occurs twice in a schedule. *)
Theorem schedules_hold_distinct_objects (self : t) (σ : State) (ga : t) (σ1 : State)
    (generations : Z) (improvement_threshold : float) (best : nat) (ga' : t) (σ2 : State) :
  aligned (length (activities self)) σ →
  construct self σ = Ok (ga, σ1) →
  evolve ga generations improvement_threshold σ1 = Ok ((best, ga'), σ2) →
  Forall (λ s, NoDup (Schedule.items (schedule_objs σ1 !!! s))
               ∧ length (Schedule.items (schedule_objs σ1 !!! s))
                 = length (activities self))
         (population ga)
  ∧ Forall (λ s, NoDup (Schedule.items (schedule_objs σ2 !!! s))
                 ∧ length (Schedule.items (schedule_objs σ2 !!! s))
                   = length (activities self))
           (population ga')
  ∧ best ∈ population ga'.
Proof.
  intros Ha Hc He.
  apply construct_blocks in Hc as ([Ha1 Hpop1] & Hact1); [|done].
  pose proof (evolve_blocks _ _ _ _ _ _ _ (conj Ha1 Hpop1) He) as ([Ha2 Hpop2] & Hact2 & Hin).
  rewrite Hact2 in Hpop2. rewrite Hact1 in Hpop1, Hpop2.
  split; [|split; [|done]].
  - eapply Forall_impl; [exact Hpop1|]. intros s Hs. by apply block_distinct in Hs as (? & _ & ?).
  - eapply Forall_impl; [exact Hpop2|]. intros s Hs. by apply block_distinct in Hs as (? & _ & ?).
Qed.

Lemma schedules_hold_distinct_objects_witness :
  ∃ ga σ1 best ga' σ2,
    aligned (length (activities Inputs.small_engine)) empty_store
    ∧ construct Inputs.small_engine empty_store = Ok (ga, σ1)
    ∧ evolve ga 2 0.01%float σ1 = Ok ((best, ga'), σ2)
    ∧ Forall (λ s, NoDup (Schedule.items (schedule_objs σ2 !!! s))
                   ∧ length (Schedule.items (schedule_objs σ2 !!! s))
                     = length (activities Inputs.small_engine))
             (population ga').
Proof.
  assert (aligned (length (activities Inputs.small_engine)) empty_store) as Ha
    by (exists 0%nat; reflexivity).
  destruct short_run_steps as (ga & σ1 & best & ga' & σ2 & H1 & H2).
  exists ga, σ1, best, ga', σ2. split; [exact Ha|]. split; [exact H1|]. split; [exact H2|].
  exact (proj1 (proj2 (schedules_hold_distinct_objects Inputs.small_engine empty_store
                         ga σ1 2 0.01%float best ga' σ2 Ha H1 H2))).
Defined.

(** One breeding step of [evolve] on a population whose schedules hold one
    block of items each: the child is a new schedule cut from two schedules
    of the population at a point [C] with [1 <= C <= K - 1], and each of its
    items is a copy of the item of the cut at its position with its
    activity, and with at most one of the room, the time slot and the
    facilitator drawn again. *)
Theorem breeding_step (self : t) (σ : State) (child : nat) (σ' : State) :
  blocks_inv self σ →
  offspring self σ = Ok (child, σ') →
  ∃ parent1 parent2 C,
    parent1 ∈ population self ∧ parent2 ∈ population self
    ∧ (1 ≤ C ≤ length (activities self) - 1)%nat
    ∧ Forall2 (λ x y, activity y = activity x ∧ (facets_changed x y ≤ 1)%nat)
        (take C (items_of σ parent1) ++ drop C (items_of σ parent2))
        (items_of σ' child)
    ∧ NoDup (Schedule.items (schedule_objs σ' !!! child))
    ∧ (∀ s, s ∈ population self → items_of σ' s = items_of σ s).
Proof.
  intros Hinv H.
  pose proof (offspring_blocks _ _ _ _ Hinv H)
    as (_ & Hext & Hblock & p1 & p2 & C & Hp1 & Hp2 & HC & Hitems).
  exists p1, p2, C. do 4 (split; [done|]).
  split; [by apply block_distinct in Hblock as [? _]|].
  intros s Hs. destruct Hinv as [_ Hpop]. rewrite Forall_forall in Hpop.
  destruct (Hpop s Hs) as [Hlt _].
  pose proof (block_distinct _ _ _ (Hpop s Hs)) as (_ & Hv & _).
  destruct (extends_schedule _ _ _ Hext Hlt) as [_ Hobj]. destruct Hext as [Hpre _].
  unfold items_of. rewrite Hobj. by apply deref_prefix.
Qed.

Lemma breeding_step_witness :
  ∃ ga σ child σ',
    construct Inputs.small_engine empty_store = Ok (ga, σ)
    ∧ blocks_inv ga σ
    ∧ offspring ga σ = Ok (child, σ')
    ∧ NoDup (Schedule.items (schedule_objs σ' !!! child)).
Proof.
  destruct (outcome_None_Ok _ small_construct_returns) as (ga & σ & E).
  assert (aligned (length (activities Inputs.small_engine)) empty_store) as Ha
    by (exists 0%nat; reflexivity).
  destruct (construct_blocks _ _ _ _ Ha E) as [Hinv _].
  destruct (construct_store _ _ _ _ (empty_store_inv Inputs.small_engine) E)
    as (_ & (Hact & Hr & Ht & Hf & _) & Hlen & _).
  destruct (offspring_Ok ga σ) as (child & σ' & E').
  - rewrite Hlen. vm_compute. lia.
  - rewrite Hact. vm_compute. lia.
  - by rewrite Hr.
  - by rewrite Ht.
  - by rewrite Hf.
  - exists ga, σ, child, σ'. split; [exact E|]. split; [exact Hinv|]. split; [exact E'|].
    destruct (breeding_step ga σ child σ' Hinv E') as (p1 & p2 & C & _ & _ & _ & _ & Hnd & _).
    exact Hnd.
Defined.

End ObjectFacts.

(** ** The turnover of the population *)

Module TurnoverFacts.
Import GeneticAlgorithm EngineTerms EngineFacts MoreTerms StoreFacts LoopFacts.
Import CacheFacts BreedingFacts.

Lemma offspring_loop_fresh self n : ∀ σ pop σ',
  repeatM n (offspring self) σ = Ok (pop, σ') →
  pop = (λ i, length (schedule_objs σ) + 1 + 2 * i)%nat <$> seq 0 n
  ∧ length (schedule_objs σ') = (length (schedule_objs σ) + 2 * n)%nat.
Proof.
  induction n as [|n IH]; intros σ pop σ' H.
  - injection H as <- <-. split; [done | lia].
  - cbn [repeatM] in H. apply bind_Ok in H as (child & σ1 & Hc & H).
    apply bind_Ok in H as (rest & σ2 & Hrest & H). injection H as <- <-.
    apply offspring_fresh in Hc as [-> Hlen1]. apply IH in Hrest as [-> Hlen2].
    split; [|lia]. cbn [seq fmap list_fmap]. f_equal; [lia|].
    rewrite <- fmap_S_seq, <- list_fmap_compose. apply list_fmap_ext.
    intros _ i _. cbn. lia.
Qed.

Lemma evaluate_schedules self σ r σ' :
  evaluate self σ = Ok (r, σ') → length (schedule_objs σ') = length (schedule_objs σ).
Proof.
  intros [_ Hs]%evaluate_same.
  by rewrite <- (length_fmap Schedule.items (schedule_objs σ')), Hs, length_fmap.
Qed.

(** A generation that does not end the loop replaces the whole
    population: the next population is made of [population_size] new
    [Schedule] objects, every second one of the objects that the generation
    makes, and no schedule of the store as it was is carried over, the best
    one no more than the others. *)
Theorem generation_replaces_population (threshold : float) (gen : Z) (st : loop)
    (σ : State) (st' : loop) (σ' : State) :
  generation threshold gen st σ = Ok ((st', false), σ') →
  let n := Z.to_nat (population_size (self_ st)) in
  population (self_ st')
    = (λ i, length (schedule_objs σ) + 1 + 2 * i)%nat <$> seq 0 n
  ∧ length (schedule_objs σ') = (length (schedule_objs σ) + 2 * n)%nat
  ∧ Forall (λ s, length (schedule_objs σ) < s < length (schedule_objs σ'))%nat
           (population (self_ st')).
Proof.
  intros H n. unfold generation in H.
  apply bind_Ok in H as ([avg best] & σ1 & Heval & H). apply evaluate_schedules in Heval.
  apply bind_Ok in H as (b & σ2 & Hb & H).
  assert (σ2 = σ1) as ->.
  { case_bool_decide; [by eapply converged_state | by injection Hb as _ <-]. }
  destruct b; [by injection H|].
  apply bind_Ok in H as (new_population & σ3 & Hnew & H). injection H as <- <-.
  apply offspring_loop_fresh in Hnew as [-> Hlen]. rewrite Heval in *. fold n in Hlen |- *.
  cbn [population with_population self_]. split; [done|]. split; [done|].
  apply Forall_fmap, Forall_seq. intros i Hi. cbn. lia.
Qed.

Lemma first_generation_returns :
  outcome ((construct Inputs.small_engine
              ≫= λ ga, generation 0.01%float 0 (mkLoop ga [] [])) empty_store) = None.
Proof. vm_compute. reflexivity. Qed.

Lemma generation_replaces_population_witness :
  ∃ ga σ st' σ',
    construct Inputs.small_engine empty_store = Ok (ga, σ)
    ∧ generation 0.01%float 0 (mkLoop ga [] []) σ = Ok ((st', false), σ')
    ∧ Forall (λ s, length (schedule_objs σ) < s < length (schedule_objs σ'))%nat
             (population (self_ st')).
Proof.
  destruct (outcome_None_Ok _ first_generation_returns) as ([st' stop] & σ' & E).
  apply bind_Ok in E as (ga & σ & H1 & H2).
  pose proof (generation_shape _ _ _ _ _ _ _ H2) as (_ & _ & _ & Hstop).
  destruct stop; [destruct Hstop; lia|].
  exists ga, σ, st', σ'. split; [exact H1|]. split; [exact H2|].
  exact (proj2 (proj2 (generation_replaces_population _ _ _ _ _ _ H2))).
Defined.

End TurnoverFacts.

(** ** The report *)

Module ReportFacts.
Import Report Fitness FitnessTerms MoreTerms.

Lemma insert_by_perm {A} (le : A → A → bool) x l : insert_by le x l ≡ₚ x :: l.
Proof.
  induction l as [|y l IH]; cbn; [done|]. destruct (le x y); [done|].
  rewrite IH. apply Permutation_swap.
Qed.

Lemma py_sorted_perm {A} (le : A → A → bool) l : py_sorted le l ≡ₚ l.
Proof.
  induction l as [|x l IH]; cbn; [done|]. by rewrite insert_by_perm, IH.
Qed.

Lemma insert_by_sorted {A} (le : A → A → bool) x l :
  (∀ a b, le a b = false → le b a = true) →
  Sorted (λ a b, le a b = true) l → Sorted (λ a b, le a b = true) (insert_by le x l).
Proof.
  intros Htotal. induction 1 as [|y l Hl IH Hhd]; cbn; [by repeat constructor|].
  destruct (le x y) eqn:E.
  - constructor; [by constructor|]. by constructor.
  - constructor; [done|]. destruct Hhd as [|z l Hz]; cbn.
    + constructor. by apply Htotal.
    + destruct (le x z); constructor; [by apply Htotal | done].
Qed.

Lemma py_sorted_sorted {A} (le : A → A → bool) l :
  (∀ a b, le a b = false → le b a = true) →
  Sorted (λ a b, le a b = true) (py_sorted le l).
Proof.
  intros Htotal. induction l as [|x l IH]; cbn; [constructor|].
  by apply insert_by_sorted.
Qed.

Lemma key_le_total x y : key_le x y = false → key_le y x = true.
Proof.
  unfold key_le. intros H.
  destruct (String.leb_total (Activity.name (activity x)) (Activity.name (activity y)))
    as [E|E]; rewrite E in *; repeat case_bool_decide; cbn in *; try done; lia.
Qed.

Lemma key_le_hour x y :
  key_le x y = true → TimeSlot.hour (time_slot x) ≤ TimeSlot.hour (time_slot y).
Proof. unfold key_le. repeat case_bool_decide; cbn; try done; lia. Qed.

Lemma sorted_by_hour items :
  StronglySorted (λ x y, TimeSlot.hour (time_slot x) ≤ TimeSlot.hour (time_slot y))
                 (sorted_items items).
Proof.
  apply Sorted_StronglySorted; [intros x y z; lia|].
  pose proof (py_sorted_sorted key_le items key_le_total) as H. fold (sorted_items items) in H.
  induction H as [|x l Hl IH Hhd]; constructor; [done|].
  destruct Hhd; constructor. by apply key_le_hour.
Qed.

Lemma item_lines_no_header it : filter (λ s, is_header s = true) (item_lines it) = [].
Proof. done. Qed.

Lemma item_lines_kept it : filter (λ s, is_header s = false) (item_lines it) = item_lines it.
Proof. done. Qed.

Lemma header_is_header ts : is_header (header ts) = true.
Proof.
  unfold is_header, header. destruct (TimeSlot.str ts +:+ " ==="); reflexivity.
Qed.

(** The report goes through the items by hour, and by the name of the
    activity within an hour; it prints the five lines of each item of the
    schedule once, and nothing else but the lines that announce a time
    slot. *)
Theorem report_lists_every_item (items : list item) :
  sorted_items items ≡ₚ items
  ∧ Sorted (λ x y, key_le x y = true) (sorted_items items)
  ∧ StronglySorted (λ x y, TimeSlot.hour (time_slot x) ≤ TimeSlot.hour (time_slot y))
                   (sorted_items items)
  ∧ filter (λ s, is_header s = false) (print_schedule items)
    = concat (item_lines <$> sorted_items items).
Proof.
  split; [apply py_sorted_perm|]. split; [apply py_sorted_sorted, key_le_total|].
  split; [apply sorted_by_hour|].
  unfold print_schedule. generalize (sorted_items items) (@None TimeSlot.t).
  induction l as [|it l IH]; intros c; [done|]. cbn [print_items fmap list_fmap concat].
  rewrite !filter_app, IH, item_lines_kept. case_decide; [|done].
  by rewrite filter_cons, header_is_header.
Qed.

(** *** The lines of the time slots *)

Lemma length_append (s t : string) :
  String.length (s +:+ t) = (String.length s + String.length t)%nat.
Proof.
  induction s as [|c s IH]; [done|].
  change (String c s +:+ t) with (String c (s +:+ t)). cbn. by rewrite IH.
Qed.

Lemma app_inv_tail_string (t : string) : ∀ s1 s2, s1 +:+ t = s2 +:+ t → s1 = s2.
Proof.
  induction s1 as [|c s1 IH]; intros [|d s2] H.
  - done.
  - exfalso. apply (f_equal String.length) in H. rewrite !length_append in H.
    cbn in H. lia.
  - exfalso. apply (f_equal String.length) in H. rewrite !length_append in H.
    cbn in H. lia.
  - change (String c (s1 +:+ t) = String d (s2 +:+ t)) in H.
    injection H as -> H. f_equal. by apply IH.
Qed.

Lemma header_inj ts1 ts2 : header ts1 = header ts2 → ts1 = ts2.
Proof.
  unfold header. intros H. apply (inj (String.append _)) in H.
  apply (inj (String.append _)) in H. apply app_inv_tail_string in H.
  by apply KeyFacts.str_inj.
Qed.

Lemma headers_of_print_items l :
  StronglySorted (λ x y, TimeSlot.hour (time_slot x) ≤ TimeSlot.hour (time_slot y)) l →
  hour_tells_slot l →
  ∀ c, let hs := filter (λ s, is_header s = true) (print_items c l) in
    NoDup hs
    ∧ (∀ h, h ∈ hs → ∃ x, x ∈ l ∧ h = header (time_slot x))
    ∧ (∀ x, x ∈ l → c ≠ Some (time_slot x) → header (time_slot x) ∈ hs)
    ∧ (∀ ts0, c = Some ts0 →
         (∀ x, x ∈ l → TimeSlot.hour ts0 ≤ TimeSlot.hour (time_slot x)) →
         (∀ x, x ∈ l → TimeSlot.hour (time_slot x) = TimeSlot.hour ts0 → time_slot x = ts0) →
         header ts0 ∉ hs).
Proof.
  induction 1 as [|it l Hl IH Hle]; intros Htells c hs.
  { subst hs. cbn. split; [constructor|]. split; [by intros ? ?%elem_of_nil|].
    split; [by intros ? ?%elem_of_nil|]. by intros ? _ _ _ ?%elem_of_nil. }
  rewrite Forall_forall in Hle.
  assert (hour_tells_slot l) as Htells'.
  { unfold hour_tells_slot in *. apply Forall_cons in Htells as [_ Htells].
    eapply Forall_impl; [exact Htells|]. cbn. by intros x [_ ?]%Forall_cons. }
  assert (∀ x, x ∈ l → TimeSlot.hour (time_slot x) = TimeSlot.hour (time_slot it) →
               time_slot x = time_slot it) as Hit.
  { intros x Hx E. unfold hour_tells_slot in Htells.
    apply Forall_cons in Htells as [Hhd _]. apply Forall_cons in Hhd as [_ Hhd].
    rewrite Forall_forall in Hhd. symmetry. apply Hhd; done. }
  destruct (IH Htells' (Some (time_slot it))) as (Hnd & Hfrom & Hcover & Hfresh).
  specialize (Hfresh (time_slot it) eq_refl Hle Hit).
  set (hs' := filter (λ s, is_header s = true) (print_items (Some (time_slot it)) l)) in *.
  assert (hs = (if decide (c ≠ Some (time_slot it)) then [header (time_slot it)] else [])
               ++ hs') as ->.
  { subst hs hs'. cbn [print_items]. rewrite !filter_app, item_lines_no_header.
    case_decide; [|done]. by rewrite filter_cons, header_is_header. }
  split; [|split; [|split]].
  - case_decide; [|done]. cbn. by constructor.
  - intros h Hh. apply elem_of_app in Hh as [Hh|Hh].
    + case_decide; [|by apply elem_of_nil in Hh].
      apply list_elem_of_singleton in Hh as ->. exists it. split; [left | done].
    + destruct (Hfrom h Hh) as (x & Hx & ->). exists x. split; [by right | done].
  - intros x Hx Hc. apply elem_of_cons in Hx as [->|Hx].
    + rewrite decide_True by done. apply elem_of_app. left. by left.
    + destruct (decide (time_slot x = time_slot it)) as [E|Hne].
      * rewrite E in *. rewrite decide_True by done. apply elem_of_app. left. by left.
      * apply elem_of_app. right. apply Hcover; [done|]. by intros [= ?].
  - intros ts0 -> Hmin Hts0 Hin. apply elem_of_app in Hin as [Hin|Hin].
    + case_decide as Hc; [|by apply elem_of_nil in Hin].
      apply list_elem_of_singleton, header_inj in Hin. by subst ts0.
    + destruct (Hfrom _ Hin) as (x & Hx & E%header_inj). subst ts0.
      assert (time_slot it = time_slot x) as E; [|by rewrite E in Hfresh].
      apply Hts0; [left|]. pose proof (Hle x Hx). pose proof (Hmin it ltac:(left)). lia.
Qed.

Lemma hour_tells_slot_perm l l' : l ≡ₚ l' → hour_tells_slot l → hour_tells_slot l'.
Proof.
  intros Hp H. unfold hour_tells_slot in *. rewrite <- Hp.
  eapply Forall_impl; [exact H|]. cbn. intros x Hx. by rewrite <- Hp.
Qed.

(** When the hour of an item tells its time slot, as in a schedule made of
    the time slots of the dataset, the report announces each time slot of
    the schedule once: the lines of the time slots are all different, there
    is one for the time slot of every item, and no other. *)
Theorem report_announces_slots_once (items : list item) :
  hour_tells_slot items →
  let headers := filter (λ s, is_header s = true) (print_schedule items) in
  NoDup headers
  ∧ (∀ x, x ∈ items → header (time_slot x) ∈ headers)
  ∧ (∀ h, h ∈ headers → ∃ x, x ∈ items ∧ h = header (time_slot x)).
Proof.
  intros Htells headers.
  pose proof (py_sorted_perm key_le items) as Hp. fold (sorted_items items) in Hp.
  destruct (headers_of_print_items (sorted_items items) (sorted_by_hour items)
              (hour_tells_slot_perm _ _ (symmetry Hp) Htells) None)
    as (Hnd & Hfrom & Hcover & _).
  split; [done|]. split.
  - intros x Hx. apply Hcover; [by rewrite Hp | done].
  - intros h Hh. destruct (Hfrom h Hh) as (x & Hx & ->). exists x. by rewrite <- Hp.
Qed.

Lemma dataset_schedule_hours : hour_tells_slot Inputs.dataset_schedule.
Proof. refine (bool_decide_unpack _ _). vm_compute. exact I. Qed.

Lemma report_announces_slots_once_witness :
  hour_tells_slot Inputs.dataset_schedule
  ∧ NoDup (filter (λ s, is_header s = true) (print_schedule Inputs.dataset_schedule)).
Proof.
  split; [exact dataset_schedule_hours|].
  exact (proj1 (report_announces_slots_once Inputs.dataset_schedule dataset_schedule_hours)).
Defined.

(** *** The workload *)

Lemma facilitator_load_tables items : facilitator_load items = (tables items).1.
Proof.
  unfold facilitator_load, tables.
  generalize (∅ : gmap string Z) (∅ : gmap string (list item)).
  induction items as [|it items IH]; intros L T; [done|]. cbn [foldl].
  destruct (tally (L, T) it) as [L' T'] eqn:E. rewrite <- (IH L' T'). f_equal.
  by injection E as <- _.
Qed.

Lemma facilitator_load_lookup items f :
  facilitator_load items !! f
  = if decide (load_of items f = 0) then None else Some (load_of items f).
Proof.
  rewrite facilitator_load_tables. unfold tables.
  rewrite (proj1 (FitnessFacts.foldl_tally items ∅ ∅)), lookup_empty. cbn.
  case_decide; [done|]. f_equal; lia.
Qed.

Lemma pair_le_total p q : pair_le p q = false → pair_le q p = true.
Proof.
  unfold pair_le, String.ltb. destruct p as [f n], q as [g m]. cbn.
  rewrite (String.compare_antisym g f).
  destruct (String.compare f g) eqn:E; cbn; try done.
  apply String.compare_eq_iff in E as ->. repeat case_bool_decide; try done; lia.
Qed.

(** The summary of the workload has one line for each facilitator of the
    schedule, with the number of the items of the facilitator, in the order
    of the names. *)
Theorem workload_summary (items : list item) :
  ∃ pairs : list (string * Z),
    print_workload items = (λ p, p.1 +:+ ": " +:+ pretty p.2 +:+ " activities") <$> pairs
    ∧ (∀ f n, (f, n) ∈ pairs ↔ n = load_of items f ∧ 1 ≤ n)
    ∧ NoDup pairs.*1
    ∧ Sorted (λ p q, String.ltb p.1 q.1 = true) pairs.
Proof.
  set (pairs := py_sorted pair_le (map_to_list (facilitator_load items))).
  pose proof (py_sorted_perm pair_le (map_to_list (facilitator_load items))) as Hp.
  fold pairs in Hp.
  assert (NoDup pairs.*1) as Hnd.
  { rewrite Hp. apply NoDup_fst_map_to_list. }
  exists pairs. split; [done|]. split; [|split; [done|]].
  - intros f n. rewrite Hp, elem_of_map_to_list, facilitator_load_lookup.
    pose proof (FitnessFacts.load_of_nonneg items f) as Hn0.
    case_decide; split; try done.
    + intros [-> ?]. lia.
    + intros [= <-]. split; [done | lia].
    + by intros [-> _].
  - pose proof (py_sorted_sorted pair_le (map_to_list (facilitator_load items))
                  pair_le_total) as Hs. fold pairs in Hs.
    clear Hp. induction Hs as [|p l Hl IH Hhd]; [constructor|].
    cbn in Hnd. apply NoDup_cons in Hnd as [Hp Hnd].
    constructor; [by apply IH|]. destruct Hhd as [|q l Hq]; constructor.
    unfold pair_le in Hq. destruct (String.ltb p.1 q.1); [done|]. cbn in Hq.
    case_bool_decide as E; [|done]. exfalso. apply Hp. rewrite E. cbn. left.
Qed.

End ReportFacts.
